(** * pin-extractor: the two core functions and the page of [app.py]

    [decode_viewstate] locates the [__VIEWSTATE] attribute value in an HTML
    text, reverses base64, tries zlib and decodes the bytes as text;
    [extract_pin_value] searches the decoded text for a labelled 6-digit
    number.  Both are embedded here together with the parts of the Python
    standard library they call ([re], [base64], [zlib], the UTF-8 and
    Latin-1 codecs), modelled after CPython 3.11, and with the
    [__main__] block that calls them from the page.

    Conventions: a Python [str] is a list of code points, a [bytes] object a
    list of integers in [0, 256); both are lists over [Z].  A Python
    exception is a value of [exn] carried by the [res] monad.

    The diagnostic [print] calls of the source do not contribute to the
    returned value, but a [print] raises UnicodeEncodeError when the
    standard output cannot encode its text.  Nearly all of them write
    ASCII text whatever the input (fixed messages, the repr of bytes, the
    messages of the library's exceptions, lengths); three write input
    text: the one of line 21, outside every [try] of [decode_viewstate],
    and those of lines 105 and 113 of the page.  The functions are
    embedded twice.  [decode_viewstate] and [App] are the code with every
    write to the standard output succeeding: what is returned and shown
    then.  [Printing] is the code with the three writes that can fail, for
    a given standard output; on an output that can write the text the two
    agree. *)

From Stdlib Require Import String Ascii ZArith List Bool Lia Arith.
Import ListNotations.
Local Open Scope Z_scope.

(* ================================================================== *)
(** * Python values *)

Definition pystr := list Z.
Definition bytes := list Z.

(** An ASCII literal of the source as a Python [str]. *)
Definition lit (s : string) : pystr :=
  map (fun a => Z.of_N (N_of_ascii a)) (list_ascii_of_string s).

Definition DQUOTE : Z := 34.   (* the double quote *)
Definition GT : Z := 62.       (* the character > *)
Definition NEWLINE : Z := 10.

Definition is_byte (b : Z) : bool := (0 <=? b) && (b <? 256).
Definition is_ascii (c : Z) : bool := (0 <=? c) && (c <? 128).

(* ================================================================== *)
(** * Exceptions *)

Module Exn.

(** The exception classes that the library calls of [decode_viewstate] can
    raise. *)
Inductive exn : Set :=
| ValueError           (* str.encode('ascii') inside base64.b64decode *)
| BinasciiError        (* binascii.Error, a subclass of ValueError *)
| ZlibError            (* zlib.error *)
| UnicodeDecodeError   (* a subclass of ValueError *)
| UnicodeEncodeError.  (* a subclass of ValueError, raised by print *)

(** The classes named by the [except] clauses of the source. *)
Inductive exn_class : Set :=
| CBinasciiError | CZlibError | CUnicodeDecodeError | CException.

Definition isinstance (e : exn) (c : exn_class) : bool :=
  match c, e with
  | CException, _ => true
  | CBinasciiError, BinasciiError => true
  | CZlibError, ZlibError => true
  | CUnicodeDecodeError, UnicodeDecodeError => true
  | _, _ => false
  end.

Inductive res (A : Type) : Type :=
| Ok (a : A)
| Raise (e : exn).

Arguments Ok {A} a.
Arguments Raise {A} e.

Definition bind {A B} (m : res A) (f : A -> res B) : res B :=
  match m with
  | Ok a => f a
  | Raise e => Raise e
  end.

(** [try: body except cls: handler] *)
Definition try_except {A} (body : res A) (cls : exn_class) (handler : res A)
  : res A :=
  match body with
  | Ok a => Ok a
  | Raise e => if isinstance e cls then handler else Raise e
  end.

End Exn.
Import Exn.

Notation "x <- m ;; k" := (bind m (fun x => k))
  (at level 61, m at next level, right associativity).
Notation "'try' b 'except' c '=>' h" := (try_except b c h)
  (at level 61, b at next level, right associativity).

(* ================================================================== *)
(** * The regular-expression engine ([re.search])

    The two patterns of the source use literals, single-character
    repetitions, capture groups and a one-character negative look-behind.
    The matcher below is the backtracking matcher of CPython's [_sre] for
    that fragment: alternatives are tried in priority order and the first
    success is returned. *)

Module Re.

(** ** Character tests *)

(** Unicode decimal digits (general category Nd, Unicode 14.0): what [\d]
    matches in a [str] pattern. *)
Definition Nd_ranges : list (Z * Z) :=
  [ (0x30, 0x39); (0x660, 0x669); (0x6f0, 0x6f9); (0x7c0, 0x7c9);
    (0x966, 0x96f); (0x9e6, 0x9ef); (0xa66, 0xa6f); (0xae6, 0xaef);
    (0xb66, 0xb6f); (0xbe6, 0xbef); (0xc66, 0xc6f); (0xce6, 0xcef);
    (0xd66, 0xd6f); (0xde6, 0xdef); (0xe50, 0xe59); (0xed0, 0xed9);
    (0xf20, 0xf29); (0x1040, 0x1049); (0x1090, 0x1099); (0x17e0, 0x17e9);
    (0x1810, 0x1819); (0x1946, 0x194f); (0x19d0, 0x19d9); (0x1a80, 0x1a89);
    (0x1a90, 0x1a99); (0x1b50, 0x1b59); (0x1bb0, 0x1bb9); (0x1c40, 0x1c49);
    (0x1c50, 0x1c59); (0xa620, 0xa629); (0xa8d0, 0xa8d9); (0xa900, 0xa909);
    (0xa9d0, 0xa9d9); (0xa9f0, 0xa9f9); (0xaa50, 0xaa59); (0xabf0, 0xabf9);
    (0xff10, 0xff19); (0x104a0, 0x104a9); (0x10d30, 0x10d39);
    (0x11066, 0x1106f); (0x110f0, 0x110f9); (0x11136, 0x1113f);
    (0x111d0, 0x111d9); (0x112f0, 0x112f9); (0x11450, 0x11459);
    (0x114d0, 0x114d9); (0x11650, 0x11659); (0x116c0, 0x116c9);
    (0x11730, 0x11739); (0x118e0, 0x118e9); (0x11950, 0x11959);
    (0x11c50, 0x11c59); (0x11d50, 0x11d59); (0x11da0, 0x11da9);
    (0x16a60, 0x16a69); (0x16ac0, 0x16ac9); (0x16b50, 0x16b59);
    (0x1d7ce, 0x1d7ff); (0x1e140, 0x1e149); (0x1e2f0, 0x1e2f9);
    (0x1e950, 0x1e959); (0x1fbf0, 0x1fbf9) ].

Definition in_range (c : Z) (r : Z * Z) : bool :=
  (fst r <=? c) && (c <=? snd r).

Definition is_decimal (c : Z) : bool := existsb (in_range c) Nd_ranges.

Definition is_ascii_digit (c : Z) : bool := (0x30 <=? c) && (c <=? 0x39).

(** Simple lower-case mapping, as far as the patterns need it: upper-case
    ASCII letters, and the two other code points whose lower-case image is
    an ASCII letter (U+0130 and the Kelvin sign U+212A).  The image is only
    ever compared with an ASCII letter of a pattern or with one of its
    [fixes], none of which is the image of any further code point, so
    every other code point may stay where it is. *)
Definition unicode_tolower (c : Z) : Z :=
  if (0x41 <=? c) && (c <=? 0x5a) then c + 32
  else if c =? 0x130 then 0x69
  else if c =? 0x212a then 0x6b
  else c.

Definition is_ascii_letter (c : Z) : bool :=
  ((0x41 <=? c) && (c <=? 0x5a)) || ((0x61 <=? c) && (c <=? 0x7a)).

(** [_sre.unicode_iscased] on the characters of the patterns (all ASCII). *)
Definition iscased (c : Z) : bool := is_ascii_letter c.

(** [sre_compile._equivalences], the rows with an ASCII member: characters
    that match each other under IGNORECASE although neither is the
    lower-case image of the other. *)
Definition fixes (lo : Z) : list Z :=
  if lo =? 0x69 then [0x131]        (* i, dotless i *)
  else if lo =? 0x73 then [0x17f]   (* s, long s *)
  else [].

Definition mem (c : Z) (l : list Z) : bool := existsb (Z.eqb c) l.

(** Does text character [ch] match the pattern literal [c]?  Follows the
    code that [sre_compile] emits for a literal: LITERAL without the flag
    or for an uncased character, LITERAL_UNI_IGNORE for a cased one, and
    IN_UNI_IGNORE over [lo :: fixes lo] when the letter has [fixes]. *)
Definition literal_matches (ignorecase : bool) (c ch : Z) : bool :=
  if ignorecase && iscased c then
    let lo := unicode_tolower c in
    mem (unicode_tolower ch) (lo :: fixes lo)
  else ch =? c.

(** The single-character sets of the two patterns. *)
Inductive charset : Set :=
| ANY                    (* .    : anything but a newline (no DOTALL) *)
| NOT_LITERAL (c : Z)    (* [^c] *)
| DIGIT.                 (* \d   *)

Definition in_charset (cs : charset) (ch : Z) : bool :=
  match cs with
  | ANY => negb (ch =? NEWLINE)
  | NOT_LITERAL c => negb (ch =? c)
  | DIGIT => is_decimal ch
  end.

(** ** Patterns *)

Inductive item : Set :=
| Lit (c : Z)                               (* a literal character *)
| Rep (cs : charset) (lo : nat) (hi : option nat) (greedy : bool)
                                            (* cs{lo,hi}, cs* or cs*? *)
| GroupOpen (n : nat)                       (* ( *)
| GroupClose (n : nat)                      (* ) *)
| NotBehind (cs : charset).                 (* (?<!cs) *)

Definition pattern := list item.

Definition lits (s : pystr) : pattern := map Lit s.

(** ** Matching *)

(** Marks set so far, most recent first: (group, is_end, position). *)
Definition marks := list (nat * bool * nat).

Definition below (n : nat) (hi : option nat) : bool :=
  match hi with
  | None => true
  | Some h => (n <? h)%nat
  end.

Section Repeat.
Variable cs : charset.
Variables (lo : nat) (hi : option nat).
(** the rest of the pattern, run at a candidate end of the repetition *)
Variable tail : option Z -> pystr -> nat -> option marks.

(** Greedy repetition: take as many characters as allowed, then give
    them back one at a time until the rest of the pattern matches. *)
Fixpoint max_repeat_one (prev : option Z) (s : pystr) (pos n : nat)
  : option marks :=
  let stop := if (lo <=? n)%nat then tail prev s pos else None in
  match s with
  | ch :: s' =>
      if in_charset cs ch && below n hi then
        match max_repeat_one (Some ch) s' (S pos) (S n) with
        | Some m => Some m
        | None => stop
        end
      else stop
  | [] => stop
  end.

(** Lazy repetition: try the rest of the pattern first, take one more
    character only when that fails. *)
Fixpoint min_repeat_one (prev : option Z) (s : pystr) (pos n : nat)
  : option marks :=
  let more :=
    match s with
    | ch :: s' =>
        if in_charset cs ch && below n hi
        then min_repeat_one (Some ch) s' (S pos) (S n)
        else None
    | [] => None
    end in
  if (lo <=? n)%nat then
    match tail prev s pos with
    | Some m => Some m
    | None => more
    end
  else more.
End Repeat.

(** [sre_match p prev s pos ms]: match pattern [p] against the text that
    continues with [s] at offset [pos]; [prev] is the character before
    that offset, if any. *)
Fixpoint sre_match (ic : bool) (p : pattern) (prev : option Z) (s : pystr)
  (pos : nat) (ms : marks) {struct p} : option marks :=
  match p with
  | [] => Some ms
  | Lit c :: p' =>
      match s with
      | ch :: s' =>
          if literal_matches ic c ch
          then sre_match ic p' (Some ch) s' (S pos) ms
          else None
      | [] => None
      end
  | Rep cs lo hi true :: p' =>
      max_repeat_one cs lo hi
        (fun prev' s' pos' => sre_match ic p' prev' s' pos' ms) prev s pos 0
  | Rep cs lo hi false :: p' =>
      min_repeat_one cs lo hi
        (fun prev' s' pos' => sre_match ic p' prev' s' pos' ms) prev s pos 0
  | GroupOpen n :: p' => sre_match ic p' prev s pos ((n, false, pos) :: ms)
  | GroupClose n :: p' => sre_match ic p' prev s pos ((n, true, pos) :: ms)
  | NotBehind cs :: p' =>
      match prev with
      | Some ch =>
          if in_charset cs ch then None else sre_match ic p' prev s pos ms
      | None => sre_match ic p' prev s pos ms
      end
  end.

(** Try every start offset from left to right. *)
Fixpoint search_from (ic : bool) (p : pattern) (prev : option Z) (s : pystr)
  (pos : nat) : option marks :=
  match sre_match ic p prev s pos [] with
  | Some ms => Some ms
  | None =>
      match s with
      | ch :: s' => search_from ic p (Some ch) s' (S pos)
      | [] => None
      end
  end.

(** A match object: the searched text and the marks of the match. *)
Record match_obj : Set := { m_string : pystr; m_marks : marks }.

Definition search (p : pattern) (text : pystr) (ignorecase : bool)
  : option match_obj :=
  match search_from ignorecase p None text 0 with
  | Some ms => Some {| m_string := text; m_marks := ms |}
  | None => None
  end.

Fixpoint find_mark (n : nat) (e : bool) (ms : marks) : option nat :=
  match ms with
  | [] => None
  | (n', e', pos) :: ms' =>
      if (n' =? n)%nat && Bool.eqb e' e then Some pos else find_mark n e ms'
  end.

Definition substring (s : pystr) (a b : nat) : pystr :=
  firstn (b - a) (skipn a s).

(** [m.group(n)] for a group that took part in the match. *)
Definition group (m : match_obj) (n : nat) : pystr :=
  match find_mark n false (m_marks m), find_mark n true (m_marks m) with
  | Some a, Some b => substring (m_string m) a b
  | _, _ => []
  end.

End Re.

(* ================================================================== *)
(** * The two patterns of the source *)

(** The two literals of the pattern of line 16, where DQ stands for the
    double quote: name=DQ __VIEWSTATE DQ and value=DQ. *)
Definition NAME_ATTR : pystr :=
  lit "name=" ++ [DQUOTE] ++ lit "__VIEWSTATE" ++ [DQUOTE].
Definition VALUE_OPEN : pystr := lit "value=" ++ [DQUOTE].

(** The pattern of line 16: the literal name=DQ __VIEWSTATE DQ, then
    [^>]* (greedy), then the literal value=DQ, then group 1 = [^DQ]*
    (greedy), then DQ. *)
Definition VIEWSTATE_RE : Re.pattern :=
  Re.lits NAME_ATTR
  ++ [Re.Rep (Re.NOT_LITERAL GT) 0 None true]
  ++ Re.lits VALUE_OPEN
  ++ [Re.GroupOpen 1; Re.Rep (Re.NOT_LITERAL DQUOTE) 0 None true;
      Re.GroupClose 1]
  ++ Re.lits [DQUOTE].

(** The pattern of line 80, [r'PIN(.*?)(?<!\d)(\d{6})']: the label, group
    1 = a lazy gap of characters other than newline, a look-behind that
    refuses a digit before the offset, group 2 = six digits. *)
Definition PIN_LABEL : pystr := lit "PIN".

Definition PIN_RE : Re.pattern :=
  Re.lits PIN_LABEL
  ++ [Re.GroupOpen 1; Re.Rep Re.ANY 0 None false; Re.GroupClose 1;
      Re.NotBehind Re.DIGIT;
      Re.GroupOpen 2; Re.Rep Re.DIGIT 6 (Some 6%nat) true; Re.GroupClose 2].

Definition IGNORECASE : bool := true.

(* ================================================================== *)
(** * base64 *)

Module Base64.

Definition BASE64_PAD : Z := 61.   (* = *)

(** [binascii.table_a2b_base64]: the 6-bit value of an alphabet character,
    255 (the C table's -1 stored in an unsigned char) for any other byte. *)
Definition table_a2b_base64 (c : Z) : Z :=
  if (65 <=? c) && (c <=? 90) then c - 65            (* A-Z *)
  else if (97 <=? c) && (c <=? 122) then c - 71      (* a-z *)
  else if (48 <=? c) && (c <=? 57) then c + 4        (* 0-9 *)
  else if c =? 43 then 62                            (* + *)
  else if c =? 47 then 63                            (* / *)
  else 255.

(** [binascii.table_b2a_base64] *)
Definition table_b2a_base64 (v : Z) : Z :=
  if v <? 26 then v + 65
  else if v <? 52 then v + 71
  else if v <? 62 then v - 4
  else if v =? 62 then 43
  else 47.

(** The store into the [unsigned char] output buffer. *)
Definition to_uchar (v : Z) : Z := Z.land v 255.

(** The loop of [binascii.a2b_base64] with [strict_mode] off.  [out] is the
    output written so far.  Reaching the end of the input with an
    unfinished quad raises [binascii.Error]. *)
Fixpoint a2b_loop (data : bytes) (quad_pos leftchar pads : Z) (out : bytes)
  : res bytes :=
  match data with
  | [] => if quad_pos =? 0 then Ok out else Raise BinasciiError
  | this_ch :: rest =>
      if this_ch =? BASE64_PAD then
        (* if (quad_pos >= 2 && quad_pos + ++pads >= 4) goto done; *)
        if 2 <=? quad_pos then
          if 4 <=? quad_pos + (pads + 1) then Ok out
          else a2b_loop rest quad_pos leftchar (pads + 1) out
        else a2b_loop rest quad_pos leftchar pads out
      else
        let v := table_a2b_base64 this_ch in
        if 64 <=? v then a2b_loop rest quad_pos leftchar pads out
        else if quad_pos =? 0 then
          a2b_loop rest 1 v 0 out
        else if quad_pos =? 1 then
          a2b_loop rest 2 (Z.land v 0x0f) 0
            (out ++ [to_uchar (Z.lor (Z.shiftl leftchar 2) (Z.shiftr v 4))])
        else if quad_pos =? 2 then
          a2b_loop rest 3 (Z.land v 0x03) 0
            (out ++ [to_uchar (Z.lor (Z.shiftl leftchar 4) (Z.shiftr v 2))])
        else
          a2b_loop rest 0 0 0
            (out ++ [to_uchar (Z.lor (Z.shiftl leftchar 6) v)])
  end.

Definition a2b_base64 (data : bytes) : res bytes := a2b_loop data 0 0 0 [].

(** The characters that [a2b_base64] looks at: the alphabet and the pad. *)
Definition is_alphabet (c : Z) : bool := table_a2b_base64 c <? 64.
Definition significant (c : Z) : bool := (c =? BASE64_PAD) || is_alphabet c.

(** [base64._bytes_from_decode_data] on a [str]: [s.encode('ascii')], a
    [ValueError] when a character is not ASCII. *)
Definition bytes_from_decode_data (s : pystr) : res bytes :=
  if forallb is_ascii s then Ok s else Raise ValueError.

(** [base64.b64decode(s)] with the default [validate=False]. *)
Definition b64decode (s : pystr) : res bytes :=
  data <- bytes_from_decode_data s ;;
  a2b_base64 data.

(** [base64.b64encode(data)]: three bytes become four alphabet characters,
    a last group of one or two bytes is padded with [=]. *)
Fixpoint b64encode (data : bytes) : bytes :=
  match data with
  | [] => []
  | [a] =>
      [ table_b2a_base64 (Z.shiftr a 2);
        table_b2a_base64 (Z.shiftl (Z.land a 3) 4);
        BASE64_PAD; BASE64_PAD ]
  | [a; b] =>
      [ table_b2a_base64 (Z.shiftr a 2);
        table_b2a_base64 (Z.lor (Z.shiftl (Z.land a 3) 4) (Z.shiftr b 4));
        table_b2a_base64 (Z.shiftl (Z.land b 15) 2);
        BASE64_PAD ]
  | a :: b :: c :: rest =>
      [ table_b2a_base64 (Z.shiftr a 2);
        table_b2a_base64 (Z.lor (Z.shiftl (Z.land a 3) 4) (Z.shiftr b 4));
        table_b2a_base64 (Z.lor (Z.shiftl (Z.land b 15) 2) (Z.shiftr c 6));
        table_b2a_base64 (Z.land c 63) ] ++ b64encode rest
  end.

(** ** Auxiliary definitions for the proofs *)

(** What the proofs need of a sextet and its character. *)
Definition sextet_ok (v : Z) : bool :=
  (table_a2b_base64 (table_b2a_base64 v) =? v)
  && negb (table_b2a_base64 v =? BASE64_PAD)
  && is_ascii (table_b2a_base64 v)
  && negb (table_b2a_base64 v =? DQUOTE).

Definition sextet (v : Z) : bool := (0 <=? v) && (v <? 64).

(** The four sextets of a group of three bytes. *)
Definition s0 (a : Z) : Z := Z.shiftr a 2.
Definition s1 (a b : Z) : Z :=
  Z.lor (Z.shiftl (Z.land a 3) 4) (Z.shiftr b 4).
Definition s2 (b c : Z) : Z :=
  Z.lor (Z.shiftl (Z.land b 15) 2) (Z.shiftr c 6).
Definition s3 (c : Z) : Z := Z.land c 63.

Definition under (n v : Z) : bool := (0 <=? v) && (v <? n).

(** A byte as a sextet and two bits, as two nibbles, as two bits and a
    sextet; two parts glued together again. *)
Definition check_a (a : Z) : bool :=
  sextet (s0 a) && under 4 (Z.land a 3)
  && (to_uchar (Z.lor (Z.shiftl (s0 a) 2) (Z.land a 3)) =? a).

Definition check_b (b : Z) : bool :=
  under 16 (Z.shiftr b 4) && under 16 (Z.land b 15)
  && (to_uchar (Z.lor (Z.shiftl (Z.shiftr b 4) 4) (Z.land b 15)) =? b).

Definition check_c (c : Z) : bool :=
  under 4 (Z.shiftr c 6) && sextet (s3 c)
  && (to_uchar (Z.lor (Z.shiftl (Z.shiftr c 6) 6) (s3 c)) =? c).

Definition check_glue (k : Z) (x y : Z) : bool :=
  let s := Z.lor (Z.shiftl x k) y in
  sextet s && (Z.shiftr s k =? x) && (Z.land s (Z.ones k) =? y).

(** An ASCII character other than the double quote. *)
Definition plain (ch : Z) : bool := is_ascii ch && negb (ch =? DQUOTE).

End Base64.

(* ================================================================== *)
(** * Text codecs *)

Module Codec.

Definition is_continuation (b : Z) : bool := (0x80 <=? b) && (b <? 0xc0).

Definition cont (b : Z) : Z := Z.land b 0x3f.

(** [bytes.decode('utf-8')] with the default strict error handler: the
    decoder of [Objects/stringlib/codecs.h].  Over-long forms, surrogates,
    code points above U+10FFFF and truncated sequences raise
    [UnicodeDecodeError]. *)
Fixpoint utf8_decode (b : bytes) : res pystr :=
  match b with
  | [] => Ok []
  | ch :: r1 =>
      if is_ascii ch then
        (t <- utf8_decode r1 ;; Ok (ch :: t))
      else if (ch <? 0xc2) || (0xf5 <=? ch) then Raise UnicodeDecodeError
      else if ch <? 0xe0 then
        match r1 with
        | ch2 :: r2 =>
            if is_continuation ch2 then
              (t <- utf8_decode r2 ;;
               Ok (Z.shiftl (Z.land ch 0x1f) 6 + cont ch2 :: t))
            else Raise UnicodeDecodeError
        | _ => Raise UnicodeDecodeError
        end
      else if ch <? 0xf0 then
        match r1 with
        | ch2 :: ch3 :: r3 =>
            if negb (is_continuation ch2)
               || (if ch2 <? 0xa0 then ch =? 0xe0 else ch =? 0xed)
               || negb (is_continuation ch3)
            then Raise UnicodeDecodeError
            else
              (t <- utf8_decode r3 ;;
               Ok (Z.shiftl (Z.land ch 0x0f) 12 + Z.shiftl (cont ch2) 6
                   + cont ch3 :: t))
        | _ => Raise UnicodeDecodeError
        end
      else
        match r1 with
        | ch2 :: ch3 :: ch4 :: r4 =>
            if negb (is_continuation ch2)
               || (if ch2 <? 0x90 then ch =? 0xf0 else ch =? 0xf4)
               || negb (is_continuation ch3)
               || negb (is_continuation ch4)
            then Raise UnicodeDecodeError
            else
              (t <- utf8_decode r4 ;;
               Ok (Z.shiftl (Z.land ch 0x07) 18 + Z.shiftl (cont ch2) 12
                   + Z.shiftl (cont ch3) 6 + cont ch4 :: t))
        | _ => Raise UnicodeDecodeError
        end
  end.

(** [bytes.decode('latin-1')]: byte [b] is the character U+00[b].  The
    codec is defined on bytes: a list with an entry outside [0, 256) is not
    a [bytes] object and has no Latin-1 text. *)
Definition latin1_decode (b : bytes) : res pystr :=
  if forallb is_byte b then Ok b else Raise UnicodeDecodeError.

(** A Unicode scalar value: a code point that is not a surrogate. *)
Definition is_scalar (c : Z) : bool :=
  ((0 <=? c) && (c <? 0xd800)) || ((0xe000 <=? c) && (c <? 0x110000)).

Definition utf8_encode_char (c : Z) : bytes :=
  if c <? 0x80 then [c]
  else if c <? 0x800 then
    [Z.lor 0xc0 (Z.shiftr c 6); Z.lor 0x80 (Z.land c 0x3f)]
  else if c <? 0x10000 then
    [Z.lor 0xe0 (Z.shiftr c 12); Z.lor 0x80 (Z.land (Z.shiftr c 6) 0x3f);
     Z.lor 0x80 (Z.land c 0x3f)]
  else
    [Z.lor 0xf0 (Z.shiftr c 18); Z.lor 0x80 (Z.land (Z.shiftr c 12) 0x3f);
     Z.lor 0x80 (Z.land (Z.shiftr c 6) 0x3f); Z.lor 0x80 (Z.land c 0x3f)].

(** [str.encode('utf-8')] of a text of scalar values. *)
Definition utf8_encode (s : pystr) : bytes := flat_map utf8_encode_char s.

Definition hexdigit (v : Z) : Z := if v <? 10 then 48 + v else 87 + v.

(** [bytes.hex()] *)
Definition hex (b : bytes) : pystr :=
  flat_map (fun x => [hexdigit (Z.shiftr x 4); hexdigit (Z.land x 15)]) b.

(** Auxiliary: the first character that [utf8_decode] reads and the bytes
    left after it. *)
Definition decode_head (b : bytes) : option (Z * bytes) :=
  match b with
  | [] => None
  | ch :: r1 =>
      if is_ascii ch then Some (ch, r1)
      else if (ch <? 0xc2) || (0xf5 <=? ch) then None
      else if ch <? 0xe0 then
        match r1 with
        | ch2 :: r2 =>
            if is_continuation ch2
            then Some (Z.shiftl (Z.land ch 0x1f) 6 + cont ch2, r2)
            else None
        | _ => None
        end
      else if ch <? 0xf0 then
        match r1 with
        | ch2 :: ch3 :: r3 =>
            if negb (is_continuation ch2)
               || (if ch2 <? 0xa0 then ch =? 0xe0 else ch =? 0xed)
               || negb (is_continuation ch3)
            then None
            else Some (Z.shiftl (Z.land ch 0x0f) 12 + Z.shiftl (cont ch2) 6
                       + cont ch3, r3)
        | _ => None
        end
      else
        match r1 with
        | ch2 :: ch3 :: ch4 :: r4 =>
            if negb (is_continuation ch2)
               || (if ch2 <? 0x90 then ch =? 0xf0 else ch =? 0xf4)
               || negb (is_continuation ch3)
               || negb (is_continuation ch4)
            then None
            else Some (Z.shiftl (Z.land ch 0x07) 18 + Z.shiftl (cont ch2) 12
                       + Z.shiftl (cont ch3) 6 + cont ch4, r4)
        | _ => None
        end
  end.

End Codec.

(* ================================================================== *)
(** * zlib: [zlib.decompress]

    A zlib stream is a two-byte header, a deflate stream and the Adler-32
    checksum of the uncompressed data.  The deflate decoder follows the
    reference decoder [puff.c] of the zlib distribution.  Every way in
    which zlib rejects its input ends in the same Python exception,
    [zlib.error], so failures are not told apart: they are [None]. *)

Module Zlib.

Definition nthZ (l : list Z) (i : Z) : Z := nth (Z.to_nat i) l 0.

(** ** The bit stream: the bits of each byte, least significant first *)

Definition byte_bits (b : Z) : list bool :=
  map (Z.testbit b) [0; 1; 2; 3; 4; 5; 6; 7].

Definition to_bits (data : bytes) : list bool := flat_map byte_bits data.

(** [bits(s, need)]: the next [need] bits as a number, first bit lowest. *)
Fixpoint bits (need : nat) (s : list bool) : option (Z * list bool) :=
  match need with
  | O => Some (0, s)
  | S need' =>
      match s with
      | [] => None
      | b :: s' =>
          match bits need' s' with
          | Some (v, r) => Some (Z.b2z b + 2 * v, r)
          | None => None
          end
      end
  end.

(** Drop the rest of the current byte. *)
Definition align (s : list bool) : list bool :=
  skipn (length s mod 8)%nat s.

(** ** Huffman codes *)

Definition MAXBITS : nat := 15.

(** [count]: number of symbols of each code length 1..15;
    [symbol]: the symbols ordered by code length, then by value. *)
Record huffman : Set := { count : list Z; symbol : list Z }.

Definition lengths_1_15 : list Z := map Z.of_nat (seq 1 MAXBITS).

Definition count_of (lengths : list Z) (len : Z) : Z :=
  Z.of_nat (length (filter (Z.eqb len) lengths)).

Fixpoint symbols_of (lengths : list Z) (len : Z) (sym : Z) : list Z :=
  match lengths with
  | [] => []
  | l :: ls =>
      if l =? len then sym :: symbols_of ls len (sym + 1)
      else symbols_of ls len (sym + 1)
  end.

(** [left] after the loop of [construct]: negative when the lengths are
    over-subscribed, positive when the code is incomplete, zero when it is
    complete. *)
Fixpoint left_over (counts : list Z) (left : Z) : Z :=
  match counts with
  | [] => left
  | c :: cs =>
      let left := 2 * left - c in
      if left <? 0 then left else left_over cs left
  end.

(** [construct(h, length, n)]: the decoding tables and the return value. *)
Definition construct (lengths : list Z) : huffman * Z :=
  let h := {| count := map (count_of lengths) lengths_1_15;
              symbol := flat_map (fun len => symbols_of lengths len 0)
                                 lengths_1_15 |} in
  if count_of lengths 0 =? Z.of_nat (length lengths)
  then (h, 0)                      (* no codes: complete, decode will fail *)
  else (h, left_over (count h) 1).

(** [decode(s, h)]: read one bit at a time until the bits form a code. *)
Fixpoint decode_loop (counts : list Z) (symbols : list Z)
  (code first index : Z) (s : list bool) : option (Z * list bool) :=
  match counts with
  | [] => None                                   (* ran out of codes *)
  | cnt :: counts' =>
      match s with
      | [] => None                               (* out of input *)
      | b :: s' =>
          let code := Z.lor code (Z.b2z b) in
          if code - cnt <? first
          then Some (nthZ symbols (index + (code - first)), s')
          else decode_loop counts' symbols
                 (Z.shiftl code 1) (Z.shiftl (first + cnt) 1) (index + cnt) s'
      end
  end.

Definition decode (h : huffman) (s : list bool) : option (Z * list bool) :=
  decode_loop (count h) (symbol h) 0 0 0 s.

(** ** Compressed blocks *)

Definition lens : list Z :=
  [3; 4; 5; 6; 7; 8; 9; 10; 11; 13; 15; 17; 19; 23; 27; 31; 35; 43; 51; 59;
   67; 83; 99; 115; 131; 163; 195; 227; 258].
Definition lext : list Z :=
  [0; 0; 0; 0; 0; 0; 0; 0; 1; 1; 1; 1; 2; 2; 2; 2; 3; 3; 3; 3; 4; 4; 4; 4;
   5; 5; 5; 5; 0].
Definition dists : list Z :=
  [1; 2; 3; 4; 5; 7; 9; 13; 17; 25; 33; 49; 65; 97; 129; 193; 257; 385; 513;
   769; 1025; 1537; 2049; 3073; 4097; 6145; 8193; 12289; 16385; 24577].
Definition dext : list Z :=
  [0; 0; 0; 0; 1; 1; 2; 2; 3; 3; 4; 4; 5; 5; 6; 6; 7; 7; 8; 8; 9; 9; 10; 10;
   11; 11; 12; 12; 13; 13].

(** The output is kept most recent byte first. *)
Fixpoint copy (len : nat) (dist : Z) (out : list Z) : list Z :=
  match len with
  | O => out
  | S len' => copy len' dist (nthZ out (dist - 1) :: out)
  end.

(** [codes(s, lencode, distcode)]: decode literals and length/distance
    pairs until the end-of-block symbol.  Each round reads at least one
    bit, so [fuel] above the number of remaining bits is never used up. *)
Fixpoint codes (fuel : nat) (lencode distcode : huffman) (s : list bool)
  (out : list Z) : option (list bool * list Z) :=
  match fuel with
  | O => None
  | S fuel' =>
      match decode lencode s with
      | None => None
      | Some (sym, s1) =>
          if sym <? 256 then codes fuel' lencode distcode s1 (sym :: out)
          else if sym =? 256 then Some (s1, out)
          else
            let sym := sym - 257 in
            if 29 <=? sym then None           (* invalid fixed code *)
            else
              match bits (Z.to_nat (nthZ lext sym)) s1 with
              | None => None
              | Some (eb, s2) =>
                  let len := nthZ lens sym + eb in
                  match decode distcode s2 with
                  | None => None
                  | Some (dsym, s3) =>
                      match bits (Z.to_nat (nthZ dext dsym)) s3 with
                      | None => None
                      | Some (db, s4) =>
                          let dist := nthZ dists dsym + db in
                          if Z.of_nat (length out) <? dist
                          then None           (* distance too far back *)
                          else codes fuel' lencode distcode s4
                                 (copy (Z.to_nat len) dist out)
                      end
                  end
              end
      end
  end.

(** ** The three block types *)

Fixpoint take_bytes (n : nat) (s : list bool) (out : list Z)
  : option (list bool * list Z) :=
  match n with
  | O => Some (s, out)
  | S n' =>
      match bits 8 s with
      | None => None
      | Some (b, s') => take_bytes n' s' (b :: out)
      end
  end.

Definition stored (s : list bool) (out : list Z)
  : option (list bool * list Z) :=
  match bits 16 (align s) with
  | None => None
  | Some (len, s1) =>
      match bits 16 s1 with
      | None => None
      | Some (nlen, s2) =>
          if nlen =? Z.lxor len 0xffff
          then take_bytes (Z.to_nat len) s2 out
          else None            (* length does not match its complement *)
      end
  end.

Definition fixed_lencode : huffman :=
  fst (construct (repeat 8 144 ++ repeat 9 112 ++ repeat 7 24 ++ repeat 8 8)).
Definition fixed_distcode : huffman := fst (construct (repeat 5 30)).

Definition order : list Z :=
  [16; 17; 18; 0; 8; 7; 9; 6; 10; 5; 11; 4; 12; 3; 13; 2; 14; 1; 15].

(** The code lengths of the code-length code, in the order of [order]. *)
Fixpoint read_ncode (n : nat) (s : list bool) (acc : list Z)
  : option (list Z * list bool) :=
  match n with
  | O => Some (rev acc, s)
  | S n' =>
      match bits 3 s with
      | None => None
      | Some (v, s') => read_ncode n' s' (v :: acc)
      end
  end.

Definition index_of (x : Z) (l : list Z) : option nat :=
  (fix go (l : list Z) (i : nat) : option nat :=
     match l with
     | [] => None
     | y :: l' => if y =? x then Some i else go l' (S i)
     end) l O.

Definition permute_order (vals : list Z) : list Z :=
  map (fun sym => match index_of sym order with
                  | Some i => nth i vals 0
                  | None => 0
                  end)
      (map Z.of_nat (seq 0 19)).

(** The literal/length and distance code lengths, most recent first in
    [acc]; [total = nlen + ndist].  [fuel] bounds the rounds; every round
    adds at least one length, so [total] rounds are enough. *)
Fixpoint read_lengths (fuel : nat) (lencode : huffman) (total : Z)
  (s : list bool) (acc : list Z) : option (list Z * list bool) :=
  if total <=? Z.of_nat (length acc) then Some (rev acc, s)
  else
    match fuel with
    | O => None
    | S fuel' =>
        match decode lencode s with
        | None => None
        | Some (sym, s1) =>
            if sym <? 16 then read_lengths fuel' lencode total s1 (sym :: acc)
            else
              let rep :=
                if sym =? 16 then
                  match acc with
                  | [] => None              (* no last length *)
                  | last :: _ =>
                      match bits 2 s1 with
                      | Some (v, s2) => Some (last, 3 + v, s2)
                      | None => None
                      end
                  end
                else if sym =? 17 then
                  match bits 3 s1 with
                  | Some (v, s2) => Some (0, 3 + v, s2)
                  | None => None
                  end
                else
                  match bits 7 s1 with
                  | Some (v, s2) => Some (0, 11 + v, s2)
                  | None => None
                  end in
              match rep with
              | None => None
              | Some (len, n, s2) =>
                  if total <? Z.of_nat (length acc) + n
                  then None                 (* too many lengths *)
                  else read_lengths fuel' lencode total s2
                         (repeat len (Z.to_nat n) ++ acc)
              end
        end
    end.

Definition MAXLCODES : Z := 286.
Definition MAXDCODES : Z := 30.

Definition dynamic (s : list bool) (out : list Z)
  : option (list bool * list Z) :=
  match bits 5 s with
  | None => None
  | Some (a, s1) =>
  match bits 5 s1 with
  | None => None
  | Some (b, s2) =>
  match bits 4 s2 with
  | None => None
  | Some (c, s3) =>
      let nlen := a + 257 in
      let ndist := b + 1 in
      let ncode := c + 4 in
      if (MAXLCODES <? nlen) || (MAXDCODES <? ndist) then None
      else
        match read_ncode (Z.to_nat ncode) s3 [] with
        | None => None
        | Some (vals, s4) =>
            let (clcode, err) := construct (permute_order vals) in
            if negb (err =? 0) then None     (* complete code required *)
            else
              match read_lengths (Z.to_nat (nlen + ndist)) clcode
                      (nlen + ndist) s4 [] with
              | None => None
              | Some (lengths, s5) =>
                  if nthZ lengths 256 =? 0 then None   (* no end-of-block *)
                  else
                    let ll := firstn (Z.to_nat nlen) lengths in
                    let dl := skipn (Z.to_nat nlen) lengths in
                    let (lencode, lerr) := construct ll in
                    let (distcode, derr) := construct dl in
                    if negb (lerr =? 0)
                       && ((lerr <? 0)
                           || negb (nlen =? count_of ll 0 + count_of ll 1))
                    then None
                    else if negb (derr =? 0)
                       && ((derr <? 0)
                           || negb (ndist =? count_of dl 0 + count_of dl 1))
                    then None
                    else codes (S (length s5)) lencode distcode s5 out
              end
        end
  end end end.

(** [puff]: the blocks of a deflate stream, up to the one marked last. *)
Fixpoint blocks (fuel : nat) (s : list bool) (out : list Z)
  : option (list bool * list Z) :=
  match fuel with
  | O => None
  | S fuel' =>
      match bits 1 s with
      | None => None
      | Some (last, s1) =>
          match bits 2 s1 with
          | None => None
          | Some (type, s2) =>
              let r :=
                if type =? 0 then stored s2 out
                else if type =? 1
                then codes (S (length s2)) fixed_lencode fixed_distcode s2 out
                else if type =? 2 then dynamic s2 out
                else None in
              match r with
              | None => None
              | Some (s3, out') =>
                  if last =? 1 then Some (s3, out')
                  else blocks fuel' s3 out'
              end
          end
      end
  end.

Definition inflate (s : list bool) : option (list bool * bytes) :=
  match blocks (S (length s)) s [] with
  | Some (s', out) => Some (s', rev out)
  | None => None
  end.

(** ** The zlib wrapper *)

Definition BASE : Z := 65521.

Definition adler32 (data : bytes) : Z :=
  let '(a, b) :=
    fold_left (fun '(a, b) x =>
                 let a' := (a + x) mod BASE in (a', (b + a') mod BASE))
              data (1, 0) in
  Z.lor (Z.shiftl b 16) a.

(** The header checks of [inflate()] for a zlib stream with a 32K window;
    a stream that asks for a preset dictionary cannot be decompressed by
    [zlib.decompress(data)]. *)
Definition header_ok (cmf flg : Z) : bool :=
  (((Z.shiftl cmf 8 + flg) mod 31) =? 0)
  && (Z.land cmf 0x0f =? 8)
  && (Z.shiftr cmf 4 + 8 <=? 15)
  && (Z.land flg 0x20 =? 0).

Definition decompress_opt (data : bytes) : option bytes :=
  match data with
  | cmf :: flg :: body =>
      if header_ok cmf flg then
        match inflate (to_bits body) with
        | None => None
        | Some (s, out) =>
            (* the check value is stored most significant byte first *)
            match take_bytes 4 (align s) [] with
            | Some (_, [b3; b2; b1; b0]) =>
                if Z.shiftl b0 24 + Z.shiftl b1 16 + Z.shiftl b2 8 + b3
                   =? adler32 out
                then Some out else None
            | _ => None                      (* truncated stream *)
            end
        end
      else None
  | _ => None
  end.

(** [zlib.decompress(data)]; bytes after the end of the stream are
    ignored. *)
Definition decompress (data : bytes) : res bytes :=
  match decompress_opt data with
  | Some out => Ok out
  | None => Raise ZlibError
  end.

(** ** A compressor

    [zlib.compress] itself is not modelled.  The compressor below writes
    stored blocks only, as zlib does at level 0: it shows that every byte
    string has a zlib stream. *)

Definition BLOCK : nat := Z.to_nat 65535.

(** One stored block: the header byte with the last-block bit, the length
    and its complement (least significant byte first), the bytes. *)
Definition stored_block (last : Z) (chunk : bytes) : bytes :=
  let len := Z.of_nat (length chunk) in
  [last; len mod 256; len / 256; (65535 - len) mod 256; (65535 - len) / 256]
  ++ chunk.

Fixpoint deflate_stored (fuel : nat) (data : bytes) : bytes :=
  match fuel with
  | O => stored_block 1 data
  | S fuel' =>
      if (length data <=? BLOCK)%nat then stored_block 1 data
      else stored_block 0 (firstn BLOCK data)
           ++ deflate_stored fuel' (skipn BLOCK data)
  end.

(** A 32-bit number, most significant byte first. *)
Definition be32 (v : Z) : bytes :=
  [(v / 16777216) mod 256; (v / 65536) mod 256; (v / 256) mod 256; v mod 256].

Definition compress_stored (data : bytes) : bytes :=
  [0x78; 0x01] ++ deflate_stored (length data) data ++ be32 (adler32 data).

(** Auxiliary: the eight bits of [b] are read back as [b]. *)
Definition byte_reads_back (b : Z) : bool :=
  match bits 8 (byte_bits b) with
  | Some (v, []) => v =? b
  | _ => false
  end.

(** Auxiliary: a list without negative numbers. *)
Definition nonneg (l : list Z) : Prop := Forall (fun x => 0 <= x) l.

End Zlib.

(* ================================================================== *)
(** * The deflate format, from the side of the writer

    Everything a compressor may choose when it writes a zlib stream
    (RFC 1950 and RFC 1951): how the data is cut into blocks, the type of
    each block, the literals and the length/distance pairs, which of the two
    codes stands for the length 258, the code lengths of a dynamic block and
    how they are run-length encoded.  [write] gives the bits of these
    choices and [expand] the bytes they stand for; the definitions follow
    the text of the RFC and share nothing with the decoder of [Zlib]. *)

Module Deflate.

(** A number of [n] bits, least significant bit first: header fields and
    extra bits. *)
Fixpoint lsb_bits (n : nat) (v : Z) : list bool :=
  match n with
  | O => []
  | S n' => Z.odd v :: lsb_bits n' (v / 2)
  end.

(** A Huffman code of [n] bits, most significant bit first. *)
Fixpoint msb_bits (n : nat) (c : Z) : list bool :=
  match n with
  | O => []
  | S n' => Z.odd (c / 2 ^ Z.of_nat n') :: msb_bits n' c
  end.

(** ** The code of a symbol, from the code lengths (RFC 1951, 3.2.2) *)

Definition occurrences (l : Z) (lengths : list Z) : Z :=
  Z.of_nat (length (filter (Z.eqb l) lengths)).

(** [bl_count]: the number of codes of each length; none of length 0. *)
Definition bl_count (lengths : list Z) (len : nat) : Z :=
  match len with
  | O => 0
  | S _ => occurrences (Z.of_nat len) lengths
  end.

(** [next_code]: the smallest code of each length. *)
Fixpoint next_code (lengths : list Z) (len : nat) : Z :=
  match len with
  | O => 0
  | S l => 2 * (next_code lengths l + bl_count lengths l)
  end.

(** Codes of one length are consecutive, in the order of the symbols. *)
Definition code_of (lengths : list Z) (sym : nat) : list bool :=
  let l := nth sym lengths 0 in
  msb_bits (Z.to_nat l)
    (next_code lengths (Z.to_nat l) + occurrences l (firstn sym lengths)).

(** The Kraft sum of the code lengths, in units of 2^-15. *)
Definition kraft (lengths : list Z) : Z :=
  fold_right
    (fun l acc => (if (1 <=? l) && (l <=? 15) then 2 ^ (15 - l) else 0) + acc)
    0 lengths.

Definition lengths_ok (lengths : list Z) : bool :=
  forallb (fun l => (0 <=? l) && (l <=? 15)) lengths.

(** A code that uses every bit pattern, as the codes of a dynamic block
    written by zlib are. *)
Definition complete (lengths : list Z) : bool :=
  lengths_ok lengths && (kraft lengths =? 2 ^ 15).

Definition used (lengths : list Z) (sym : nat) : bool :=
  1 <=? nth sym lengths 0.

(** ** Literals and length/distance pairs (RFC 1951, 3.2.5) *)

Definition length_base : list Z :=
  [3; 4; 5; 6; 7; 8; 9; 10; 11; 13; 15; 17; 19; 23; 27; 31; 35; 43; 51; 59;
   67; 83; 99; 115; 131; 163; 195; 227; 258].
Definition length_extra : list nat :=
  [0; 0; 0; 0; 0; 0; 0; 0; 1; 1; 1; 1; 2; 2; 2; 2; 3; 3; 3; 3; 4; 4; 4; 4;
   5; 5; 5; 5; 0]%nat.
Definition dist_base : list Z :=
  [1; 2; 3; 4; 5; 7; 9; 13; 17; 25; 33; 49; 65; 97; 129; 193; 257; 385; 513;
   769; 1025; 1537; 2049; 3073; 4097; 6145; 8193; 12289; 16385; 24577].
Definition dist_extra : list nat :=
  [0; 0; 0; 0; 1; 1; 2; 2; 3; 3; 4; 4; 5; 5; 6; 6; 7; 7; 8; 8; 9; 9; 10; 10;
   11; 11; 12; 12; 13; 13]%nat.

(** A literal byte, or a copy of earlier output: the length code
    [257 + lsym] with its extra bits [eb], the distance code [dsym] with
    its extra bits [db]. *)
Inductive symbol : Set :=
| Literal (b : Z)
| Copy (lsym : nat) (eb : Z) (dsym : nat) (db : Z).

Definition copy_length (lsym : nat) (eb : Z) : Z := nth lsym length_base 0 + eb.
Definition copy_distance (dsym : nat) (db : Z) : Z := nth dsym dist_base 0 + db.

Definition write_symbol (ll dl : list Z) (s : symbol) : list bool :=
  match s with
  | Literal b => code_of ll (Z.to_nat b)
  | Copy lsym eb dsym db =>
      code_of ll (257 + lsym) ++ lsb_bits (nth lsym length_extra O) eb
      ++ code_of dl dsym ++ lsb_bits (nth dsym dist_extra O) db
  end.

(** The symbols of a block, then the end-of-block symbol 256. *)
Definition write_symbols (ll dl : list Z) (syms : list symbol) : list bool :=
  flat_map (write_symbol ll dl) syms ++ code_of ll 256.

(** A copy appends, [len] times, the byte that stands [dist] back. *)
Fixpoint lz_copy (len dist : nat) (out : bytes) : bytes :=
  match len with
  | O => out
  | S len' => lz_copy len' dist (out ++ [nth (length out - dist) out 0])
  end.

Definition expand_symbol (out : bytes) (s : symbol) : bytes :=
  match s with
  | Literal b => out ++ [b]
  | Copy lsym eb dsym db =>
      lz_copy (Z.to_nat (copy_length lsym eb))
        (Z.to_nat (copy_distance dsym db)) out
  end.

Definition expand_symbols (syms : list symbol) (out : bytes) : bytes :=
  fold_left expand_symbol syms out.

Definition valid_symbol (ll dl : list Z) (out : bytes) (s : symbol) : bool :=
  match s with
  | Literal b => (0 <=? b) && (b <? 256) && used ll (Z.to_nat b)
  | Copy lsym eb dsym db =>
      (lsym <? 29)%nat && used ll (257 + lsym)
      && (0 <=? eb) && (eb <? 2 ^ Z.of_nat (nth lsym length_extra O))
      && (dsym <? 30)%nat && used dl dsym
      && (0 <=? db) && (db <? 2 ^ Z.of_nat (nth dsym dist_extra O))
      && (copy_distance dsym db <=? Z.of_nat (length out))
  end.

Fixpoint valid_symbols (ll dl : list Z) (syms : list symbol) (out : bytes)
  : bool :=
  match syms with
  | [] => true
  | s :: syms' =>
      valid_symbol ll dl out s
      && valid_symbols ll dl syms' (expand_symbol out s)
  end.

(** ** The two fixed codes (RFC 1951, 3.2.6) *)

Definition fixed_ll : list Z :=
  repeat 8 144 ++ repeat 9 112 ++ repeat 7 24 ++ repeat 8 8.
Definition fixed_dl : list Z := repeat 5 30.

(** ** The header of a dynamic block (RFC 1951, 3.2.7) *)

(** The code lengths are written with the code-length alphabet: a length
    0..15, the previous length 3..6 more times (16), or 3..10 (17) or
    11..138 (18) zeros. *)
Inductive item : Set :=
| Len (l : Z)
| Repeat (n : Z)
| Zeros (n : Z)
| ZerosLong (n : Z).

Definition expand_item (acc : list Z) (i : item) : list Z :=
  match i with
  | Len l => acc ++ [l]
  | Repeat n => acc ++ repeat (last acc 0) (Z.to_nat n)
  | Zeros n | ZerosLong n => acc ++ repeat 0 (Z.to_nat n)
  end.

Definition expand_items (items : list item) : list Z :=
  fold_left expand_item items [].

Definition write_item (cl : list Z) (i : item) : list bool :=
  match i with
  | Len l => code_of cl (Z.to_nat l)
  | Repeat n => code_of cl 16 ++ lsb_bits 2 (n - 3)
  | Zeros n => code_of cl 17 ++ lsb_bits 3 (n - 3)
  | ZerosLong n => code_of cl 18 ++ lsb_bits 7 (n - 11)
  end.

Definition valid_item (cl : list Z) (acc : list Z) (i : item) : bool :=
  match i with
  | Len l => (0 <=? l) && (l <=? 15) && used cl (Z.to_nat l)
  | Repeat n =>
      (3 <=? n) && (n <=? 6) && used cl 16 && negb (length acc =? 0)%nat
  | Zeros n => (3 <=? n) && (n <=? 10) && used cl 17
  | ZerosLong n => (11 <=? n) && (n <=? 138) && used cl 18
  end.

Fixpoint valid_items (cl : list Z) (items : list item) (acc : list Z) : bool :=
  match items with
  | [] => true
  | i :: items' =>
      valid_item cl acc i && valid_items cl items' (expand_item acc i)
  end.

(** The order in which the lengths of the code-length code are written. *)
Definition cl_order : list nat :=
  [16; 17; 18; 0; 8; 7; 9; 6; 10; 5; 11; 4; 12; 3; 13; 2; 14; 1; 15]%nat.

(** [cl]: the 19 lengths of the code-length code, by symbol; [hclen]: how
    many of them are written; [hlit] literal/length codes and [hdist]
    distance codes, whose lengths are the [items]. *)
Record header : Set :=
  { cl : list Z; hclen : nat; hlit : nat; hdist : nat; items : list item }.

Definition lit_lengths (h : header) : list Z :=
  firstn (hlit h) (expand_items (items h)).
Definition dist_lengths (h : header) : list Z :=
  skipn (hlit h) (expand_items (items h)).

Definition write_header (h : header) : list bool :=
  lsb_bits 5 (Z.of_nat (hlit h) - 257)
  ++ lsb_bits 5 (Z.of_nat (hdist h) - 1)
  ++ lsb_bits 4 (Z.of_nat (hclen h) - 4)
  ++ flat_map (fun sym => lsb_bits 3 (nth sym (cl h) 0))
       (firstn (hclen h) cl_order)
  ++ flat_map (write_item (cl h)) (items h).

Definition valid_header (h : header) : bool :=
  (length (cl h) =? 19)%nat
  && forallb (fun l => (0 <=? l) && (l <=? 7)) (cl h)
  && complete (cl h)
  && (4 <=? hclen h)%nat && (hclen h <=? 19)%nat
  && forallb (fun sym => nth sym (cl h) 0 =? 0) (skipn (hclen h) cl_order)
  && (257 <=? hlit h)%nat && (hlit h <=? 286)%nat
  && (1 <=? hdist h)%nat && (hdist h <=? 30)%nat
  && valid_items (cl h) (items h) []
  && (length (expand_items (items h)) =? hlit h + hdist h)%nat
  && complete (lit_lengths h) && used (lit_lengths h) 256
  && complete (dist_lengths h).

(** ** Blocks (RFC 1951, 3.2.3 and 3.2.4) *)

Inductive block : Set :=
| Stored (data : bytes)
| Fixed (syms : list symbol)
| Dynamic (h : header) (syms : list symbol).

Definition expand_block (out : bytes) (b : block) : bytes :=
  match b with
  | Stored data => out ++ data
  | Fixed syms | Dynamic _ syms => expand_symbols syms out
  end.

Definition expand (blocks : list block) : bytes :=
  fold_left expand_block blocks [].

Definition valid_block (out : bytes) (b : block) : bool :=
  match b with
  | Stored data => (Z.of_nat (length data) <=? 65535) && forallb is_byte data
  | Fixed syms => valid_symbols fixed_ll fixed_dl syms out
  | Dynamic h syms =>
      valid_header h && valid_symbols (lit_lengths h) (dist_lengths h) syms out
  end.

Fixpoint valid_blocks (blocks : list block) (out : bytes) : bool :=
  match blocks with
  | [] => true
  | b :: blocks' =>
      valid_block out b && valid_blocks blocks' (expand_block out b)
  end.

(** What a compressor may write: at least one block, each well formed. *)
Definition valid (blocks : list block) : bool :=
  negb (length blocks =? 0)%nat && valid_blocks blocks [].

(** Zero bits up to the next byte boundary, after [pos] bits. *)
Definition padding (pos : nat) : list bool :=
  repeat false ((8 - pos mod 8) mod 8).

(** The body of a block that begins, after its three header bits, at bit
    [pos] of the stream. *)
Definition write_body (pos : nat) (b : block) : list bool :=
  match b with
  | Stored data =>
      padding pos
      ++ lsb_bits 16 (Z.of_nat (length data))
      ++ lsb_bits 16 (65535 - Z.of_nat (length data))
      ++ flat_map (lsb_bits 8) data
  | Fixed syms => write_symbols fixed_ll fixed_dl syms
  | Dynamic h syms =>
      write_header h ++ write_symbols (lit_lengths h) (dist_lengths h) syms
  end.

Definition block_type (b : block) : Z :=
  match b with Stored _ => 0 | Fixed _ => 1 | Dynamic _ _ => 2 end.

(** The blocks from bit [pos] on; the last one carries the final bit. *)
Fixpoint write_blocks (pos : nat) (blocks : list block) : list bool :=
  match blocks with
  | [] => []
  | b :: blocks' =>
      let this :=
        match blocks' with [] => true | _ :: _ => false end
        :: lsb_bits 2 (block_type b) ++ write_body (pos + 3) b in
      this ++ write_blocks (pos + length this) blocks'
  end.

Definition write (blocks : list block) : list bool := write_blocks 0 blocks.

(** Bits to bytes, the first bit lowest, the last byte filled with zeros. *)
Fixpoint byte_of (bs : list bool) : Z :=
  match bs with
  | [] => 0
  | b :: bs' => Z.b2z b + 2 * byte_of bs'
  end.

Fixpoint pack_bits (fuel : nat) (bs : list bool) : bytes :=
  match fuel, bs with
  | S fuel', _ :: _ => byte_of (firstn 8 bs) :: pack_bits fuel' (skipn 8 bs)
  | _, _ => []
  end.

Definition pack (bs : list bool) : bytes := pack_bits (length bs) bs.

(** ** The zlib stream (RFC 1950)

    The two header bytes, the deflate stream, the Adler-32 check value of
    the data, most significant byte first. *)
Definition adler32 (data : bytes) : Z :=
  let '(s1, s2) :=
    fold_left (fun '(s1, s2) x =>
                 let s1' := (s1 + x) mod 65521 in (s1', (s2 + s1') mod 65521))
              data (1, 0) in
  s2 * 65536 + s1.

Definition zlib_stream (cmf flg : Z) (blocks : list block) : bytes :=
  let data := expand blocks in
  let v := adler32 data in
  [cmf; flg] ++ pack (write blocks)
  ++ [v / 16777216 mod 256; v / 65536 mod 256; v / 256 mod 256; v mod 256].

(** A compressor that writes one fixed-code block of literals. *)
Definition literal_block (data : bytes) : list block :=
  [Fixed (map Literal data)].

(** ** Auxiliary definitions for the proofs about the format *)

(** The number of symbols with a code shorter than [len]. *)
Fixpoint shorter (lengths : list Z) (len : nat) : Z :=
  match len with
  | O => 0
  | S l => shorter lengths l + bl_count lengths l
  end.

(** The Kraft sum of the codes of length up to [L], in units of 2^-L. *)
Definition kraft_upto (L : nat) (lengths : list Z) : Z :=
  fold_right
    (fun l acc =>
       (if (1 <=? l) && (l <=? Z.of_nat L) then 2 ^ (Z.of_nat L - l) else 0)
       + acc)
    0 lengths.

End Deflate.

(* ================================================================== *)
(** * The two functions of [app.py] *)

(** What [decode_viewstate] returns, by [return] statement. *)
Inductive outcome : Set :=
| NotFound                  (* line 22: None, the pattern did not match *)
| DecodedZlib (s : pystr)   (* line 41: text of the decompressed bytes *)
| HexDump (s : pystr)       (* line 54: the hex diagnostic *)
| DecodedRaw (s : pystr)    (* line 55: text of the base64-decoded bytes *)
| InvalidEncoding           (* line 59: None, binascii.Error *)
| UnexpectedError.          (* line 62: None, any other exception *)

(** The Python value returned: a [str] or [None]. *)
Definition py_value (o : outcome) : option pystr :=
  match o with
  | DecodedZlib s | DecodedRaw s | HexDump s => Some s
  | NotFound | InvalidEncoding | UnexpectedError => None
  end.

(** A [try] statement with two [except] clauses. *)
Definition try_except2 {A} (body : res A) (c1 : exn_class) (h1 : res A)
  (c2 : exn_class) (h2 : res A) : res A :=
  match body with
  | Ok a => Ok a
  | Raise e =>
      if isinstance e c1 then h1
      else if isinstance e c2 then h2
      else Raise e
  end.

Definition HEX_MESSAGE : pystr :=
  lit "Could not decode as text. Raw Base64 decoded bytes (hex): ".

(** [decode_viewstate(html_content)], called [extract_and_decode] by the
    specification. *)
Definition decode_viewstate (html_content : pystr) : res outcome :=
  match Re.search VIEWSTATE_RE html_content IGNORECASE with
  | None => Ok NotFound
  | Some m =>
      let encoded_string := Re.group m 1 in
      try_except2
        (decoded_bytes <- Base64.b64decode encoded_string ;;
         try
           (decompressed_bytes <- Zlib.decompress decoded_bytes ;;
            decoded_content <-
              (try Codec.utf8_decode decompressed_bytes
               except CUnicodeDecodeError =>
                 Codec.latin1_decode decompressed_bytes) ;;
            Ok (DecodedZlib decoded_content))
         except CZlibError =>
           (try
              (decoded_content <- Codec.utf8_decode decoded_bytes ;;
               Ok (DecodedRaw decoded_content))
            except CUnicodeDecodeError =>
              (try
                 (decoded_content <- Codec.latin1_decode decoded_bytes ;;
                  Ok (DecodedRaw decoded_content))
               except CUnicodeDecodeError =>
                 Ok (HexDump (HEX_MESSAGE ++ Codec.hex decoded_bytes)))))
        CBinasciiError (Ok InvalidEncoding)
        CException (Ok UnexpectedError)
  end.

(** [extract_pin_value(decoded_string)], called [find_pin] by the
    specification.  The argument is a [str] or [None]; both [None] and the
    empty string are falsy. *)
Definition extract_pin_value (decoded_string : option pystr)
  : option pystr :=
  match decoded_string with
  | None | Some [] => None
  | Some text =>
      match Re.search PIN_RE text IGNORECASE with
      | Some m => Some (Re.group m 2)
      | None => None
      end
  end.

(** Step 4 of the specification on a byte buffer: the UTF-8 text when the
    buffer is valid UTF-8, else its Latin-1 text (each byte is the code
    point of its character). *)
Definition text_of_bytes (buffer : bytes) : pystr :=
  match Codec.utf8_decode buffer with
  | Ok t => t
  | Raise _ => buffer
  end.

(** [buffer] is a byte buffer that reaches the text-interpretation step
    when [decode_viewstate] runs on [html]: the decompressed bytes, or the
    base64-decoded bytes when decompression fails. *)
Definition reaches_text_step (html : pystr) (buffer : bytes) : Prop :=
  exists m decoded_bytes,
    Re.search VIEWSTATE_RE html IGNORECASE = Some m /\
    Base64.b64decode (Re.group m 1) = Ok decoded_bytes /\
    (Zlib.decompress decoded_bytes = Ok buffer \/
     (exists e, Zlib.decompress decoded_bytes = Raise e) /\
     buffer = decoded_bytes).

(** The minimal attribute string of the specification's examples around a
    value: an input tag with the name and the value attribute. *)
Definition minimal_input (value : pystr) : pystr :=
  lit "<input " ++ NAME_ATTR ++ lit " " ++ VALUE_OPEN ++ value
  ++ [DQUOTE] ++ lit " />".

(* ================================================================== *)
(** * Two streams written by zlib

    What [zlib.compress] writes for two texts, as the choices of a writer
    of the format: for the short text one block with the fixed codes, for
    the longer one a dynamic block with three copies. *)

Module Streams.
Import Deflate.

Definition pin_text : pystr := lit "PIN: 123456".

Definition pin_blocks : list block :=
  [Fixed (map Literal (Codec.utf8_encode pin_text))].

Definition pin_stream : bytes :=
  [0x78; 0x9c; 0x0b; 0xf0; 0xf4; 0xb3; 0x52; 0x30; 0x34; 0x32; 0x36; 0x31;
   0x35; 0x03; 0x00; 0x0f; 0xeb; 0x02; 0x77].

Definition letter_text : pystr :=
  lit "Dear customer, your PIN is 123456. Please keep the number secret and never send it to anyone else.".

Definition letter_header : header :=
  {| cl := [2; 4; 0; 5; 4; 3; 2; 0; 0; 0; 0; 0; 0; 0; 0; 0; 5; 4; 3];
     hclen := 18; hlit := 260; hdist := 9;
     items :=
       [ZerosLong 32; Len 3; ZerosLong 11; Len 6; Len 0; Len 6; Len 0; Len 0;
        Len 6; Repeat 5; ZerosLong 13; Len 6; Zeros 4; Len 6; Zeros 4; Len 6;
        Len 0; Len 6; ZerosLong 16; Len 5; Len 6; Len 6; Len 6; Len 3; Len 0;
        Len 0; Len 6; Len 6; Len 0; Len 6; Len 6; Len 5; Len 5; Len 5; Len 6;
        Len 0; Len 4; Len 4; Len 4; Len 5; Len 6; Len 0; Len 0; Len 5;
        ZerosLong 134; Len 6; Len 6; Len 0; Len 6; Zeros 6; Len 1; Len 0;
        Len 1] |}.

Definition letter_blocks : list block :=
  [Dynamic letter_header
     [Literal 68; Literal 101; Literal 97; Literal 114; Literal 32;
      Literal 99; Literal 117; Literal 115; Literal 116; Literal 111;
      Literal 109; Literal 101; Literal 114; Literal 44; Literal 32;
      Literal 121; Literal 111; Literal 117; Literal 114; Literal 32;
      Literal 80; Literal 73; Literal 78; Literal 32; Literal 105;
      Literal 115; Literal 32; Literal 49; Literal 50; Literal 51; Literal 52;
      Literal 53; Literal 54; Literal 46; Literal 32; Literal 80; Literal 108;
      Literal 101; Literal 97; Literal 115; Literal 101; Literal 32;
      Literal 107; Literal 101; Literal 101; Literal 112; Literal 32;
      Literal 116; Literal 104; Literal 101; Literal 32; Literal 110;
      Literal 117; Literal 109; Literal 98; Literal 101; Literal 114;
      Literal 32; Literal 115; Literal 101; Literal 99; Literal 114;
      Literal 101; Literal 116; Literal 32; Literal 97; Literal 110;
      Literal 100; Literal 32; Literal 110; Literal 101; Literal 118;
      Copy 2 0 8 0; Copy 0 0 6 2; Literal 105; Literal 116; Literal 32;
      Literal 116; Literal 111; Copy 0 0 8 4; Literal 121; Literal 111;
      Literal 110; Literal 101; Literal 32; Literal 101; Literal 108;
      Literal 115; Literal 101; Literal 46]].

Definition letter_stream : bytes :=
  [120; 156; 29; 200; 203; 9; 128; 48; 16; 5; 192; 86; 94; 1; 34; 248; 173;
   192; 139; 23; 177; 133; 168; 15; 20; 77; 34; 187; 27; 33; 221; 43; 222;
   134; 25; 232; 4; 107; 82; 139; 158; 82; 32; 199; 36; 152; 199; 9; 135; 162;
   170; 155; 182; 235; 75; 204; 23; 157; 18; 39; 121; 195; 118; 34; 36; 191;
   80; 160; 92; 133; 6; 23; 54; 4; 62; 127; 124; 60; 12; 22; 191; 204; 49; 16;
   188; 148; 229; 11; 97; 123; 33; 157].

End Streams.

(* ================================================================== *)
(** * The page: the [__main__] block of [app.py]

    The Streamlit calls of lines 91-143 display elements in the order in
    which they run; the page is the list of the elements displayed.  The
    three widgets of lines 97-99 return the inputs: the text of the text
    area, the uploaded file (its bytes) or [None], and whether the button
    was pressed.  The [print] calls write to the terminal and display
    nothing on the page. *)

Module App.

Inductive element : Set :=
| Title                          (* line 91: st.title *)
| Intro                          (* line 92: st.markdown *)
| TextArea                       (* line 97: st.text_area *)
| FileUploader                   (* line 98: st.file_uploader *)
| Button                         (* line 99: st.button *)
| ErrorUpload (e : exn)          (* line 116: st.error, with the exception *)
| Subheader                      (* line 121: st.subheader *)
| Success (message : pystr)      (* line 127: st.success *)
| DownloadButton (data : pystr)  (* line 128: st.download_button *)
| WarningNoPin                   (* line 135: st.warning *)
| ErrorDecode                    (* line 137: st.error *)
| InfoBegin                      (* line 140: st.info *)
| InfoReminder.                  (* line 143: st.info *)

(** The message of line 127: f"**Extracted PIN: {pin_value}**" *)
Definition success_message (pin_value : pystr) : pystr :=
  lit "**Extracted PIN: " ++ pin_value ++ lit "**".

(** Lines 102-118: the content to process and what is displayed while it
    is read.  The text area comes first; the uploaded file is read and
    decoded as UTF-8 only when the text area is empty, and when that raises
    the exception is displayed and the content is empty. *)
Definition read_source (html_input : pystr) (uploaded_file : option bytes)
  : list element * pystr :=
  match html_input with
  | _ :: _ => ([], html_input)
  | [] =>
      match uploaded_file with
      | Some content =>
          match Codec.utf8_decode content with
          | Ok source_content => ([], source_content)
          | Raise e => ([ErrorUpload e], [])
          end
      | None => ([], [])
      end
  end.

(** Lines 120-141: what is displayed for the content.  A [None] and an
    empty string are falsy, for [decoded_content] and for [pin_value]. *)
Definition show_results (source_content : pystr) : res (list element) :=
  match source_content with
  | _ :: _ =>
      decoded_content <- decode_viewstate source_content ;;
      match py_value decoded_content with
      | Some ((_ :: _) as text) =>
          match extract_pin_value (Some text) with
          | Some ((_ :: _) as pin_value) =>
              Ok [Subheader; Success (success_message pin_value);
                  DownloadButton pin_value]
          | _ => Ok [Subheader; WarningNoPin]
          end
      | _ => Ok [Subheader; ErrorDecode]
      end
  | [] => Ok [InfoBegin]
  end.

(** Lines 101-141: the body of [if process_button:]. *)
Definition on_button (html_input : pystr) (uploaded_file : option bytes)
  : res (list element) :=
  let (shown, source_content) := read_source html_input uploaded_file in
  results <- show_results source_content ;;
  Ok (shown ++ results).

(** Lines 91-143. *)
Definition main (html_input : pystr) (uploaded_file : option bytes)
  (process_button : bool) : res (list element) :=
  body <- (if process_button then on_button html_input uploaded_file
           else Ok []) ;;
  Ok ([Title; Intro; TextArea; FileUploader; Button] ++ body
      ++ [InfoReminder]).

End App.

(* ================================================================== *)
(** * The code with its diagnostic output

    [print(text)] encodes the text for [sys.stdout] and raises
    UnicodeEncodeError at a character that the encoding of the stream,
    with its error handler, cannot write.  A stream is given here by the
    characters beyond ASCII that it writes; ASCII is written by every
    stream.  The [print] calls whose text is ASCII whatever the input
    therefore always succeed and are left out, as above; the three calls
    that write input text are kept. *)

Module Printing.

Definition stdout : Type := Z -> bool.

Definition writes (out : stdout) (c : Z) : bool := is_ascii c || out c.

(** A UTF-8 stream writes every scalar value and no surrogate. *)
Definition utf8 : stdout := Codec.is_scalar.

(** An ASCII stream, as under the C locale of older systems. *)
Definition ascii : stdout := fun _ => false.

(** A stream whose error handler replaces what cannot be encoded. *)
Definition replacing : stdout := fun _ => true.

Definition print (out : stdout) (text : pystr) : res unit :=
  if forallb (writes out) text then Ok tt else Raise UnicodeEncodeError.

(** [decode_viewstate(html_content)] with the [print] of line 21. *)
Definition decode_viewstate (out : stdout) (html_content : pystr)
  : res outcome :=
  match Re.search VIEWSTATE_RE html_content IGNORECASE with
  | None =>
      _ <- print out
             (lit "DEBUG: Content that failed to match (first 200 chars): '"
              ++ firstn 200 html_content ++ lit "'...") ;;
      Ok NotFound
  | Some m =>
      let encoded_string := Re.group m 1 in
      try_except2
        (decoded_bytes <- Base64.b64decode encoded_string ;;
         try
           (decompressed_bytes <- Zlib.decompress decoded_bytes ;;
            decoded_content <-
              (try Codec.utf8_decode decompressed_bytes
               except CUnicodeDecodeError =>
                 Codec.latin1_decode decompressed_bytes) ;;
            Ok (DecodedZlib decoded_content))
         except CZlibError =>
           (try
              (decoded_content <- Codec.utf8_decode decoded_bytes ;;
               Ok (DecodedRaw decoded_content))
            except CUnicodeDecodeError =>
              (try
                 (decoded_content <- Codec.latin1_decode decoded_bytes ;;
                  Ok (DecodedRaw decoded_content))
               except CUnicodeDecodeError =>
                 Ok (HexDump (HEX_MESSAGE ++ Codec.hex decoded_bytes)))))
        CBinasciiError (Ok InvalidEncoding)
        CException (Ok UnexpectedError)
  end.

(** Lines 102-118 with the [print] calls of lines 105 and 113.  The first
    stands outside every [try]; the second inside the [try] of line 108,
    whose handler displays the exception and empties the content. *)
Definition read_source (out : stdout) (html_input : pystr)
  (uploaded_file : option bytes) : res (list App.element * pystr) :=
  match html_input with
  | _ :: _ =>
      _ <- print out
             (lit "DEBUG: Content from text area (first 100 chars): "
              ++ firstn 100 html_input ++ lit "...") ;;
      Ok ([], html_input)
  | [] =>
      match uploaded_file with
      | Some content =>
          match
            (source_content <- Codec.utf8_decode content ;;
             _ <- print out
                    (lit "DEBUG: Content from uploaded file (first 100 chars): "
                     ++ firstn 100 source_content ++ lit "...") ;;
             Ok source_content)
          with
          | Ok source_content => Ok ([], source_content)
          | Raise e => Ok ([App.ErrorUpload e], [])
          end
      | None => Ok ([], [])
      end
  end.

(** Lines 120-141. *)
Definition show_results (out : stdout) (source_content : pystr)
  : res (list App.element) :=
  match source_content with
  | _ :: _ =>
      decoded_content <- decode_viewstate out source_content ;;
      match py_value decoded_content with
      | Some ((_ :: _) as text) =>
          match extract_pin_value (Some text) with
          | Some ((_ :: _) as pin_value) =>
              Ok [App.Subheader; App.Success (App.success_message pin_value);
                  App.DownloadButton pin_value]
          | _ => Ok [App.Subheader; App.WarningNoPin]
          end
      | _ => Ok [App.Subheader; App.ErrorDecode]
      end
  | [] => Ok [App.InfoBegin]
  end.

(** Lines 101-141. *)
Definition on_button (out : stdout) (html_input : pystr)
  (uploaded_file : option bytes) : res (list App.element) :=
  read <- read_source out html_input uploaded_file ;;
  let (shown, source_content) := read : list App.element * pystr in
  results <- show_results out source_content ;;
  Ok (shown ++ results).

(** Lines 91-143. *)
Definition main (out : stdout) (html_input : pystr)
  (uploaded_file : option bytes) (process_button : bool)
  : res (list App.element) :=
  body <- (if process_button then on_button out html_input uploaded_file
           else Ok []) ;;
  Ok ([App.Title; App.Intro; App.TextArea; App.FileUploader; App.Button]
      ++ body ++ [App.InfoReminder]).

End Printing.

(* ================================================================== *)
(** * Vocabulary of the statements *)

Module Text.

(** The character before an offset, after the characters [g] were read. *)
Definition prev_of (g : pystr) (prev : option Z) : option Z :=
  fold_left (fun _ c => Some c) g prev.

(** The text [s] begins with the pattern literal [l] (under the flag). *)
Fixpoint starts_with (ic : bool) (l s : pystr) : bool :=
  match l, s with
  | [], _ => true
  | c :: l', ch :: s' => Re.literal_matches ic c ch && starts_with ic l' s'
  | _ :: _, [] => false
  end.

(** The text [s] is the literal [l], up to case when the flag is set. *)
Definition same_literal (ic : bool) (l s : pystr) : bool :=
  starts_with ic l s && (length s =? length l)%nat.

(** Offset of the first occurrence of the literal [l] in [s]. *)
Fixpoint first_occurrence (ic : bool) (l s : pystr) : option nat :=
  if starts_with ic l s then Some O
  else
    match s with
    | [] => None
    | _ :: s' => option_map S (first_occurrence ic l s')
    end.

Definition no_char (c : Z) (s : pystr) : bool :=
  forallb (fun ch => negb (ch =? c)) s.

(** Some offset of [s] that is not beyond a [>] satisfies [here]. *)
Fixpoint somewhere_in_tag (here : pystr -> bool) (s : pystr) : bool :=
  here s ||
  match s with
  | ch :: s' => negb (ch =? GT) && somewhere_in_tag here s'
  | [] => false
  end.

(** [s] begins with a double-quoted value attribute: the literal
    value=DQ and, further on, a closing double quote. *)
Definition value_attr_here (ic : bool) (s : pystr) : bool :=
  starts_with ic VALUE_OPEN s
  && negb (no_char DQUOTE (skipn (length VALUE_OPEN) s)).

(** Six decimal digits start here and the character before is not one. *)
Definition six_digits_here (prev : option Z) (s : pystr) : bool :=
  negb (match prev with Some c => Re.is_decimal c | None => false end)
  && (6 <=? length s)%nat && forallb Re.is_decimal (firstn 6 s).

(** The first offset of [s], reached without passing a newline, at which
    [six_digits_here] holds; the result is the six digits. *)
Fixpoint first_six_digits (prev : option Z) (s : pystr) : option pystr :=
  if six_digits_here prev s then Some (firstn 6 s)
  else
    match s with
    | ch :: s' =>
        if ch =? NEWLINE then None else first_six_digits (Some ch) s'
    | [] => None
    end.

(** The search of [extract_pin_value], told without the engine: at the
    first offset where the label stands and [first_six_digits] finds a
    run after it, those digits. *)
Fixpoint pin_search (ic : bool) (s : pystr) : option pystr :=
  match
    (if starts_with ic PIN_LABEL s
     then first_six_digits (prev_of (firstn 3 s) None) (skipn 3 s)
     else None)
  with
  | Some d => Some d
  | None =>
      match s with
      | [] => None
      | _ :: s' => pin_search ic s'
      end
  end.

(** Somewhere in [s] the name attribute stands with a double-quoted value
    attribute after it before any [>]. *)
Fixpoint value_after_name (ic : bool) (s : pystr) : bool :=
  (starts_with ic NAME_ATTR s
   && somewhere_in_tag (value_attr_here ic) (skipn 18 s))
  ||
  match s with
  | [] => false
  | _ :: s' => value_after_name ic s'
  end.

(** Six decimal digits in a row stand somewhere in [s]. *)
Fixpoint six_digits_somewhere (s : pystr) : bool :=
  six_digits_here None s ||
  match s with
  | [] => false
  | _ :: s' => six_digits_somewhere s'
  end.

(** ** Auxiliary definitions for the proofs about the patterns *)

(** The part of [PIN_RE] after the lazy gap. *)
Definition PIN_TAIL : Re.pattern :=
  [Re.GroupClose 1; Re.NotBehind Re.DIGIT; Re.GroupOpen 2;
   Re.Rep Re.DIGIT 6 (Some 6%nat) true; Re.GroupClose 2].

(** The marks that [PIN_TAIL] adds when it matches at offset [pos]. *)
Definition pin_marks (pos : nat) (ms : Re.marks) : Re.marks :=
  (2%nat, true, (pos + 6)%nat) :: (2%nat, false, pos)
  :: (1%nat, true, pos) :: ms.

(** Offset of the digits found by [first_six_digits]. *)
Fixpoint first_six_offset (prev : option Z) (s : pystr) : option nat :=
  if six_digits_here prev s then Some O
  else
    match s with
    | ch :: s' =>
        if ch =? NEWLINE then None
        else option_map S (first_six_offset (Some ch) s')
    | [] => None
    end.

(** The part of [VIEWSTATE_RE] after the gap, and its own last part. *)
Definition VALUE_TAIL : Re.pattern :=
  Re.lits VALUE_OPEN
  ++ [Re.GroupOpen 1; Re.Rep (Re.NOT_LITERAL DQUOTE) 0 None true;
      Re.GroupClose 1]
  ++ Re.lits [DQUOTE].

Definition CLOSE_TAIL : Re.pattern := [Re.GroupClose 1; Re.Lit DQUOTE].

(** The characters of [s] before its first double quote. *)
Fixpoint until_quote (s : pystr) : pystr :=
  match s with
  | [] => []
  | ch :: s' => if ch =? DQUOTE then [] else ch :: until_quote s'
  end.

(** The marks that [VALUE_TAIL] adds when it matches [s] at offset [pos]. *)
Definition value_marks (s : pystr) (pos : nat) (ms : Re.marks) : Re.marks :=
  (1%nat, true, (pos + 7 + length (until_quote (skipn 7 s)))%nat)
  :: (1%nat, false, (pos + 7)%nat) :: ms.

(** The last offset of [s], not beyond a [>], where a value attribute
    begins: where the greedy gap of [VIEWSTATE_RE] ends. *)
Fixpoint last_value_offset (ic : bool) (s : pystr) : option nat :=
  let here := if value_attr_here ic s then Some O else None in
  match s with
  | ch :: s' =>
      if negb (ch =? GT) then
        match last_value_offset ic s' with
        | Some k => Some (S k)
        | None => here
        end
      else here
  | [] => here
  end.

(** The value that the search of [decode_viewstate] captures, told
    without the engine: at the first offset where the name attribute
    stands and a value attribute begins after it before any [>], the
    characters between the opening quote of the last such value attribute
    and the next double quote. *)
Fixpoint captured_value (ic : bool) (s : pystr) : option pystr :=
  match
    (if starts_with ic NAME_ATTR s
     then option_map (fun k => until_quote (skipn 7 (skipn k (skipn 18 s))))
            (last_value_offset ic (skipn 18 s))
     else None)
  with
  | Some v => Some v
  | None =>
      match s with
      | [] => None
      | _ :: s' => captured_value ic s'
      end
  end.

(** What [decode_viewstate] returns, as a function of the captured
    value. *)
Definition outcome_of (captured : option pystr) : outcome :=
  match captured with
  | None => NotFound
  | Some value =>
      match Base64.b64decode value with
      | Raise BinasciiError => InvalidEncoding
      | Raise _ => UnexpectedError
      | Ok decoded_bytes =>
          match Zlib.decompress decoded_bytes with
          | Ok decompressed_bytes =>
              DecodedZlib (text_of_bytes decompressed_bytes)
          | Raise _ => DecodedRaw (text_of_bytes decoded_bytes)
          end
      end
  end.

(** ** What the page shows

    The elements shown for a source text that is not empty, given what
    [decode_viewstate] returned. *)
Definition results_of (decoded_content : option pystr) : list App.element :=
  match decoded_content with
  | Some ((_ :: _) as text) =>
      match pin_search IGNORECASE text with
      | Some pin_value =>
          [App.Subheader; App.Success (App.success_message pin_value);
           App.DownloadButton pin_value]
      | None => [App.Subheader; App.WarningNoPin]
      end
  | _ => [App.Subheader; App.ErrorDecode]
  end.

(** The three forms of these results. *)
Definition is_result (out : list App.element) : Prop :=
  out = [App.Subheader; App.ErrorDecode] \/
  out = [App.Subheader; App.WarningNoPin] \/
  exists pin_value,
    out = [App.Subheader; App.Success (App.success_message pin_value);
           App.DownloadButton pin_value] /\
    length pin_value = 6%nat /\ forallb Re.is_decimal pin_value = true.

(** Everything [if process_button:] can show. *)
Definition is_body (body : list App.element) : Prop :=
  body = [App.InfoBegin] \/
  body = [App.ErrorUpload UnicodeDecodeError; App.InfoBegin] \/
  is_result body.

(** The text that the button processes, if any. *)
Definition source_text (html_input : pystr) (uploaded_file : option bytes)
  (text : pystr) : Prop :=
  html_input = text /\ text <> [] \/
  html_input = [] /\
  exists content,
    uploaded_file = Some content /\ Codec.utf8_decode content = Ok text.

Definition is_body_print (body : list App.element) : Prop :=
  body = [App.InfoBegin] \/
  (exists e, (e = UnicodeDecodeError \/ e = UnicodeEncodeError) /\
             body = [App.ErrorUpload e; App.InfoBegin]) \/
  is_result body.

End Text.

(* ================================================================== *)
(** * Examples: the models on inputs whose results are known

    The expected values are what CPython 3.11 returns. *)

Module Examples.

Example search_labelled_pin :
  extract_pin_value (Some (lit "id=7;PIN: 123456;")) = Some (lit "123456").
Proof. vm_compute. reflexivity. Qed.

Example search_without_label :
  extract_pin_value (Some (lit "no pin here")) = None.
Proof. vm_compute. reflexivity. Qed.

Example search_falsy_argument :
  extract_pin_value None = None /\ extract_pin_value (Some []) = None.
Proof. split; reflexivity. Qed.

(** The label matches in any case, also the dotted capital I (U+0130). *)
Example search_label_case :
  extract_pin_value (Some ([112; 0x130; 110] ++ lit " 654321"))
  = Some (lit "654321").
Proof. vm_compute. reflexivity. Qed.

(** The look-behind refuses the run after a digit; the gap goes on to the
    next run. *)
Example search_skips_tail_of_run :
  extract_pin_value (Some (lit "PIN 12345x9876543 555555"))
  = Some (lit "987654").
Proof. vm_compute. reflexivity. Qed.

Example b64decode_padded : Base64.b64decode (lit "aGk=") = Ok (lit "hi").
Proof. vm_compute. reflexivity. Qed.

Example b64decode_stops_at_padding :
  Base64.b64decode (lit "aGk=aGk=") = Ok (lit "hi").
Proof. vm_compute. reflexivity. Qed.

Example b64decode_short :
  Base64.b64decode (lit "aGk") = Raise BinasciiError.
Proof. vm_compute. reflexivity. Qed.

Example b64encode_bytes :
  Base64.b64encode [0xff; 0xfe] = lit "//4=".
Proof. vm_compute. reflexivity. Qed.

Example utf8_decode_euro :
  Codec.utf8_decode [0xe2; 0x82; 0xac] = Ok [0x20ac].
Proof. vm_compute. reflexivity. Qed.

Example utf8_decode_overlong :
  Codec.utf8_decode [0xc0; 0x80] = Raise UnicodeDecodeError.
Proof. vm_compute. reflexivity. Qed.

Example utf8_decode_surrogate :
  Codec.utf8_decode [0xed; 0xa0; 0x80] = Raise UnicodeDecodeError.
Proof. vm_compute. reflexivity. Qed.

(** A stream with a fixed-Huffman block: [zlib.compress] of the text. *)
Example decompress_fixed_block :
  Zlib.decompress
    [0x78; 0x9c; 0x0b; 0xf0; 0xf4; 0xb3; 0x52; 0x30; 0x34; 0x32; 0x36; 0x31;
     0x35; 0x03; 0x00; 0x0f; 0xeb; 0x02; 0x77]
  = Ok (lit "PIN: 123456").
Proof. vm_compute. reflexivity. Qed.

(** A stream with a dynamic-Huffman block: [zlib.compress(text, 9)]. *)
Example decompress_dynamic_block :
  Zlib.decompress
    [120; 218; 5; 193; 1; 1; 0; 32; 8; 3; 176; 74; 23; 16; 126; 66; 208; 1;
     251; 135; 112; 75; 174; 195; 33; 243; 29; 32; 170; 95; 168; 53; 38; 94;
     66; 145; 197; 179; 31; 154; 245; 8; 92]
  = Ok (lit "68a3030923aN0047:b49:9N298580946781a").
Proof. vm_compute. reflexivity. Qed.

(** A stored block: [zlib.compress(text, 0)]. *)
Example decompress_stored_block :
  Zlib.decompress [120; 1; 1; 1; 0; 254; 255; 97; 0; 98; 0; 98] = Ok (lit "a")
  /\ Zlib.compress_stored (lit "a")
     = [120; 1; 1; 1; 0; 254; 255; 97; 0; 98; 0; 98].
Proof. split; vm_compute; reflexivity. Qed.

Example decompress_wrong_checksum :
  Zlib.decompress [120; 1; 1; 1; 0; 254; 255; 97; 0; 98; 0; 99]
  = Raise ZlibError.
Proof. vm_compute. reflexivity. Qed.

Example decompress_nothing : Zlib.decompress [] = Raise ZlibError.
Proof. vm_compute. reflexivity. Qed.

Example decode_without_attribute :
  decode_viewstate (lit "<form><input name=x /></form>") = Ok NotFound.
Proof. vm_compute. reflexivity. Qed.

(** Both functions in sequence, on the stream of [decompress_fixed_block]
    in base64. *)
Example pipeline :
  option_map (fun o => extract_pin_value (py_value o))
    (match decode_viewstate
             (minimal_input (lit "eJwL8PSzUjA0MjYxNQMAD+sCdw==")) with
     | Ok o => Some o
     | Raise _ => None
     end)
  = Some (Some (lit "123456")).
Proof. vm_compute. reflexivity. Qed.

End Examples.

(* ================================================================== *)
(** * Facts about the regular-expression engine and the two patterns *)

Module ReFacts.
Import Re Text.

Lemma prev_of_app g1 g2 prev :
  prev_of (g1 ++ g2) prev = prev_of g2 (prev_of g1 prev).
Proof. unfold prev_of. apply fold_left_app. Qed.

Lemma sre_match_lits ic l : forall p prev s pos ms,
  sre_match ic (lits l ++ p) prev s pos ms =
  if starts_with ic l s
  then sre_match ic p (prev_of (firstn (length l) s) prev)
         (skipn (length l) s) (pos + length l) ms
  else None.
Proof.
  induction l as [|c l IH]; intros p prev s pos ms.
  - cbn. now rewrite Nat.add_0_r.
  - destruct s as [|ch s]; [reflexivity|].
    cbn [lits map app sre_match starts_with length firstn skipn].
    destruct (literal_matches ic c ch); [|reflexivity].
    cbn [andb]. fold (lits l). rewrite IH.
    cbn [prev_of fold_left]. now rewrite Nat.add_succ_r.
Qed.


Lemma pin_tail_eq ic prev s pos ms :
  sre_match ic PIN_TAIL prev s pos ms =
  if six_digits_here prev s then Some (pin_marks pos ms) else None.
Proof.
  unfold PIN_TAIL, six_digits_here, pin_marks.
  cbn [sre_match in_charset].
  destruct prev as [c|].
  - destruct (is_decimal c); [reflexivity|]. cbn [negb andb].
    do 6 (destruct s as [|? s];
          [reflexivity|
           cbn [max_repeat_one in_charset below Nat.leb Nat.ltb length firstn forallb andb];
           match goal with |- context [is_decimal ?z] => destruct (is_decimal z) end;
           cbn [andb]; [|now rewrite ?andb_false_r]]).
    replace (pos + 6)%nat with (S (S (S (S (S (S pos)))))) by lia.
    destruct s; cbn [max_repeat_one below Nat.leb Nat.ltb sre_match length firstn forallb andb];
      rewrite ?andb_false_r; reflexivity.
  - cbn [negb andb].
    do 6 (destruct s as [|? s];
          [reflexivity|
           cbn [max_repeat_one in_charset below Nat.leb Nat.ltb length firstn forallb andb];
           match goal with |- context [is_decimal ?z] => destruct (is_decimal z) end;
           cbn [andb]; [|now rewrite ?andb_false_r]]).
    replace (pos + 6)%nat with (S (S (S (S (S (S pos)))))) by lia.
    destruct s; cbn [max_repeat_one below Nat.leb Nat.ltb sre_match length firstn forallb andb];
      rewrite ?andb_false_r; reflexivity.
Qed.



Lemma first_six_digits_offset : forall s prev,
  first_six_digits prev s =
  option_map (fun k => firstn 6 (skipn k s)) (first_six_offset prev s).
Proof.
  induction s as [|ch s IH]; intros prev; cbn [first_six_digits first_six_offset].
  - destruct (six_digits_here prev []); reflexivity.
  - destruct (six_digits_here prev (ch :: s)); [reflexivity|].
    destruct (ch =? NEWLINE); [reflexivity|].
    rewrite IH. now destruct (first_six_offset (Some ch) s).
Qed.

Lemma pin_gap_eq ic ms : forall s prev pos n,
  min_repeat_one ANY 0 None
    (fun prev' s' pos' => sre_match ic PIN_TAIL prev' s' pos' ms) prev s pos n =
  option_map (fun k => pin_marks (pos + k) ms) (first_six_offset prev s).
Proof.
  induction s as [|ch s IH]; intros prev pos n;
    cbn [min_repeat_one first_six_offset Nat.leb below andb in_charset];
    rewrite pin_tail_eq.
  - destruct (six_digits_here prev []); cbn; [now rewrite Nat.add_0_r|reflexivity].
  - destruct (six_digits_here prev (ch :: s)); cbn [option_map].
    + now rewrite Nat.add_0_r.
    + rewrite andb_true_r.
      destruct (ch =? NEWLINE); cbn [negb]; [reflexivity|].
      rewrite IH. destruct (first_six_offset (Some ch) s); cbn [option_map]; [|reflexivity].
      now rewrite Nat.add_succ_r.
Qed.

Lemma PIN_RE_eq :
  PIN_RE = lits PIN_LABEL ++ GroupOpen 1 :: Rep ANY 0 None false :: PIN_TAIL.
Proof. reflexivity. Qed.

Lemma pin_match_eq ic prev s pos :
  sre_match ic PIN_RE prev s pos [] =
  if starts_with ic PIN_LABEL s then
    option_map
      (fun k => pin_marks (pos + 3 + k) [(1%nat, false, (pos + 3)%nat)])
      (first_six_offset (prev_of (firstn 3 s) prev) (skipn 3 s))
  else None.
Proof.
  rewrite PIN_RE_eq, sre_match_lits.
  destruct (starts_with ic PIN_LABEL s); [|reflexivity].
  change (length PIN_LABEL) with 3%nat.
  cbn [sre_match]. apply pin_gap_eq.
Qed.

Lemma prev_of_nonempty g : forall p q, g <> [] -> prev_of g p = prev_of g q.
Proof. destruct g; [congruence|reflexivity]. Qed.

Lemma starts_with_length ic l : forall s,
  starts_with ic l s = true -> (length l <= length s)%nat.
Proof.
  induction l as [|c l IH]; intros [|ch s] H; cbn in *; try lia; try discriminate.
  apply andb_true_iff in H. specialize (IH s (proj2 H)). lia.
Qed.

Lemma group2_pin_marks text a ms :
  group {| m_string := text; m_marks := pin_marks a ms |} 2 =
  firstn 6 (skipn a text).
Proof.
  unfold group, pin_marks, substring. cbn.
  now replace (a + 6 - a)%nat with 6%nat by lia.
Qed.

Lemma skipn_app_length {A} (pre s : list A) k :
  skipn (length pre + k) (pre ++ s) = skipn k s.
Proof.
  induction pre; cbn; auto.
Qed.

Lemma pin_search_from ic : forall s pre prev,
  option_map
    (fun ms => group {| m_string := pre ++ s; m_marks := ms |} 2)
    (search_from ic PIN_RE prev s (length pre)) =
  pin_search ic s.
Proof.
  induction s as [|ch s IH]; intros pre prev.
  - reflexivity.
  - cbn [search_from pin_search]. rewrite pin_match_eq.
    destruct (starts_with ic PIN_LABEL (ch :: s)) eqn:Hs.
    + apply starts_with_length in Hs. change (length PIN_LABEL) with 3%nat in Hs.
      rewrite first_six_digits_offset.
      rewrite (prev_of_nonempty (firstn 3 (ch :: s)) prev None) by discriminate.
      destruct (first_six_offset _ _) as [k|]; cbn [option_map].
      * rewrite group2_pin_marks. f_equal.
        rewrite <- Nat.add_assoc, skipn_app_length.
        now rewrite skipn_skipn, Nat.add_comm.
      * specialize (IH (pre ++ [ch]) (Some ch)).
        rewrite length_app, <- app_assoc in IH. cbn [length app] in IH.
        rewrite Nat.add_1_r in IH. apply IH.
    + specialize (IH (pre ++ [ch]) (Some ch)).
      rewrite length_app, <- app_assoc in IH. cbn [length app] in IH.
      rewrite Nat.add_1_r in IH. apply IH.
Qed.

End ReFacts.
Import ReFacts.

(** [extract_pin_value] computes [pin_search]. *)
Lemma extract_pin_value_eq text :
  extract_pin_value (Some text) = Text.pin_search IGNORECASE text.
Proof.
  destruct text as [|ch s]; [reflexivity|].
  unfold extract_pin_value, Re.search.
  rewrite <- (pin_search_from IGNORECASE (ch :: s) [] None).
  cbn [length app].
  now destruct (Re.search_from IGNORECASE PIN_RE None (ch :: s) 0).
Qed.

Module PinFacts.
Import Re Text.

Lemma prev_of_some g : forall c, exists c', prev_of g (Some c) = Some c'.
Proof. induction g as [|a g IH]; intros c; cbn; eauto. Qed.

Lemma six_digits_here_inv prev s :
  six_digits_here prev s = true ->
  length (firstn 6 s) = 6%nat /\ forallb is_decimal (firstn 6 s) = true /\
  match prev with Some c => is_decimal c = false | None => True end.
Proof.
  unfold six_digits_here. rewrite !andb_true_iff, negb_true_iff.
  intros [[Hp Hl] Hd]. apply Nat.leb_le in Hl.
  split; [|split]; auto.
  - rewrite length_firstn. lia.
  - destruct prev; auto.
Qed.

Lemma first_six_digits_sound : forall s prev d,
  first_six_digits prev s = Some d ->
  exists g rest,
    s = g ++ d ++ rest /\ no_char NEWLINE g = true /\
    six_digits_here (prev_of g prev) (d ++ rest) = true /\
    d = firstn 6 (d ++ rest).
Proof.
  induction s as [|ch s IH]; intros prev d; cbn [first_six_digits].
  - destruct (six_digits_here prev []) eqn:H; [|discriminate].
    unfold six_digits_here in H. cbn in H. now rewrite andb_false_r in H.
  - destruct (six_digits_here prev (ch :: s)) eqn:H.
    + intros E. assert (E' : firstn 6 (ch :: s) = d) by congruence.
      clear E. subst d. exists [], (skipn 6 (ch :: s)).
      rewrite firstn_skipn. repeat split; auto.
    + destruct (ch =? NEWLINE) eqn:Hn; [discriminate|].
      intros Hd. destruct (IH _ _ Hd) as (g & rest & -> & Hg & Hw & Hf).
      exists (ch :: g), rest. cbn [app prev_of fold_left no_char forallb].
      rewrite Hn. repeat split; auto.
Qed.

Lemma pin_search_sound ic : forall s d,
  pin_search ic s = Some d ->
  exists pre rest c,
    s = pre ++ d ++ rest /\ length d = 6%nat /\
    forallb is_decimal d = true /\
    prev_of pre None = Some c /\ is_decimal c = false.
Proof.
  induction s as [|ch s IH]; intros d; cbn [pin_search].
  - destruct (starts_with ic PIN_LABEL []); cbn; discriminate.
  - destruct (starts_with ic PIN_LABEL (ch :: s)) eqn:Hs.
    + destruct (first_six_digits _ _) as [d'|] eqn:Hd.
      * intros [= <-].
        pose proof Hs as Hl. apply starts_with_length in Hl.
        change (length PIN_LABEL) with 3%nat in Hl.
        apply first_six_digits_sound in Hd as (g & rest & E & _ & Hw & Hf).
        apply six_digits_here_inv in Hw as (H6 & Hdec & Hp).
        rewrite <- Hf in H6, Hdec.
        rewrite <- prev_of_app in Hp.
        destruct (prev_of (firstn 3 (ch :: s) ++ g) None) as [c|] eqn:Hc.
        -- exists (firstn 3 (ch :: s) ++ g), rest, c.
           rewrite <- app_assoc, <- E, firstn_skipn. auto.
        -- exfalso. destruct s as [|? [|? ?]]; cbn in Hl; try lia.
           rewrite prev_of_app in Hc. cbn in Hc.
           destruct (prev_of_some g z0) as [c' Hc']. congruence.
      * intros H. destruct (IH _ H) as (pre & rest & c & -> & ? & ? & Hp & ?).
        exists (ch :: pre), rest, c. repeat split; auto.
        destruct pre; [discriminate|]. exact Hp.
    + intros H. destruct (IH _ H) as (pre & rest & c & -> & ? & ? & Hp & ?).
      exists (ch :: pre), rest, c. repeat split; auto.
      destruct pre; [discriminate|]. exact Hp.
Qed.

Lemma decimal_ascii c :
  is_decimal c = true -> is_ascii c = true -> is_ascii_digit c = true.
Proof.
  unfold is_ascii, is_ascii_digit. intros Hd Ha.
  apply andb_true_iff in Ha. destruct Ha as [H0 H1].
  apply Z.leb_le in H0. apply Z.ltb_lt in H1.
  unfold is_decimal, Nd_ranges in Hd. cbn [existsb] in Hd.
  unfold in_range in Hd. cbn [fst snd] in Hd.
  apply orb_true_iff in Hd. destruct Hd as [Hd|Hd]; [exact Hd|].
  exfalso.
  repeat (apply orb_true_iff in Hd; destruct Hd as [Hd|Hd];
          [apply andb_true_iff in Hd; destruct Hd as [Hd _]; apply Z.leb_le in Hd; lia|]).
  discriminate.
Qed.


Lemma first_occurrence_skip ic l : forall pre s,
  first_occurrence ic l (pre ++ s) = Some (length pre) ->
  forall k, (k < length pre)%nat ->
  starts_with ic l (skipn k (pre ++ s)) = false.
Proof.
  induction pre as [|a pre IH]; intros s H k Hk; cbn in Hk; [lia|].
  cbn [app first_occurrence length] in H.
  destruct (starts_with ic l (a :: pre ++ s)) eqn:Hs; [discriminate|].
  destruct k as [|k]; [exact Hs|].
  cbn [app skipn]. apply IH; [|lia].
  destruct (first_occurrence ic l (pre ++ s)); cbn in H; congruence.
Qed.

Lemma first_occurrence_here ic l : forall pre s,
  first_occurrence ic l (pre ++ s) = Some (length pre) ->
  starts_with ic l s = true.
Proof.
  induction pre as [|a pre IH]; intros s H.
  - cbn [app length] in H. destruct s; cbn [first_occurrence] in H;
      destruct (starts_with ic l _); try discriminate; auto.
    destruct (first_occurrence ic l s); discriminate.
  - cbn [app first_occurrence length] in H.
    destruct (starts_with ic l (a :: pre ++ s)); [discriminate|].
    apply IH. destruct (first_occurrence ic l (pre ++ s)); cbn in H; congruence.
Qed.

Lemma pin_search_skip ic : forall pre s,
  first_occurrence ic PIN_LABEL (pre ++ s) = Some (length pre) ->
  pin_search ic (pre ++ s) = pin_search ic s.
Proof.
  induction pre as [|a pre IH]; intros s H; [reflexivity|].
  cbn [app first_occurrence length] in H.
  cbn [app pin_search].
  destruct (starts_with ic PIN_LABEL (a :: pre ++ s)); [discriminate|].
  apply IH. destruct (first_occurrence ic PIN_LABEL (pre ++ s)); cbn in H; congruence.
Qed.

Lemma label_N_not_decimal ic c :
  literal_matches ic 78 c = true -> is_decimal c = false.
Proof.
  unfold literal_matches, iscased, is_ascii_letter, unicode_tolower, fixes, mem.
  destruct ic; cbn [andb orb existsb Z.leb Z.eqb Z.compare Pos.compare Pos.compare_cont Z.add Pos.add].
  - destruct ((65 <=? c) && (c <=? 90)) eqn:H1.
    + apply andb_true_iff in H1. rewrite Z.leb_le, Z.leb_le in H1.
      rewrite orb_false_r. intros H. apply Z.eqb_eq in H.
      assert (c = 78) by lia. now subst c.
    + destruct (c =? 304) eqn:H2; [intros H; discriminate H|].
      destruct (c =? 8490) eqn:H3; [intros H; discriminate H|].
      rewrite orb_false_r. intros H. apply Z.eqb_eq in H. now subst c.
  - intros H. apply Z.eqb_eq in H. now subst c.
Qed.

Lemma starts_with_app ic l : forall x y,
  starts_with ic l x = true -> starts_with ic l (x ++ y) = true.
Proof.
  induction l as [|c l IH]; intros [|a x] y H; cbn in *; auto; try discriminate.
  apply andb_true_iff in H. destruct H as [H1 H2]. rewrite H1. cbn. auto.
Qed.

Lemma pin_search_digits_after_label label ds rest :
  same_literal IGNORECASE PIN_LABEL label = true ->
  (6 <= length ds)%nat ->
  forallb is_decimal ds = true ->
  pin_search IGNORECASE (label ++ ds ++ rest) = Some (firstn 6 ds).
Proof.
  unfold same_literal. rewrite andb_true_iff. intros [Hs Hl] H6 Hd.
  apply Nat.eqb_eq in Hl. change (length PIN_LABEL) with 3%nat in Hl.
  destruct label as [|a [|b [|c [|? ?]]]]; try discriminate Hl.
  pose proof (starts_with_app _ _ _ (ds ++ rest) Hs) as Hs'.
  assert (Hn : is_decimal c = false).
  { change PIN_LABEL with [80; 73; 78] in Hs. cbn [starts_with] in Hs.
    apply andb_true_iff in Hs. destruct Hs as [_ Hs].
    apply andb_true_iff in Hs. destruct Hs as [_ Hs].
    apply andb_true_iff in Hs. destruct Hs as [Hs _].
    eapply label_N_not_decimal. exact Hs. }
  destruct (ds ++ rest) as [|x xs] eqn:E.
  { apply (f_equal (@length Z)) in E. rewrite length_app in E. cbn in E. lia. }
  cbn [app pin_search]. cbn [app] in Hs'. rewrite Hs'.
  cbn [firstn skipn prev_of fold_left].
  cbn [first_six_digits]. 
  assert (Hw : six_digits_here (Some c) (x :: xs) = true).
  { unfold six_digits_here. rewrite Hn. cbn [negb andb].
    rewrite <- E. rewrite length_app.
    replace (6 <=? length ds + length rest)%nat with true
      by (symmetry; apply Nat.leb_le; lia).
    cbn [andb]. rewrite firstn_app.
    replace (6 - length ds)%nat with 0%nat by lia. cbn [firstn]. rewrite app_nil_r.
    rewrite <- (firstn_skipn 6 ds) in Hd. rewrite forallb_app in Hd.
    now apply andb_true_iff in Hd. }
  rewrite Hw. f_equal. rewrite <- E, firstn_app.
  replace (6 - length ds)%nat with 0%nat by lia. cbn [firstn]. now rewrite app_nil_r.
Qed.

End PinFacts.

Module ViewstateFacts.
Import Re Text.

Lemma literal_matches_quote ic ch : literal_matches ic DQUOTE ch = (ch =? DQUOTE).
Proof. unfold literal_matches. now rewrite andb_false_r. Qed.

Lemma sre_match_open ic n p prev s pos ms :
  sre_match ic (GroupOpen n :: p) prev s pos ms =
  sre_match ic p prev s pos ((n, false, pos) :: ms).
Proof. reflexivity. Qed.

Lemma sre_match_greedy ic cs lo hi p prev s pos ms :
  sre_match ic (Rep cs lo hi true :: p) prev s pos ms =
  max_repeat_one cs lo hi
    (fun prev' s' pos' => sre_match ic p prev' s' pos' ms) prev s pos 0.
Proof. reflexivity. Qed.

Lemma close_tail_eq ic prev s pos ms :
  sre_match ic CLOSE_TAIL prev s pos ms =
  match s with
  | ch :: _ => if ch =? DQUOTE then Some ((1%nat, true, pos) :: ms) else None
  | [] => None
  end.
Proof.
  unfold CLOSE_TAIL. cbn [sre_match]. destruct s as [|ch s]; [reflexivity|].
  rewrite literal_matches_quote. now destruct (ch =? DQUOTE).
Qed.

Lemma quoted_eq ic ms : forall s prev pos n,
  max_repeat_one (NOT_LITERAL DQUOTE) 0 None
    (fun prev' s' pos' => sre_match ic CLOSE_TAIL prev' s' pos' ms) prev s pos n =
  if no_char DQUOTE s then None
  else Some ((1%nat, true, (pos + length (until_quote s))%nat) :: ms).
Proof.
  induction s as [|ch s IH]; intros prev pos n;
    cbn [max_repeat_one Nat.leb below in_charset no_char forallb until_quote];
    rewrite close_tail_eq.
  - reflexivity.
  - rewrite andb_true_r. destruct (ch =? DQUOTE); cbn [negb andb length].
    + now rewrite Nat.add_0_r.
    + rewrite IH. fold (no_char DQUOTE s).
      destruct (no_char DQUOTE s); [reflexivity|].
      now rewrite Nat.add_succ_r.
Qed.

Lemma value_tail_eq ic prev s pos ms :
  sre_match ic VALUE_TAIL prev s pos ms =
  if value_attr_here ic s then Some (value_marks s pos ms) else None.
Proof.
  unfold VALUE_TAIL, value_attr_here, value_marks.
  rewrite sre_match_lits. change (length VALUE_OPEN) with 7%nat.
  destruct (starts_with ic VALUE_OPEN s); [|reflexivity].
  cbn [andb app lits map].
  rewrite sre_match_open, sre_match_greedy.
  change [GroupClose 1; Lit DQUOTE] with CLOSE_TAIL.
  rewrite quoted_eq. now destruct (no_char DQUOTE (skipn 7 s)).
Qed.

Lemma gap_eq ic ms : forall s prev pos n,
  max_repeat_one (NOT_LITERAL GT) 0 None
    (fun prev' s' pos' => sre_match ic VALUE_TAIL prev' s' pos' ms) prev s pos n =
  option_map (fun k => value_marks (skipn k s) (pos + k) ms)
    (last_value_offset ic s).
Proof.
  induction s as [|ch s IH]; intros prev pos n;
    cbn [max_repeat_one Nat.leb below in_charset last_value_offset];
    rewrite value_tail_eq.
  - destruct (value_attr_here ic []); cbn; [now rewrite Nat.add_0_r|reflexivity].
  - rewrite andb_true_r. destruct (negb (ch =? GT)).
    + rewrite IH. destruct (last_value_offset ic s) as [k|]; cbn [option_map skipn].
      * now rewrite Nat.add_succ_r.
      * destruct (value_attr_here ic (ch :: s)); cbn; [now rewrite Nat.add_0_r|reflexivity].
    + destruct (value_attr_here ic (ch :: s)); cbn; [now rewrite Nat.add_0_r|reflexivity].
Qed.

Lemma VIEWSTATE_RE_eq :
  VIEWSTATE_RE =
  lits NAME_ATTR ++ Rep (NOT_LITERAL GT) 0 None true :: VALUE_TAIL.
Proof. reflexivity. Qed.

Lemma viewstate_match_eq ic prev s pos :
  sre_match ic VIEWSTATE_RE prev s pos [] =
  if starts_with ic NAME_ATTR s then
    option_map (fun k => value_marks (skipn k (skipn 18 s)) (pos + 18 + k) [])
      (last_value_offset ic (skipn 18 s))
  else None.
Proof.
  rewrite VIEWSTATE_RE_eq, sre_match_lits.
  destruct (starts_with ic NAME_ATTR s); [|reflexivity].
  change (length NAME_ATTR) with 18%nat. rewrite sre_match_greedy. apply gap_eq.
Qed.


Lemma sre_match_lits_fail ic l p prev s pos ms :
  starts_with ic l s = false -> sre_match ic (lits l ++ p) prev s pos ms = None.
Proof. intros H. now rewrite sre_match_lits, H. Qed.

Lemma search_from_lits_none ic l p : forall s prev pos,
  first_occurrence ic l s = None ->
  search_from ic (lits l ++ p) prev s pos = None.
Proof.
  induction s as [|ch s IH]; intros prev pos H; cbn [first_occurrence] in H;
    cbn [search_from].
  - destruct (starts_with ic l []) eqn:Hs; [discriminate|].
    now rewrite sre_match_lits_fail.
  - destruct (starts_with ic l (ch :: s)) eqn:Hs; [discriminate|].
    rewrite sre_match_lits_fail by exact Hs.
    apply IH. now destruct (first_occurrence ic l s).
Qed.

Lemma search_from_lits_skip ic l p : forall pre s prev pos,
  first_occurrence ic l (pre ++ s) = Some (length pre) ->
  search_from ic (lits l ++ p) prev (pre ++ s) pos =
  search_from ic (lits l ++ p) (prev_of pre prev) s (pos + length pre).
Proof.
  induction pre as [|a pre IH]; intros s prev pos H.
  - cbn. now rewrite Nat.add_0_r.
  - cbn [app first_occurrence length] in H.
    destruct (starts_with ic l (a :: pre ++ s)) eqn:Hs; [discriminate|].
    cbn [app search_from]. rewrite sre_match_lits_fail by exact Hs.
    rewrite IH.
    + cbn [prev_of fold_left length]. now rewrite Nat.add_succ_r.
    + destruct (first_occurrence ic l (pre ++ s)); cbn in H; congruence.
Qed.

Lemma first_occurrence_none ic l : forall s,
  first_occurrence ic l s = None ->
  forall k, starts_with ic l (skipn k s) = false.
Proof.
  induction s as [|ch s IH]; intros H k; cbn [first_occurrence] in H.
  - destruct (starts_with ic l []) eqn:Hs; [discriminate|]. now destruct k.
  - destruct (starts_with ic l (ch :: s)) eqn:Hs; [discriminate|].
    destruct k as [|k]; [exact Hs|]. cbn [skipn]. apply IH.
    now destruct (first_occurrence ic l s).
Qed.

Lemma last_value_offset_none ic : forall s,
  somewhere_in_tag (value_attr_here ic) s = false ->
  last_value_offset ic s = None.
Proof.
  induction s as [|ch s IH]; cbn [somewhere_in_tag last_value_offset]; intros H;
    apply orb_false_iff in H; destruct H as [H1 H2]; rewrite H1; [reflexivity|].
  destruct (negb (ch =? GT)); [|reflexivity].
  now rewrite IH.
Qed.

Lemma last_value_offset_gap ic t : forall mid,
  no_char GT mid = true ->
  last_value_offset ic t = Some O ->
  last_value_offset ic (mid ++ t) = Some (length mid).
Proof.
  induction mid as [|ch mid IH]; intros Hm Ht; [exact Ht|].
  cbn [no_char forallb] in Hm. apply andb_true_iff in Hm. destruct Hm as [Hc Hm].
  cbn [app last_value_offset length]. rewrite Hc.
  now rewrite (IH Hm Ht).
Qed.

Lemma last_value_offset_here ic t :
  value_attr_here ic t = true ->
  somewhere_in_tag (value_attr_here ic) (tl t) = false ->
  last_value_offset ic t = Some O.
Proof.
  intros Hh Hl. destruct t as [|ch t]; cbn [last_value_offset]; rewrite Hh.
  - reflexivity.
  - cbn [tl] in Hl. rewrite (last_value_offset_none _ _ Hl).
    now destruct (negb (ch =? GT)).
Qed.

Lemma somewhere_none_everywhere here : forall s,
  (forall k, here (skipn k s) = false) -> somewhere_in_tag here s = false.
Proof.
  induction s as [|ch s IH]; intros H; cbn [somewhere_in_tag];
    pose proof (H O) as H0; cbn [skipn] in H0; rewrite H0; [reflexivity|].
  cbn [orb]. rewrite IH; [apply andb_false_r|].
  intros k. apply (H (S k)).
Qed.

Lemma until_quote_app v rest :
  no_char DQUOTE v = true -> until_quote (v ++ DQUOTE :: rest) = v.
Proof.
  induction v as [|c v IH]; cbn [no_char forallb app until_quote]; intros H.
  - reflexivity.
  - apply andb_true_iff in H. destruct H as [Hc Hv].
    apply negb_true_iff in Hc. rewrite Hc. f_equal. now apply IH.
Qed.

Lemma no_char_app c x y : no_char c (x ++ y) = no_char c x && no_char c y.
Proof. apply forallb_app. Qed.

Lemma literal_matches_cased x lo c :
  iscased x = true -> unicode_tolower x = lo -> fixes lo = [] ->
  literal_matches true x c = (unicode_tolower c =? lo).
Proof.
  intros H1 H2 H3. unfold literal_matches. rewrite H1, H2, H3.
  cbn [andb mem existsb]. apply orb_false_r.
Qed.

Lemma literal_matches_exact ic x c :
  ic && iscased x = false -> literal_matches ic x c = (c =? x).
Proof. intros H. unfold literal_matches. now rewrite H. Qed.

(** No letter of value=DQ after the first matches the first. *)
Lemma not_v_after ic c x :
  In x [97; 108; 117; 101; 61; 34] ->
  literal_matches ic x c = true -> literal_matches ic 118 c = false.
Proof.
  intros Hx H. destruct ic.
  - rewrite (literal_matches_cased 118 118) by reflexivity.
    cbn in Hx. destruct Hx as [<-|[<-|[<-|[<-|[<-|[<-|[]]]]]]].
    1: rewrite (literal_matches_cased 97 97) in H by reflexivity.
    2: rewrite (literal_matches_cased 108 108) in H by reflexivity.
    3: rewrite (literal_matches_cased 117 117) in H by reflexivity.
    4: rewrite (literal_matches_cased 101 101) in H by reflexivity.
    1-4: apply Z.eqb_eq in H; now rewrite H.
    all: rewrite literal_matches_exact in H by reflexivity;
         apply Z.eqb_eq in H; now subst c.
  - rewrite literal_matches_exact in * by reflexivity.
    apply Z.eqb_eq in H. subst c. cbn in Hx.
    destruct Hx as [<-|[<-|[<-|[<-|[<-|[<-|[]]]]]]]; reflexivity.
Qed.


Lemma search_from_hit ic p prev s pos ms :
  sre_match ic p prev s pos [] = Some ms ->
  search_from ic p prev s pos = Some ms.
Proof. intros H. destruct s; cbn [search_from]; now rewrite H. Qed.

Lemma same_literal_inv ic l s :
  same_literal ic l s = true ->
  starts_with ic l s = true /\ length s = length l.
Proof.
  unfold same_literal. rewrite andb_true_iff, Nat.eqb_eq. tauto.
Qed.

Lemma no_later_value ic val rest :
  same_literal ic VALUE_OPEN val = true ->
  somewhere_in_tag (value_attr_here ic) rest = false ->
  somewhere_in_tag (value_attr_here ic) (tl (val ++ rest)) = false.
Proof.
  intros Hv Hr. apply same_literal_inv in Hv. destruct Hv as [Hs Hl].
  change (length VALUE_OPEN) with 7%nat in Hl.
  destruct val as [|a0 [|a1 [|a2 [|a3 [|a4 [|a5 [|a6 [|? ?]]]]]]]];
    try discriminate Hl.
  change VALUE_OPEN with [118; 97; 108; 117; 101; 61; 34] in Hs.
  cbn [starts_with] in Hs.
  apply andb_true_iff in Hs; destruct Hs as [_ Hs].
  apply andb_true_iff in Hs; destruct Hs as [H1 Hs].
  apply andb_true_iff in Hs; destruct Hs as [H2 Hs].
  apply andb_true_iff in Hs; destruct Hs as [H3 Hs].
  apply andb_true_iff in Hs; destruct Hs as [H4 Hs].
  apply andb_true_iff in Hs; destruct Hs as [H5 Hs].
  apply andb_true_iff in Hs; destruct Hs as [H6 _].
  assert (N : forall x c t, In x [97; 108; 117; 101; 61; 34] ->
            literal_matches ic x c = true ->
            value_attr_here ic (c :: t) = false).
  { intros x c t Hx Hc. unfold value_attr_here.
    change VALUE_OPEN with [118; 97; 108; 117; 101; 61; 34].
    cbn [starts_with]. now rewrite (not_v_after ic c x Hx Hc). }
  cbn [app tl].
  cbn [somewhere_in_tag].
  rewrite (N 97 a1), (N 108 a2), (N 117 a3), (N 101 a4), (N 61 a5), (N 34 a6)
    by (assumption || (cbn; tauto)).
  cbn [orb]. rewrite Hr. now rewrite !andb_false_r.
Qed.

Lemma value_attr_here_open ic val v post :
  same_literal ic VALUE_OPEN val = true ->
  value_attr_here ic (val ++ v ++ DQUOTE :: post) = true /\
  skipn 7 (val ++ v ++ DQUOTE :: post) = v ++ DQUOTE :: post.
Proof.
  intros Hv. apply same_literal_inv in Hv. destruct Hv as [Hs Hl].
  change (length VALUE_OPEN) with 7%nat in Hl.
  assert (E : skipn 7 (val ++ v ++ DQUOTE :: post) = v ++ DQUOTE :: post).
  { rewrite <- Hl. rewrite skipn_app, skipn_all, Nat.sub_diag. reflexivity. }
  split; [|exact E].
  unfold value_attr_here. rewrite (PinFacts.starts_with_app _ _ _ _ Hs).
  change (length VALUE_OPEN) with 7%nat. rewrite E, no_char_app.
  cbn [no_char forallb]. rewrite Z.eqb_refl. cbn. now rewrite andb_false_r.
Qed.

Lemma substring_middle (a v b : pystr) :
  substring (a ++ v ++ b) (length a) (length a + length v) = v.
Proof.
  unfold substring. replace (length a + length v - length a)%nat with (length v) by lia.
  rewrite skipn_app, skipn_all, Nat.sub_diag. cbn [skipn app].
  rewrite firstn_app, firstn_all, Nat.sub_diag. cbn [firstn]. apply app_nil_r.
Qed.

(** Where the pattern of line 16 matches and what it captures. *)
Lemma viewstate_search pre name mid val v post :
  first_occurrence IGNORECASE NAME_ATTR
    (pre ++ name ++ mid ++ val ++ v ++ [DQUOTE] ++ post) = Some (length pre) ->
  length name = length NAME_ATTR ->
  no_char GT mid = true ->
  same_literal IGNORECASE VALUE_OPEN val = true ->
  no_char DQUOTE v = true ->
  somewhere_in_tag (value_attr_here IGNORECASE) (v ++ [DQUOTE] ++ post) = false ->
  exists m,
    search VIEWSTATE_RE (pre ++ name ++ mid ++ val ++ v ++ [DQUOTE] ++ post)
      IGNORECASE = Some m /\
    group m 1 = v.
Proof.
  change ([DQUOTE] ++ post) with (DQUOTE :: post).
  intros Hfirst Hname Hmid Hval Hv Hlater.
  change (length NAME_ATTR) with 18%nat in Hname.
  set (t := val ++ v ++ DQUOTE :: post).
  set (text := pre ++ name ++ mid ++ t).
  assert (Hs : starts_with IGNORECASE NAME_ATTR (name ++ mid ++ t) = true)
    by exact (PinFacts.first_occurrence_here _ _ _ _ Hfirst).
  assert (E18 : skipn 18 (name ++ mid ++ t) = mid ++ t).
  { rewrite <- Hname, skipn_app, skipn_all, Nat.sub_diag. reflexivity. }
  destruct (value_attr_here_open IGNORECASE val v post Hval) as [Hh E7].
  assert (Hoff : last_value_offset IGNORECASE (mid ++ t) = Some (length mid)).
  { apply last_value_offset_gap; [exact Hmid|].
    apply last_value_offset_here; [exact Hh|].
    apply no_later_value; assumption. }
  pose (P := (length pre + 18 + length mid)%nat).
  exists {| m_string := text;
            m_marks := [(1%nat, true, (P + 7 + length v)%nat);
                        (1%nat, false, (P + 7)%nat)] |}.
  split.
  - unfold search. fold text.
    unfold text at 1. rewrite VIEWSTATE_RE_eq, search_from_lits_skip by exact Hfirst.
    rewrite <- VIEWSTATE_RE_eq.
    erewrite search_from_hit; [reflexivity|].
    rewrite viewstate_match_eq, Hs, E18, Hoff. cbn [option_map].
    unfold value_marks. rewrite skipn_app, skipn_all, Nat.sub_diag.
    change (skipn 0 t) with t. cbn [app]. unfold t. rewrite E7.
    rewrite until_quote_app by exact Hv. reflexivity.
  - unfold group. cbn [m_marks m_string find_mark Nat.eqb Bool.eqb andb].
    unfold text, t.
    replace (pre ++ name ++ mid ++ val ++ v ++ DQUOTE :: post)
      with ((pre ++ name ++ mid ++ val) ++ v ++ (DQUOTE :: post))
      by (now rewrite <- !app_assoc).
    replace (P + 7)%nat with (length (pre ++ name ++ mid ++ val)).
    + apply substring_middle.
    + apply same_literal_inv in Hval. destruct Hval as [_ Hl].
      change (length VALUE_OPEN) with 7%nat in Hl.
      rewrite !length_app. unfold P. lia.
Qed.

Lemma count_no_char c : forall l,
  no_char c l = true -> count_occ Z.eq_dec l c = 0%nat.
Proof.
  induction l as [|a l IH]; cbn [no_char forallb count_occ]; intros H; [reflexivity|].
  apply andb_true_iff in H. destruct H as [Ha Hl].
  apply negb_true_iff, Z.eqb_neq in Ha.
  destruct (Z.eq_dec a c); [congruence|]. now apply IH.
Qed.

Lemma count_some_char c : forall l,
  no_char c l = false -> (1 <= count_occ Z.eq_dec l c)%nat.
Proof.
  induction l as [|a l IH]; cbn [no_char forallb count_occ]; intros H; [discriminate|].
  destruct (Z.eq_dec a c); [lia|].
  apply andb_false_iff in H. destruct H as [H|H].
  - apply negb_false_iff, Z.eqb_eq in H. congruence.
  - now apply IH.
Qed.

Lemma count_skipn c : forall k l,
  (count_occ Z.eq_dec (skipn k l) c <= count_occ Z.eq_dec l c)%nat.
Proof.
  induction k as [|k IH]; intros l; [cbn; lia|].
  destruct l as [|a l]; [cbn; lia|]. cbn [skipn count_occ].
  specialize (IH l). destruct (Z.eq_dec a c); lia.
Qed.

(** A value attribute needs its opening and its closing double quote. *)
Lemma value_attr_two_quotes ic s :
  value_attr_here ic s = true -> (2 <= count_occ Z.eq_dec s DQUOTE)%nat.
Proof.
  unfold value_attr_here. rewrite andb_true_iff, negb_true_iff.
  change (length VALUE_OPEN) with 7%nat.
  change VALUE_OPEN with [118; 97; 108; 117; 101; 61; DQUOTE].
  intros [Hs Hq].
  destruct s as [|c0 [|c1 [|c2 [|c3 [|c4 [|c5 [|c6 r]]]]]]]; cbn [starts_with] in Hs;
    rewrite ?andb_false_r in Hs; try discriminate Hs.
  do 6 (apply andb_true_iff in Hs; destruct Hs as [_ Hs]).
  apply andb_true_iff in Hs. destruct Hs as [Hs _].
  rewrite literal_matches_quote in Hs. apply Z.eqb_eq in Hs. subst c6.
  cbn [skipn] in Hq. apply count_some_char in Hq.
  change [c0; c1; c2; c3; c4; c5; DQUOTE] with ([c0; c1; c2; c3; c4; c5] ++ [DQUOTE]).
  replace (c0 :: c1 :: c2 :: c3 :: c4 :: c5 :: DQUOTE :: r)
    with ([c0; c1; c2; c3; c4; c5] ++ DQUOTE :: r) by reflexivity.
  rewrite count_occ_app. cbn [count_occ].
  destruct (Z.eq_dec DQUOTE DQUOTE); [lia|congruence].
Qed.

(** With a single double quote left in the text no value attribute
    begins anywhere. *)
Lemma one_quote_no_value ic v post :
  no_char DQUOTE v = true -> no_char DQUOTE post = true ->
  somewhere_in_tag (value_attr_here ic) (v ++ DQUOTE :: post) = false.
Proof.
  intros Hv Hp. apply somewhere_none_everywhere. intros k.
  destruct (value_attr_here ic (skipn k (v ++ DQUOTE :: post))) eqn:E; [|reflexivity].
  apply value_attr_two_quotes in E.
  pose proof (count_skipn DQUOTE k (v ++ DQUOTE :: post)) as H.
  rewrite count_occ_app in H. cbn [count_occ] in H.
  rewrite (count_no_char _ _ Hv), (count_no_char _ _ Hp) in H.
  destruct (Z.eq_dec DQUOTE DQUOTE); [lia|congruence].
Qed.

Lemma viewstate_search_no_name text :
  first_occurrence IGNORECASE NAME_ATTR text = None ->
  search VIEWSTATE_RE text IGNORECASE = None.
Proof.
  intros H. unfold search.
  now rewrite VIEWSTATE_RE_eq, search_from_lits_none.
Qed.

Lemma search_from_all_fail ic p : forall s prev pos,
  (forall k prev' pos', sre_match ic p prev' (skipn k s) pos' [] = None) ->
  search_from ic p prev s pos = None.
Proof.
  induction s as [|ch s IH]; intros prev pos H; cbn [search_from].
  - now rewrite (H O).
  - pose proof (H O prev pos) as H0. cbn [skipn] in H0. rewrite H0.
    apply IH. intros k. apply (H (S k)).
Qed.

Lemma viewstate_search_no_value text :
  first_occurrence IGNORECASE VALUE_OPEN text = None ->
  search VIEWSTATE_RE text IGNORECASE = None.
Proof.
  intros H. unfold search.
  rewrite search_from_all_fail; [reflexivity|].
  intros k prev' pos'. rewrite viewstate_match_eq.
  destruct (starts_with IGNORECASE NAME_ATTR (skipn k text)); [|reflexivity].
  rewrite last_value_offset_none; [reflexivity|].
  apply somewhere_none_everywhere. intros j.
  unfold value_attr_here. rewrite !skipn_skipn.
  now rewrite (first_occurrence_none _ _ _ H).
Qed.

End ViewstateFacts.

(* ================================================================== *)
(** * Facts about the library models *)

Module Brute.

(** A property checked on every number below [n] holds below [n]. *)
Lemma forall_below (P : Z -> bool) (n : nat) :
  forallb P (map Z.of_nat (seq 0 n)) = true ->
  forall z, 0 <= z < Z.of_nat n -> P z = true.
Proof.
  intros H z Hz. rewrite forallb_forall in H. apply H.
  apply in_map_iff. exists (Z.to_nat z). split; [lia|].
  apply in_seq. lia.
Qed.

Lemma forall_below2 (P : Z -> Z -> bool) (n m : nat) :
  forallb (fun x => forallb (P x) (map Z.of_nat (seq 0 m)))
    (map Z.of_nat (seq 0 n)) = true ->
  forall x y, 0 <= x < Z.of_nat n -> 0 <= y < Z.of_nat m -> P x y = true.
Proof.
  intros H x y Hx Hy.
  apply (forall_below (P x) m); [|exact Hy].
  apply (forall_below (fun x => forallb (P x) (map Z.of_nat (seq 0 m))) n H x Hx).
Qed.

Lemma is_byte_range b : is_byte b = true <-> 0 <= b < 256.
Proof. unfold is_byte. rewrite andb_true_iff, Z.leb_le, Z.ltb_lt. tauto. Qed.

End Brute.

Module Base64Facts.
Import Base64 Brute.

Lemma to_uchar_byte v : is_byte (to_uchar v) = true.
Proof.
  unfold to_uchar. apply is_byte_range.
  change 255 with (Z.ones 8). rewrite Z.land_ones by lia.
  apply Z.mod_pos_bound. lia.
Qed.

(** Whatever [a2b_loop] returns consists of the bytes it was given and of
    bytes it stored. *)
Lemma a2b_loop_bytes : forall data q l p out r,
  forallb is_byte out = true ->
  a2b_loop data q l p out = Ok r -> forallb is_byte r = true.
Proof.
  induction data as [|ch data IH]; intros q l p out r Hout; cbn [a2b_loop].
  - destruct (q =? 0); [|discriminate]. now intros [= <-].
  - assert (Hs : forall x, forallb is_byte (out ++ [to_uchar x]) = true).
    { intros x. rewrite forallb_app, Hout. cbn. now rewrite to_uchar_byte. }
    destruct (ch =? BASE64_PAD).
    + destruct (2 <=? q); [|now apply IH].
      destruct (4 <=? q + (p + 1)); [now intros [= <-]|now apply IH].
    + destruct (64 <=? table_a2b_base64 ch); [now apply IH|].
      destruct (q =? 0); [now apply IH|].
      destruct (q =? 1); [now apply IH|].
      destruct (q =? 2); now apply IH.
Qed.

Lemma b64decode_bytes s r :
  b64decode s = Ok r -> forallb is_byte r = true.
Proof.
  unfold b64decode, bytes_from_decode_data, a2b_base64.
  destruct (forallb is_ascii s); [|discriminate]. cbn [bind].
  now apply a2b_loop_bytes.
Qed.

Lemma a2b_loop_exn : forall data q l p out e,
  a2b_loop data q l p out = Raise e -> e = BinasciiError.
Proof.
  induction data as [|ch data IH]; intros q l p out e; cbn [a2b_loop].
  - destruct (q =? 0); [discriminate|]. now intros [= <-].
  - destruct (ch =? BASE64_PAD).
    + destruct (2 <=? q); [|now apply IH].
      destruct (4 <=? q + (p + 1)); [discriminate|now apply IH].
    + destruct (64 <=? table_a2b_base64 ch); [now apply IH|].
      destruct (q =? 0); [now apply IH|].
      destruct (q =? 1); [now apply IH|].
      destruct (q =? 2); now apply IH.
Qed.

(** Characters outside the alphabet are skipped. *)
Lemma a2b_loop_filter : forall data q l p out,
  a2b_loop (filter significant data) q l p out = a2b_loop data q l p out.
Proof.
  induction data as [|ch data IH]; intros q l p out; [reflexivity|].
  cbn [filter]. unfold significant, is_alphabet.
  destruct (ch =? BASE64_PAD) eqn:Hp; cbn [orb].
  - cbn [a2b_loop]. rewrite Hp, !IH. reflexivity.
  - destruct (table_a2b_base64 ch <? 64) eqn:Ht.
    + cbn [a2b_loop]. rewrite Hp, !IH. reflexivity.
    + cbn [a2b_loop]. rewrite Hp, IH.
      replace (64 <=? table_a2b_base64 ch) with true; [reflexivity|].
      symmetry. apply Z.leb_le. apply Z.ltb_ge in Ht. exact Ht.
Qed.

(** Without pad characters the outcome is decided by the number of
    alphabet characters. *)
Lemma a2b_loop_no_pad : forall data q l p out,
  0 <= q < 4 ->
  forallb (fun c => negb (c =? BASE64_PAD)) data = true ->
  forallb is_alphabet data = true ->
  if (q + Z.of_nat (length data)) mod 4 =? 0
  then exists r, a2b_loop data q l p out = Ok r
  else a2b_loop data q l p out = Raise BinasciiError.
Proof.
  induction data as [|ch data IH]; intros q l p out Hq Hp Ha.
  - cbn [a2b_loop length]. rewrite Z.add_0_r, Z.mod_small by lia.
    destruct (q =? 0); eauto.
  - cbn [forallb] in Hp, Ha.
    apply andb_true_iff in Hp. destruct Hp as [Hc Hp].
    apply andb_true_iff in Ha. destruct Ha as [Hv Ha].
    apply negb_true_iff in Hc. unfold is_alphabet in Hv. apply Z.ltb_lt in Hv.
    cbn [a2b_loop]. rewrite Hc.
    replace (64 <=? table_a2b_base64 ch) with false
      by (symmetry; apply Z.leb_gt; lia).
    assert (E : forall q', (q' = (q + 1) mod 4) ->
              (q + Z.of_nat (length (ch :: data))) mod 4 =
              (q' + Z.of_nat (length data)) mod 4).
    { intros q' ->. cbn [length]. rewrite Zplus_mod_idemp_l. f_equal. lia. }
    destruct (q =? 0) eqn:H0; [apply Z.eqb_eq in H0; subst q;
      rewrite (E 1) by reflexivity; apply IH; auto; lia|].
    destruct (q =? 1) eqn:H1; [apply Z.eqb_eq in H1; subst q;
      rewrite (E 2) by reflexivity; apply IH; auto; lia|].
    destruct (q =? 2) eqn:H2; [apply Z.eqb_eq in H2; subst q;
      rewrite (E 3) by reflexivity; apply IH; auto; lia|].
    apply Z.eqb_neq in H0, H1, H2. assert (q = 3) by lia. subst q.
    rewrite (E 0) by reflexivity. apply IH; auto; lia.
Qed.


(** ** Encoding then decoding *)

Lemma sextet_ok_all v : 0 <= v < 64 -> sextet_ok v = true.
Proof. apply (forall_below sextet_ok 64). vm_compute. reflexivity. Qed.

Lemma sextet_range v : sextet v = true -> 0 <= v < 64.
Proof. unfold sextet. rewrite andb_true_iff, Z.leb_le, Z.ltb_lt. tauto. Qed.

Lemma under_range n v : under n v = true -> 0 <= v < n.
Proof. unfold under. rewrite andb_true_iff, Z.leb_le, Z.ltb_lt. tauto. Qed.

Lemma a_facts a :
  0 <= a < 256 ->
  0 <= s0 a < 64 /\ 0 <= Z.land a 3 < 4 /\
  to_uchar (Z.lor (Z.shiftl (s0 a) 2) (Z.land a 3)) = a.
Proof.
  intros Ha. pose proof (forall_below check_a 256 eq_refl a Ha) as H.
  unfold check_a in H. rewrite !andb_true_iff, Z.eqb_eq in H.
  destruct H as [[H0 H1] H2].
  apply sextet_range in H0. apply under_range in H1. auto.
Qed.

Lemma b_facts b :
  0 <= b < 256 ->
  0 <= Z.shiftr b 4 < 16 /\ 0 <= Z.land b 15 < 16 /\
  to_uchar (Z.lor (Z.shiftl (Z.shiftr b 4) 4) (Z.land b 15)) = b.
Proof.
  intros Hb. pose proof (forall_below check_b 256 eq_refl b Hb) as H.
  unfold check_b in H. rewrite !andb_true_iff, Z.eqb_eq in H.
  destruct H as [[H0 H1] H2].
  apply under_range in H0, H1. auto.
Qed.

Lemma c_facts c :
  0 <= c < 256 ->
  0 <= Z.shiftr c 6 < 4 /\ 0 <= s3 c < 64 /\
  to_uchar (Z.lor (Z.shiftl (Z.shiftr c 6) 6) (s3 c)) = c.
Proof.
  intros Hc. pose proof (forall_below check_c 256 eq_refl c Hc) as H.
  unfold check_c in H. rewrite !andb_true_iff, Z.eqb_eq in H.
  destruct H as [[H0 H1] H2].
  apply under_range in H0. apply sextet_range in H1. auto.
Qed.

Lemma glue4_facts x y :
  0 <= x < 4 -> 0 <= y < 16 ->
  let s := Z.lor (Z.shiftl x 4) y in
  0 <= s < 64 /\ Z.shiftr s 4 = x /\ Z.land s 15 = y.
Proof.
  intros Hx Hy.
  pose proof (forall_below2 (check_glue 4) 4 16 eq_refl x y Hx Hy) as H.
  unfold check_glue in H. rewrite !andb_true_iff, !Z.eqb_eq in H.
  destruct H as [[H0 H1] H2]. apply sextet_range in H0. cbv zeta. auto.
Qed.

Lemma glue2_facts x y :
  0 <= x < 16 -> 0 <= y < 4 ->
  let s := Z.lor (Z.shiftl x 2) y in
  0 <= s < 64 /\ Z.shiftr s 2 = x /\ Z.land s 3 = y.
Proof.
  intros Hx Hy.
  pose proof (forall_below2 (check_glue 2) 16 4 eq_refl x y Hx Hy) as H.
  unfold check_glue in H. rewrite !andb_true_iff, !Z.eqb_eq in H.
  destruct H as [[H0 H1] H2]. apply sextet_range in H0. cbv zeta. auto.
Qed.

Lemma ab_facts a b :
  0 <= a < 256 -> 0 <= b < 256 ->
  0 <= s0 a < 64 /\ 0 <= s1 a b < 64 /\
  to_uchar (Z.lor (Z.shiftl (s0 a) 2) (Z.shiftr (s1 a b) 4)) = a /\
  Z.land (s1 a b) 15 = Z.shiftr b 4 /\
  to_uchar (Z.lor (Z.shiftl (Z.shiftr b 4) 4) (Z.land b 15)) = b.
Proof.
  intros Ha Hb.
  destruct (a_facts a Ha) as (A0 & A1 & A2).
  destruct (b_facts b Hb) as (B0 & B1 & B2).
  destruct (glue4_facts _ _ A1 B0) as (G0 & G1 & G2).
  unfold s1. rewrite G1, G2. auto.
Qed.

Lemma bc_facts b c :
  0 <= b < 256 -> 0 <= c < 256 ->
  0 <= s2 b c < 64 /\ 0 <= s3 c < 64 /\
  Z.shiftr (s2 b c) 2 = Z.land b 15 /\
  to_uchar (Z.lor (Z.shiftl (Z.land (s2 b c) 3) 6) (s3 c)) = c.
Proof.
  intros Hb Hc.
  destruct (b_facts b Hb) as (B0 & B1 & B2).
  destruct (c_facts c Hc) as (C0 & C1 & C2).
  destruct (glue2_facts _ _ B1 C0) as (G0 & G1 & G2).
  unfold s2. rewrite G1, G2. auto.
Qed.

Lemma a2b_step v rest q l p out :
  0 <= v < 64 ->
  a2b_loop (table_b2a_base64 v :: rest) q l p out =
  if q =? 0 then a2b_loop rest 1 v 0 out
  else if q =? 1 then
    a2b_loop rest 2 (Z.land v 0x0f) 0
      (out ++ [to_uchar (Z.lor (Z.shiftl l 2) (Z.shiftr v 4))])
  else if q =? 2 then
    a2b_loop rest 3 (Z.land v 0x03) 0
      (out ++ [to_uchar (Z.lor (Z.shiftl l 4) (Z.shiftr v 2))])
  else a2b_loop rest 0 0 0 (out ++ [to_uchar (Z.lor (Z.shiftl l 6) v)]).
Proof.
  intros Hv. pose proof (sextet_ok_all v Hv) as H. unfold sextet_ok in H.
  rewrite !andb_true_iff, !negb_true_iff in H.
  destruct H as [[[H1 H2] _] _]. apply Z.eqb_eq in H1.
  cbn [a2b_loop]. rewrite H2, H1.
  replace (64 <=? v) with false by (symmetry; apply Z.leb_gt; lia).
  reflexivity.
Qed.

Lemma a2b_step0 v rest l p out :
  0 <= v < 64 ->
  a2b_loop (table_b2a_base64 v :: rest) 0 l p out = a2b_loop rest 1 v 0 out.
Proof. intros H. now rewrite a2b_step. Qed.

Lemma a2b_step1 v rest l p out :
  0 <= v < 64 ->
  a2b_loop (table_b2a_base64 v :: rest) 1 l p out =
  a2b_loop rest 2 (Z.land v 15) 0
    (out ++ [to_uchar (Z.lor (Z.shiftl l 2) (Z.shiftr v 4))]).
Proof. intros H. now rewrite a2b_step. Qed.

Lemma a2b_step2 v rest l p out :
  0 <= v < 64 ->
  a2b_loop (table_b2a_base64 v :: rest) 2 l p out =
  a2b_loop rest 3 (Z.land v 3) 0
    (out ++ [to_uchar (Z.lor (Z.shiftl l 4) (Z.shiftr v 2))]).
Proof. intros H. now rewrite a2b_step. Qed.

Lemma a2b_step3 v rest l p out :
  0 <= v < 64 ->
  a2b_loop (table_b2a_base64 v :: rest) 3 l p out =
  a2b_loop rest 0 0 0 (out ++ [to_uchar (Z.lor (Z.shiftl l 6) v)]).
Proof. intros H. now rewrite a2b_step. Qed.

Lemma a2b_pad2 l out : a2b_loop [BASE64_PAD; BASE64_PAD] 2 l 0 out = Ok out.
Proof. reflexivity. Qed.

Lemma a2b_pad3 l out : a2b_loop [BASE64_PAD] 3 l 0 out = Ok out.
Proof. reflexivity. Qed.

Lemma a2b_encoded : forall n data out,
  (length data <= n)%nat ->
  forallb is_byte data = true ->
  a2b_loop (b64encode data) 0 0 0 out = Ok (out ++ data).
Proof.
  induction n as [|n IH]; intros data out Hn Hb.
  - destruct data; [|cbn in Hn; lia]. cbn. now rewrite app_nil_r.
  - destruct data as [|a [|b [|c rest]]].
    + cbn. now rewrite app_nil_r.
    + cbn [forallb] in Hb. apply andb_true_iff in Hb. destruct Hb as [Ha _].
      apply is_byte_range in Ha.
      destruct (ab_facts a 0 Ha ltac:(lia)) as (A0 & A1 & A2 & _ & _).
      cbn [b64encode].
      change (Z.shiftr a 2) with (s0 a).
      replace (Z.shiftl (Z.land a 3) 4) with (s1 a 0)
        by (unfold s1; now rewrite Z.shiftr_0_l, Z.lor_0_r).
      rewrite a2b_step0 by exact A0.
      rewrite a2b_step1 by exact A1.
      rewrite a2b_pad2, A2. reflexivity.
    + cbn [forallb] in Hb. apply andb_true_iff in Hb. destruct Hb as [Ha Hb].
      apply andb_true_iff in Hb. destruct Hb as [Hb _].
      apply is_byte_range in Ha, Hb.
      destruct (ab_facts a b Ha Hb) as (A0 & A1 & A2 & A3 & A4).
      destruct (bc_facts b 0 Hb ltac:(lia)) as (B0 & _ & B2 & _).
      cbn [b64encode].
      change (Z.shiftr a 2) with (s0 a).
      change (Z.lor (Z.shiftl (Z.land a 3) 4) (Z.shiftr b 4)) with (s1 a b).
      replace (Z.shiftl (Z.land b 15) 2) with (s2 b 0)
        by (unfold s2; now rewrite Z.shiftr_0_l, Z.lor_0_r).
      rewrite a2b_step0 by exact A0.
      rewrite a2b_step1 by exact A1.
      rewrite a2b_step2 by exact B0.
      rewrite a2b_pad3, A2, A3, B2, A4.
      now rewrite <- app_assoc.
    + cbn [forallb] in Hb. apply andb_true_iff in Hb. destruct Hb as [Ha Hb].
      apply andb_true_iff in Hb. destruct Hb as [Hb Hc].
      apply andb_true_iff in Hc. destruct Hc as [Hc Hr].
      apply is_byte_range in Ha, Hb, Hc.
      destruct (ab_facts a b Ha Hb) as (A0 & A1 & A2 & A3 & A4).
      destruct (bc_facts b c Hb Hc) as (B0 & B1 & B2 & B3).
      cbn [b64encode app].
      change (Z.shiftr a 2) with (s0 a).
      change (Z.lor (Z.shiftl (Z.land a 3) 4) (Z.shiftr b 4)) with (s1 a b).
      change (Z.lor (Z.shiftl (Z.land b 15) 2) (Z.shiftr c 6)) with (s2 b c).
      change (Z.land c 63) with (s3 c).
      rewrite a2b_step0 by exact A0.
      rewrite a2b_step1 by exact A1.
      rewrite a2b_step2 by exact B0.
      rewrite a2b_step3 by exact B1.
      rewrite A2, A3, B2, A4, B3.
      rewrite IH; [|cbn in Hn; lia|exact Hr].
      now rewrite <- !app_assoc.
Qed.

Lemma plain_sextet v : 0 <= v < 64 -> plain (table_b2a_base64 v) = true.
Proof.
  intros Hv. pose proof (sextet_ok_all v Hv) as H. unfold sextet_ok in H.
  rewrite !andb_true_iff in H. unfold plain. destruct H as [[_ H1] H2].
  now rewrite H1, H2.
Qed.

(** The encoder writes ASCII characters, none of them a double quote. *)
Lemma b64encode_plain : forall n data,
  (length data <= n)%nat ->
  forallb is_byte data = true ->
  forallb plain (b64encode data) = true.
Proof.
  induction n as [|n IH]; intros data Hn Hb.
  - destruct data; [reflexivity|cbn in Hn; lia].
  - destruct data as [|a [|b [|c rest]]].
    + reflexivity.
    + cbn [forallb] in Hb. apply andb_true_iff in Hb. destruct Hb as [Ha _].
      apply is_byte_range in Ha.
      destruct (ab_facts a 0 Ha ltac:(lia)) as (A0 & A1 & _).
      cbn [b64encode forallb].
      change (Z.shiftr a 2) with (s0 a).
      replace (Z.shiftl (Z.land a 3) 4) with (s1 a 0)
        by (unfold s1; now rewrite Z.shiftr_0_l, Z.lor_0_r).
      now rewrite !plain_sextet by assumption.
    + cbn [forallb] in Hb. apply andb_true_iff in Hb. destruct Hb as [Ha Hb].
      apply andb_true_iff in Hb. destruct Hb as [Hb _].
      apply is_byte_range in Ha, Hb.
      destruct (ab_facts a b Ha Hb) as (A0 & A1 & _).
      destruct (bc_facts b 0 Hb ltac:(lia)) as (B0 & _).
      cbn [b64encode forallb].
      change (Z.shiftr a 2) with (s0 a).
      change (Z.lor (Z.shiftl (Z.land a 3) 4) (Z.shiftr b 4)) with (s1 a b).
      replace (Z.shiftl (Z.land b 15) 2) with (s2 b 0)
        by (unfold s2; now rewrite Z.shiftr_0_l, Z.lor_0_r).
      now rewrite !plain_sextet by assumption.
    + cbn [forallb] in Hb. apply andb_true_iff in Hb. destruct Hb as [Ha Hb].
      apply andb_true_iff in Hb. destruct Hb as [Hb Hc].
      apply andb_true_iff in Hc. destruct Hc as [Hc Hr].
      apply is_byte_range in Ha, Hb, Hc.
      destruct (ab_facts a b Ha Hb) as (A0 & A1 & _).
      destruct (bc_facts b c Hb Hc) as (B0 & B1 & _).
      cbn [b64encode app forallb].
      change (Z.shiftr a 2) with (s0 a).
      change (Z.lor (Z.shiftl (Z.land a 3) 4) (Z.shiftr b 4)) with (s1 a b).
      change (Z.lor (Z.shiftl (Z.land b 15) 2) (Z.shiftr c 6)) with (s2 b c).
      change (Z.land c 63) with (s3 c).
      rewrite !plain_sextet by assumption. cbn [andb].
      apply IH; [cbn in Hn; lia|exact Hr].
Qed.

Lemma forallb_impl {A} (P Q : A -> bool) l :
  (forall x, P x = true -> Q x = true) ->
  forallb P l = true -> forallb Q l = true.
Proof.
  intros H. rewrite !forallb_forall. auto.
Qed.

(** [b64decode] undoes [b64encode]. *)
Lemma b64decode_b64encode data :
  forallb is_byte data = true ->
  b64decode (b64encode data) = Ok data.
Proof.
  intros Hb. unfold b64decode, bytes_from_decode_data.
  pose proof (b64encode_plain (length data) data (le_n _) Hb) as Hp.
  rewrite (forallb_impl plain is_ascii).
  - cbn [bind]. unfold a2b_base64.
    now rewrite (a2b_encoded (length data) data [] (le_n _) Hb).
  - unfold plain. intros x H. now apply andb_true_iff in H.
  - exact Hp.
Qed.

End Base64Facts.

Module CodecFacts.
Import Codec Brute.

Lemma utf8_decode_exn : forall n b e,
  (length b <= n)%nat ->
  utf8_decode b = Raise e -> e = UnicodeDecodeError.
Proof.
  induction n as [|n IH]; intros b e Hn.
  - destruct b; [discriminate|cbn in Hn; lia].
  - destruct b as [|ch r1]; [discriminate|]. cbn [utf8_decode].
    cbn [length] in Hn.
    assert (K : forall r (f : pystr -> pystr), (length r <= n)%nat ->
              (t <- utf8_decode r ;; Ok (f t)) = Raise e ->
              e = UnicodeDecodeError).
    { intros r f Hr H. destruct (utf8_decode r) eqn:E; [discriminate|].
      cbn in H. injection H as <-. now apply (IH r). }
    destruct (is_ascii ch).
    { apply (K r1 (fun t => ch :: t)). lia. }
    destruct ((ch <? 194) || (245 <=? ch)); [now intros [= <-]|].
    destruct (ch <? 224).
    { destruct r1 as [|ch2 r2]; [now intros [= <-]|].
      destruct (is_continuation ch2); [|now intros [= <-]].
      apply (K r2 (fun t => _ :: t)). cbn in Hn. lia. }
    destruct (ch <? 240).
    { destruct r1 as [|ch2 [|ch3 r3]]; try (now intros [= <-]).
      destruct (_ || _); [now intros [= <-]|].
      apply (K r3 (fun t => _ :: t)). cbn in Hn. lia. }
    destruct r1 as [|ch2 [|ch3 [|ch4 r4]]]; try (now intros [= <-]).
    destruct (_ || _); [now intros [= <-]|].
    apply (K r4 (fun t => _ :: t)). cbn in Hn. lia.
Qed.

Lemma latin1_decode_bytes b :
  forallb is_byte b = true -> latin1_decode b = Ok b.
Proof. intros H. unfold latin1_decode. now rewrite H. Qed.


Lemma utf8_decode_unfold b :
  utf8_decode b =
  match b with
  | [] => Ok []
  | _ :: _ =>
      match decode_head b with
      | Some (c, r) => (t <- utf8_decode r ;; Ok (c :: t))
      | None => Raise UnicodeDecodeError
      end
  end.
Proof.
  destruct b as [|ch r1]; [reflexivity|]. cbn [utf8_decode decode_head].
  destruct (is_ascii ch); [reflexivity|].
  destruct ((ch <? 194) || (245 <=? ch)); [reflexivity|].
  destruct (ch <? 224).
  { destruct r1 as [|ch2 r2]; [reflexivity|].
    now destruct (is_continuation ch2). }
  destruct (ch <? 240).
  { destruct r1 as [|ch2 [|ch3 r3]]; try reflexivity.
    now destruct (_ || _). }
  destruct r1 as [|ch2 [|ch3 [|ch4 r4]]]; try reflexivity.
  now destruct (_ || _).
Qed.

Lemma decode_head_app x c r rest :
  decode_head x = Some (c, r) -> decode_head (x ++ rest) = Some (c, r ++ rest).
Proof.
  destruct x as [|ch r1]; [discriminate|]. cbn [decode_head app].
  destruct (is_ascii ch); [now intros [= <- <-]|].
  destruct ((ch <? 194) || (245 <=? ch)); [discriminate|].
  destruct (ch <? 224).
  { destruct r1 as [|ch2 r2]; [discriminate|]. cbn [app].
    destruct (is_continuation ch2); [now intros [= <- <-]|discriminate]. }
  destruct (ch <? 240).
  { destruct r1 as [|ch2 [|ch3 r3]]; try discriminate. cbn [app].
    destruct (_ || _); [discriminate|now intros [= <- <-]]. }
  destruct r1 as [|ch2 [|ch3 [|ch4 r4]]]; try discriminate. cbn [app].
  destruct (_ || _); [discriminate|now intros [= <- <-]].
Qed.

Ltac dlia := Z.div_mod_to_equations; lia.

Lemma lor_small K n x :
  forallb (fun x => Z.lor K x =? K + x) (map Z.of_nat (seq 0 n)) = true ->
  0 <= x < Z.of_nat n -> Z.lor K x = K + x.
Proof.
  intros H Hx. apply Z.eqb_eq.
  exact (forall_below (fun x => Z.lor K x =? K + x) n H x Hx).
Qed.

Lemma lor_192 x : 0 <= x < 32 -> Z.lor 192 x = 192 + x.
Proof. apply (lor_small 192 32). reflexivity. Qed.
Lemma lor_128 x : 0 <= x < 64 -> Z.lor 128 x = 128 + x.
Proof. apply (lor_small 128 64). reflexivity. Qed.
Lemma lor_224 x : 0 <= x < 16 -> Z.lor 224 x = 224 + x.
Proof. apply (lor_small 224 16). reflexivity. Qed.
Lemma lor_240 x : 0 <= x < 8 -> Z.lor 240 x = 240 + x.
Proof. apply (lor_small 240 8). reflexivity. Qed.

Lemma land_mod x k : 0 <= k -> Z.land x (Z.ones k) = x mod 2 ^ k.
Proof. intros. now apply Z.land_ones. Qed.

(** Bit operations of the codec as arithmetic. *)
Ltac to_arith :=
  unfold cont;
  change 0x3f with (Z.ones 6); change 0x1f with (Z.ones 5);
  change 0x0f with (Z.ones 4); change 0x07 with (Z.ones 3);
  rewrite ?land_mod by lia;
  rewrite ?Z.shiftr_div_pow2, ?Z.shiftl_mul_pow2 by lia;
  change (2 ^ 3) with 8; change (2 ^ 4) with 16; change (2 ^ 5) with 32;
  change (2 ^ 6) with 64; change (2 ^ 12) with 4096;
  change (2 ^ 18) with 262144.

Ltac decide_tests :=
  unfold is_ascii, is_continuation;
  repeat match goal with
    | |- context [?a <? ?b] =>
        destruct (Z.ltb_spec a b); try (exfalso; dlia)
    | |- context [?a <=? ?b] =>
        destruct (Z.leb_spec a b); try (exfalso; dlia)
    | |- context [?a =? ?b] =>
        destruct (Z.eqb_spec a b); try (exfalso; dlia)
    end;
  cbn [andb orb negb].

Lemma head2 x y :
  2 <= x < 32 -> 0 <= y < 64 ->
  decode_head [192 + x; 128 + y] = Some (x * 64 + y, []).
Proof.
  intros Hx Hy. cbn [decode_head]. to_arith. decide_tests.
  do 2 f_equal. dlia.
Qed.

Lemma head3 x y z :
  0 <= x < 16 -> 0 <= y < 64 -> 0 <= z < 64 ->
  (x = 0 -> 32 <= y) -> (x = 13 -> y < 32) ->
  decode_head [224 + x; 128 + y; 128 + z] = Some (x * 4096 + y * 64 + z, []).
Proof.
  intros Hx Hy Hz H0 H13. cbn [decode_head]. to_arith. decide_tests.
  all: do 2 f_equal; dlia.
Qed.

Lemma head4 w x y z :
  0 <= w < 5 -> 0 <= x < 64 -> 0 <= y < 64 -> 0 <= z < 64 ->
  (w = 0 -> 16 <= x) -> (w = 4 -> x < 16) ->
  decode_head [240 + w; 128 + x; 128 + y; 128 + z] =
  Some (w * 262144 + x * 4096 + y * 64 + z, []).
Proof.
  intros Hw Hx Hy Hz H0 H4. cbn [decode_head]. to_arith. decide_tests.
  all: do 2 f_equal; dlia.
Qed.

Lemma decode_head_encode c :
  is_scalar c = true -> decode_head (utf8_encode_char c) = Some (c, []).
Proof.
  unfold is_scalar.
  rewrite orb_true_iff, !andb_true_iff, !Z.leb_le, !Z.ltb_lt. intros Hc.
  unfold utf8_encode_char.
  destruct (Z.ltb_spec c 128).
  { cbn [decode_head]. unfold is_ascii.
    now replace ((0 <=? c) && (c <? 128)) with true
      by (symmetry; apply andb_true_iff; rewrite Z.leb_le, Z.ltb_lt; lia). }
  destruct (Z.ltb_spec c 2048).
  { to_arith. rewrite lor_192, lor_128 by dlia.
    rewrite head2 by dlia. do 2 f_equal. dlia. }
  destruct (Z.ltb_spec c 65536).
  { to_arith. rewrite lor_224, !lor_128 by dlia.
    rewrite head3 by dlia. do 2 f_equal. dlia. }
  to_arith. rewrite lor_240, !lor_128 by dlia.
  rewrite head4 by dlia. do 2 f_equal. dlia.
Qed.

Lemma utf8_encode_char_bytes c :
  is_scalar c = true -> forallb is_byte (utf8_encode_char c) = true.
Proof.
  unfold is_scalar.
  rewrite orb_true_iff, !andb_true_iff, !Z.leb_le, !Z.ltb_lt. intros Hc.
  unfold utf8_encode_char.
  destruct (Z.ltb_spec c 128).
  { cbn [forallb]. now rewrite (proj2 (is_byte_range c)) by lia. }
  destruct (Z.ltb_spec c 2048).
  { to_arith. rewrite lor_192, lor_128 by dlia. cbn [forallb].
    now rewrite !(proj2 (is_byte_range _)) by dlia. }
  destruct (Z.ltb_spec c 65536).
  { to_arith. rewrite lor_224, !lor_128 by dlia. cbn [forallb].
    now rewrite !(proj2 (is_byte_range _)) by dlia. }
  to_arith. rewrite lor_240, !lor_128 by dlia. cbn [forallb].
  now rewrite !(proj2 (is_byte_range _)) by dlia.
Qed.

Lemma utf8_encode_bytes : forall s,
  forallb is_scalar s = true -> forallb is_byte (utf8_encode s) = true.
Proof.
  induction s as [|c s IH]; intros Hs; [reflexivity|].
  cbn [forallb] in Hs. apply andb_true_iff in Hs. destruct Hs as [Hc Hs].
  unfold utf8_encode. cbn [flat_map]. fold (utf8_encode s).
  now rewrite forallb_app, utf8_encode_char_bytes, IH.
Qed.

Lemma utf8_encode_char_nonempty c : utf8_encode_char c <> [].
Proof.
  unfold utf8_encode_char.
  destruct (c <? 128); [discriminate|].
  destruct (c <? 2048); [discriminate|].
  destruct (c <? 65536); discriminate.
Qed.

(** [utf8_decode] undoes [utf8_encode] on a text of scalar values. *)
Lemma utf8_decode_utf8_encode : forall s,
  forallb is_scalar s = true -> utf8_decode (utf8_encode s) = Ok s.
Proof.
  induction s as [|c s IH]; intros Hs; [reflexivity|].
  cbn [forallb] in Hs. apply andb_true_iff in Hs. destruct Hs as [Hc Hs].
  unfold utf8_encode. cbn [flat_map]. fold (utf8_encode s).
  rewrite utf8_decode_unfold.
  rewrite (decode_head_app _ _ _ (utf8_encode s) (decode_head_encode c Hc)).
  cbn [app].
  rewrite (IH Hs). cbn [bind].
  destruct (utf8_encode_char c ++ utf8_encode s) eqn:E2; [|reflexivity].
  apply app_eq_nil in E2. destruct E2 as [E2 _].
  now apply utf8_encode_char_nonempty in E2.
Qed.

End CodecFacts.

Module ZlibFacts.
Import Zlib Brute.

Lemma bits_range : forall n s v r,
  bits n s = Some (v, r) -> 0 <= v < 2 ^ Z.of_nat n.
Proof.
  induction n as [|n IH]; intros s v r; cbn [bits].
  - intros [= <- <-]. cbn. lia.
  - destruct s as [|b s]; [discriminate|].
    destruct (bits n s) as [[v' r']|] eqn:E; [|discriminate].
    intros H. assert (Hv : Z.b2z b + 2 * v' = v) by congruence. subst v.
    specialize (IH _ _ _ E).
    rewrite Nat2Z.inj_succ, Z.pow_succ_r by lia.
    destruct b; cbn [Z.b2z]; lia.
Qed.

Lemma bits_length : forall n s v r,
  bits n s = Some (v, r) -> (length r + n = length s)%nat.
Proof.
  induction n as [|n IH]; intros s v r; cbn [bits].
  - intros [= <- <-]. lia.
  - destruct s as [|b s]; [discriminate|].
    destruct (bits n s) as [[v' r']|] eqn:E; [|discriminate].
    intros [= <- <-]. specialize (IH _ _ _ E). cbn [length]. lia.
Qed.

Lemma nthZ_nonneg l i : nonneg l -> 0 <= nthZ l i.
Proof.
  intros H. unfold nthZ.
  destruct (nth_in_or_default (Z.to_nat i) l 0) as [Hin | ->]; [|lia].
  unfold nonneg in H. rewrite Forall_forall in H. now apply H.
Qed.

Lemma nthZ_byte l i : forallb is_byte l = true -> is_byte (nthZ l i) = true.
Proof.
  intros H. unfold nthZ.
  destruct (nth_in_or_default (Z.to_nat i) l 0) as [Hin | ->]; [|reflexivity].
  rewrite forallb_forall in H. now apply H.
Qed.

Lemma symbols_of_nonneg : forall ls len sym,
  0 <= sym -> nonneg (symbols_of ls len sym).
Proof.
  induction ls as [|l ls IH]; intros len sym Hs; cbn [symbols_of].
  - constructor.
  - destruct (l =? len); [constructor; [exact Hs|]|]; apply IH; lia.
Qed.

Lemma construct_nonneg lengths : nonneg (symbol (fst (construct lengths))).
Proof.
  unfold construct.
  destruct (count_of lengths 0 =? Z.of_nat (length lengths)); cbn [fst symbol];
    unfold nonneg; rewrite Forall_forall; intros x Hx;
    apply in_flat_map in Hx; destruct Hx as (len & _ & Hx);
    pose proof (symbols_of_nonneg lengths len 0 ltac:(lia)) as H;
    unfold nonneg in H; rewrite Forall_forall in H; now apply H.
Qed.

Lemma decode_loop_nonneg symbols : forall counts code first index s v r,
  nonneg symbols ->
  decode_loop counts symbols code first index s = Some (v, r) -> 0 <= v.
Proof.
  induction counts as [|cnt counts IH]; intros code first index s v r Hs;
    cbn [decode_loop]; [discriminate|].
  destruct s as [|b s]; [discriminate|].
  destruct (_ <? first).
  - intros [= <- <-]. now apply nthZ_nonneg.
  - now apply IH.
Qed.

Lemma decode_loop_length symbols : forall counts code first index s v r,
  decode_loop counts symbols code first index s = Some (v, r) ->
  (length r < length s)%nat.
Proof.
  induction counts as [|cnt counts IH]; intros code first index s v r;
    cbn [decode_loop]; [discriminate|].
  destruct s as [|b s]; [discriminate|].
  destruct (_ <? first).
  - intros [= <- <-]. cbn. lia.
  - intros H. apply IH in H. cbn [length]. lia.
Qed.

Lemma copy_bytes : forall len dist out,
  forallb is_byte out = true -> forallb is_byte (copy len dist out) = true.
Proof.
  induction len as [|len IH]; intros dist out H; cbn [copy]; [exact H|].
  apply IH. cbn [forallb]. now rewrite nthZ_byte, H.
Qed.

Lemma codes_bytes lencode distcode : forall fuel s out s' out',
  nonneg (symbol lencode) ->
  forallb is_byte out = true ->
  codes fuel lencode distcode s out = Some (s', out') ->
  forallb is_byte out' = true.
Proof.
  induction fuel as [|fuel IH]; intros s out s' out' Hl Ho; cbn [codes];
    [discriminate|].
  destruct (decode lencode s) as [[sym s1]|] eqn:E; [|discriminate].
  pose proof (decode_loop_nonneg _ _ _ _ _ _ _ _ Hl E) as Hsym.
  destruct (Z.ltb_spec sym 256).
  { apply IH; [exact Hl|]. cbn [forallb]. rewrite Ho.
    replace (is_byte sym) with true; [reflexivity|].
    symmetry. apply is_byte_range. lia. }
  destruct (sym =? 256); [now intros [= <- <-]|].
  destruct (29 <=? sym - 257); [discriminate|].
  destruct (bits _ s1) as [[eb s2]|]; [|discriminate].
  destruct (decode distcode s2) as [[dsym s3]|]; [|discriminate].
  destruct (bits _ s3) as [[db s4]|]; [|discriminate].
  destruct (_ <? _); [discriminate|].
  apply IH; [exact Hl|]. now apply copy_bytes.
Qed.

Lemma take_bytes_bytes : forall n s out s' out',
  forallb is_byte out = true ->
  take_bytes n s out = Some (s', out') -> forallb is_byte out' = true.
Proof.
  induction n as [|n IH]; intros s out s' out' Ho; cbn [take_bytes].
  - now intros [= <- <-].
  - destruct (bits 8 s) as [[b s1]|] eqn:E; [|discriminate].
    apply IH. cbn [forallb]. rewrite Ho.
    apply bits_range in E. change (2 ^ Z.of_nat 8) with 256 in E.
    replace (is_byte b) with true; [reflexivity|].
    symmetry. now apply is_byte_range.
Qed.

Lemma stored_bytes s out s' out' :
  forallb is_byte out = true ->
  stored s out = Some (s', out') -> forallb is_byte out' = true.
Proof.
  intros Ho. unfold stored.
  destruct (bits 16 (align s)) as [[len s1]|]; [|discriminate].
  destruct (bits 16 s1) as [[nlen s2]|]; [|discriminate].
  destruct (nlen =? _); [|discriminate].
  now apply take_bytes_bytes.
Qed.

Lemma dynamic_bytes s out s' out' :
  forallb is_byte out = true ->
  dynamic s out = Some (s', out') -> forallb is_byte out' = true.
Proof.
  intros Ho. unfold dynamic.
  destruct (bits 5 s) as [[a s1]|]; [|discriminate].
  destruct (bits 5 s1) as [[b s2]|]; [|discriminate].
  destruct (bits 4 s2) as [[c s3]|]; [|discriminate].
  destruct (_ || _); [discriminate|].
  destruct (read_ncode _ s3 []) as [[vals s4]|]; [|discriminate].
  destruct (construct (permute_order vals)) as [clcode err].
  destruct (negb (err =? 0)); [discriminate|].
  destruct (read_lengths _ clcode _ s4 []) as [[lengths s5]|]; [|discriminate].
  destruct (nthZ lengths 256 =? 0); [discriminate|].
  pose proof (construct_nonneg (firstn (Z.to_nat (a + 257)) lengths)) as Hn.
  destruct (construct (firstn (Z.to_nat (a + 257)) lengths)) as [lencode lerr].
  destruct (construct (skipn (Z.to_nat (a + 257)) lengths)) as [distcode derr].
  destruct (_ && _); [discriminate|].
  destruct (_ && _); [discriminate|].
  now apply codes_bytes.
Qed.

Lemma blocks_bytes : forall fuel s out s' out',
  forallb is_byte out = true ->
  blocks fuel s out = Some (s', out') -> forallb is_byte out' = true.
Proof.
  induction fuel as [|fuel IH]; intros s out s' out' Ho; cbn [blocks];
    [discriminate|].
  destruct (bits 1 s) as [[last s1]|]; [|discriminate].
  destruct (bits 2 s1) as [[type s2]|]; [|discriminate].
  match goal with
  | |- match ?r with _ => _ end = _ -> _ => destruct r as [[s3 out1]|] eqn:E
  end; [|discriminate].
  assert (H1 : forallb is_byte out1 = true).
  { destruct (type =? 0); [now apply (stored_bytes _ _ _ _ Ho E)|].
    destruct (type =? 1).
    - apply (codes_bytes _ _ _ _ _ _ _ (construct_nonneg _) Ho E).
    - destruct (type =? 2); [now apply (dynamic_bytes _ _ _ _ Ho E)|discriminate]. }
  destruct (last =? 1); [now intros [= <- <-]|now apply IH].
Qed.

(** ** Fuel

    The loops of the decoder take fuel; above the bound given where they
    are called the result does not depend on it, so no run is cut short. *)

Lemma decode_length h s v r :
  decode h s = Some (v, r) -> (length r < length s)%nat.
Proof. apply decode_loop_length. Qed.

Lemma codes_fuel lencode distcode : forall f1 f2 s out,
  (length s < f1)%nat -> (length s < f2)%nat ->
  codes f1 lencode distcode s out = codes f2 lencode distcode s out.
Proof.
  induction f1 as [|f1 IH]; intros f2 s out H1 H2; [lia|].
  destruct f2 as [|f2]; [lia|]. cbn [codes].
  destruct (decode lencode s) as [[sym s1]|] eqn:E; [|reflexivity].
  apply decode_length in E.
  destruct (sym <? 256); [apply IH; lia|].
  destruct (sym =? 256); [reflexivity|].
  destruct (29 <=? sym - 257); [reflexivity|].
  destruct (bits _ s1) as [[eb s2]|] eqn:B1; [|reflexivity].
  apply bits_length in B1.
  destruct (decode distcode s2) as [[dsym s3]|] eqn:D; [|reflexivity].
  apply decode_length in D.
  destruct (bits _ s3) as [[db s4]|] eqn:B2; [|reflexivity].
  apply bits_length in B2.
  destruct (_ <? _); [reflexivity|]. apply IH; lia.
Qed.

Lemma codes_length lencode distcode : forall fuel s out s' out',
  codes fuel lencode distcode s out = Some (s', out') ->
  (length s' <= length s)%nat.
Proof.
  induction fuel as [|fuel IH]; intros s out s' out'; cbn [codes];
    [discriminate|].
  destruct (decode lencode s) as [[sym s1]|] eqn:E; [|discriminate].
  apply decode_length in E.
  destruct (sym <? 256); [intros H; apply IH in H; lia|].
  destruct (sym =? 256); [intros [= <- <-]; lia|].
  destruct (29 <=? sym - 257); [discriminate|].
  destruct (bits _ s1) as [[eb s2]|] eqn:B1; [|discriminate].
  apply bits_length in B1.
  destruct (decode distcode s2) as [[dsym s3]|] eqn:D; [|discriminate].
  apply decode_length in D.
  destruct (bits _ s3) as [[db s4]|] eqn:B2; [|discriminate].
  apply bits_length in B2.
  destruct (_ <? _); [discriminate|]. intros H. apply IH in H. lia.
Qed.

Lemma read_lengths_fuel lencode total : forall f1 f2 s acc,
  (Z.to_nat (total - Z.of_nat (length acc)) <= f1)%nat ->
  (Z.to_nat (total - Z.of_nat (length acc)) <= f2)%nat ->
  read_lengths f1 lencode total s acc = read_lengths f2 lencode total s acc.
Proof.
  induction f1 as [|f1 IH]; intros f2 s acc H1 H2.
  - destruct f2; cbn [read_lengths];
      destruct (Z.leb_spec total (Z.of_nat (length acc))); try reflexivity; lia.
  - destruct f2 as [|f2]; cbn [read_lengths];
      destruct (Z.leb_spec total (Z.of_nat (length acc))); try reflexivity;
      [lia|].
    destruct (decode lencode s) as [[sym s1]|]; [|reflexivity].
    destruct (sym <? 16).
    { apply IH; cbn [length]; lia. }
    match goal with
    | |- match ?r with _ => _ end = _ => destruct r as [[[len n] s2]|] eqn:R
    end; [|reflexivity].
    destruct (Z.ltb_spec total (Z.of_nat (length acc) + n)); [reflexivity|].
    assert (Hn : 3 <= n).
    { destruct (sym =? 16).
      - destruct acc as [|last acc']; [discriminate|].
        destruct (bits 2 s1) as [[v s2']|] eqn:B; [|discriminate].
        apply bits_range in B.
        assert (En : n = 3 + v) by congruence. lia.
      - destruct (sym =? 17).
        + destruct (bits 3 s1) as [[v s2']|] eqn:B; [|discriminate].
          apply bits_range in B.
          assert (En : n = 3 + v) by congruence. lia.
        + destruct (bits 7 s1) as [[v s2']|] eqn:B; [|discriminate].
          apply bits_range in B.
          assert (En : n = 11 + v) by congruence. lia. }
    apply IH; rewrite length_app, repeat_length; lia.
Qed.

Lemma take_bytes_length : forall n s out s' out',
  take_bytes n s out = Some (s', out') -> (length s' <= length s)%nat.
Proof.
  induction n as [|n IH]; intros s out s' out'; cbn [take_bytes].
  - intros [= <- <-]. lia.
  - destruct (bits 8 s) as [[b s1]|] eqn:E; [|discriminate].
    apply bits_length in E. intros H. apply IH in H. lia.
Qed.

Lemma align_length s : (length (align s) <= length s)%nat.
Proof. unfold align. rewrite length_skipn. lia. Qed.

Lemma stored_length s out s' out' :
  stored s out = Some (s', out') -> (length s' <= length s)%nat.
Proof.
  unfold stored. pose proof (align_length s).
  destruct (bits 16 (align s)) as [[len s1]|] eqn:B1; [|discriminate].
  apply bits_length in B1.
  destruct (bits 16 s1) as [[nlen s2]|] eqn:B2; [|discriminate].
  apply bits_length in B2.
  destruct (nlen =? _); [|discriminate].
  intros H0. apply take_bytes_length in H0. lia.
Qed.

Lemma read_ncode_length : forall n s acc vals s',
  read_ncode n s acc = Some (vals, s') -> (length s' <= length s)%nat.
Proof.
  induction n as [|n IH]; intros s acc vals s'; cbn [read_ncode].
  - intros [= <- <-]. lia.
  - destruct (bits 3 s) as [[v s1]|] eqn:E; [|discriminate].
    apply bits_length in E. intros H. apply IH in H. lia.
Qed.

Lemma read_lengths_length lencode total : forall fuel s acc l s',
  read_lengths fuel lencode total s acc = Some (l, s') ->
  (length s' <= length s)%nat.
Proof.
  induction fuel as [|fuel IH]; intros s acc l s'; cbn [read_lengths];
    destruct (total <=? Z.of_nat (length acc)); try discriminate;
    try (intros [= <- <-]; lia).
  destruct (decode lencode s) as [[sym s1]|] eqn:E; [|discriminate].
  apply decode_length in E.
  destruct (sym <? 16); [intros H; apply IH in H; lia|].
  match goal with
  | |- match ?r with _ => _ end = _ -> _ => destruct r as [[[len n] s2]|] eqn:R
  end; [|discriminate].
  assert (Hs : (length s2 <= length s1)%nat).
  { destruct (sym =? 16).
    - destruct acc as [|last acc']; [discriminate|].
      destruct (bits 2 s1) as [[v s2']|] eqn:B; [|discriminate].
      apply bits_length in B.
      assert (Es : s2 = s2') by congruence. subst s2. lia.
    - destruct (sym =? 17).
      + destruct (bits 3 s1) as [[v s2']|] eqn:B; [|discriminate].
        apply bits_length in B.
        assert (Es : s2 = s2') by congruence. subst s2. lia.
      + destruct (bits 7 s1) as [[v s2']|] eqn:B; [|discriminate].
        apply bits_length in B.
        assert (Es : s2 = s2') by congruence. subst s2. lia. }
  destruct (_ <? _); [discriminate|]. intros H. apply IH in H. lia.
Qed.

Lemma dynamic_length s out s' out' :
  dynamic s out = Some (s', out') -> (length s' <= length s)%nat.
Proof.
  unfold dynamic.
  destruct (bits 5 s) as [[a s1]|] eqn:B1; [|discriminate].
  apply bits_length in B1.
  destruct (bits 5 s1) as [[b s2]|] eqn:B2; [|discriminate].
  apply bits_length in B2.
  destruct (bits 4 s2) as [[c s3]|] eqn:B3; [|discriminate].
  apply bits_length in B3.
  destruct (_ || _); [discriminate|].
  destruct (read_ncode _ s3 []) as [[vals s4]|] eqn:R1; [|discriminate].
  apply read_ncode_length in R1.
  destruct (construct (permute_order vals)) as [clcode err].
  destruct (negb (err =? 0)); [discriminate|].
  destruct (read_lengths _ clcode _ s4 []) as [[lengths s5]|] eqn:R2;
    [|discriminate].
  apply read_lengths_length in R2.
  destruct (nthZ lengths 256 =? 0); [discriminate|].
  destruct (construct (firstn _ lengths)) as [lencode lerr].
  destruct (construct (skipn _ lengths)) as [distcode derr].
  destruct (_ && _); [discriminate|].
  destruct (_ && _); [discriminate|].
  intros H. apply codes_length in H. lia.
Qed.

Lemma blocks_fuel : forall f1 f2 s out,
  (length s < f1)%nat -> (length s < f2)%nat ->
  blocks f1 s out = blocks f2 s out.
Proof.
  induction f1 as [|f1 IH]; intros f2 s out H1 H2; [lia|].
  destruct f2 as [|f2]; [lia|]. cbn [blocks].
  destruct (bits 1 s) as [[last s1]|] eqn:B1; [|reflexivity].
  apply bits_length in B1.
  destruct (bits 2 s1) as [[type s2]|] eqn:B2; [|reflexivity].
  apply bits_length in B2.
  match goal with
  | |- match ?r with _ => _ end = _ => destruct r as [[s3 out1]|] eqn:E
  end; [|reflexivity].
  assert (Hs : (length s3 <= length s2)%nat).
  { destruct (type =? 0); [now apply stored_length in E|].
    destruct (type =? 1); [now apply codes_length in E|].
    destruct (type =? 2); [now apply dynamic_length in E|discriminate]. }
  destruct (last =? 1); [reflexivity|]. apply IH; lia.
Qed.

(** More fuel than [inflate] gives changes nothing. *)
Lemma inflate_fuel fuel s :
  (length s < fuel)%nat -> blocks fuel s [] = blocks (S (length s)) s [].
Proof. intros H. apply blocks_fuel; lia. Qed.

(** [zlib.decompress] returns bytes. *)
Lemma decompress_bytes data out :
  decompress data = Ok out -> forallb is_byte out = true.
Proof.
  unfold decompress. destruct (decompress_opt data) as [o|] eqn:E; [|discriminate].
  intros [= <-]. unfold decompress_opt in E.
  destruct data as [|cmf [|flg body]]; try discriminate.
  destruct (header_ok cmf flg); [|discriminate].
  unfold inflate in E.
  destruct (blocks _ _ []) as [[s' out']|] eqn:B; [|discriminate].
  apply blocks_bytes in B; [|reflexivity].
  destruct (take_bytes 4 (align s') []) as [[? [|? [|? [|? [|? [|? ?]]]]]]|];
    try discriminate.
  destruct (_ =? _); [|discriminate].
  injection E as <-.
  rewrite forallb_forall in *. intros x Hx. apply B. now apply in_rev.
Qed.

Lemma decompress_exn data e : decompress data = Raise e -> e = ZlibError.
Proof.
  unfold decompress. destruct (decompress_opt data); [discriminate|].
  now intros [= <-].
Qed.

End ZlibFacts.

(* ================================================================== *)
Module StoredFacts.
Import Zlib Brute ZlibFacts.

Lemma to_bits_cons b l : to_bits (b :: l) = byte_bits b ++ to_bits l.
Proof. reflexivity. Qed.

Lemma to_bits_app x y : to_bits (x ++ y) = to_bits x ++ to_bits y.
Proof. apply flat_map_app. Qed.

Lemma to_bits_length l : length (to_bits l) = (length l * 8)%nat.
Proof.
  induction l as [|b l IH]; [reflexivity|].
  rewrite to_bits_cons, length_app, IH. cbn. lia.
Qed.

Lemma bits_frame : forall n x v r s,
  bits n x = Some (v, r) -> bits n (x ++ s) = Some (v, r ++ s).
Proof.
  induction n as [|n IH]; intros x v r s; cbn [bits].
  - intros H. assert (E : v = 0 /\ r = x) by (split; congruence).
    destruct E as [-> ->]. reflexivity.
  - destruct x as [|b x]; [discriminate|]. cbn [app].
    destruct (bits n x) as [[v' r']|] eqn:E; [|discriminate].
    intros H. rewrite (IH _ _ _ s E).
    assert (E' : Z.b2z b + 2 * v' = v /\ r' = r) by (split; congruence).
    destruct E' as [<- <-]. reflexivity.
Qed.

Lemma bits8_byte b s :
  0 <= b < 256 -> bits 8 (byte_bits b ++ s) = Some (b, s).
Proof.
  intros Hb.
  pose proof (forall_below byte_reads_back 256 eq_refl b Hb) as H.
  unfold byte_reads_back in H.
  destruct (bits 8 (byte_bits b)) as [[v [|? ?]]|] eqn:E; try discriminate.
  apply Z.eqb_eq in H. subst v.
  exact (bits_frame 8 _ _ _ s E).
Qed.

Lemma bits_add : forall n m s,
  bits (n + m) s =
  match bits n s with
  | Some (v, r) =>
      match bits m r with
      | Some (w, r') => Some (v + 2 ^ Z.of_nat n * w, r')
      | None => None
      end
  | None => None
  end.
Proof.
  induction n as [|n IH]; intros m s.
  - cbn [Nat.add bits]. destruct (bits m s) as [[w r']|]; [|reflexivity].
    f_equal. f_equal. change (Z.of_nat 0) with 0. rewrite Z.pow_0_r. lia.
  - cbn [Nat.add bits]. destruct s as [|b s]; [reflexivity|].
    rewrite IH. destruct (bits n s) as [[v r]|]; [|reflexivity].
    destruct (bits m r) as [[w r']|]; [|reflexivity].
    f_equal. f_equal. rewrite Nat2Z.inj_succ, Z.pow_succ_r by lia. lia.
Qed.

Lemma bits16_bytes lo hi s :
  0 <= lo < 256 -> 0 <= hi < 256 ->
  bits 16 (to_bits (lo :: hi :: s)) = Some (lo + 256 * hi, to_bits s).
Proof.
  intros Hlo Hhi. change 16%nat with (8 + 8)%nat.
  rewrite bits_add, !to_bits_cons, bits8_byte by exact Hlo.
  now rewrite bits8_byte by exact Hhi.
Qed.

Lemma take_bytes_chunk : forall chunk tail out,
  forallb is_byte chunk = true ->
  take_bytes (length chunk) (to_bits (chunk ++ tail)) out =
  Some (to_bits tail, rev chunk ++ out).
Proof.
  induction chunk as [|b chunk IH]; intros tail out Hb; [reflexivity|].
  cbn [forallb] in Hb. apply andb_true_iff in Hb. destruct Hb as [Hb Hc].
  apply is_byte_range in Hb.
  cbn [length take_bytes app]. rewrite to_bits_cons, bits8_byte by exact Hb.
  rewrite IH by exact Hc. cbn [rev]. now rewrite <- app_assoc.
Qed.

(** The complement of a 16-bit length. *)
Lemma lxor_ffff len : 0 <= len <= 65535 -> Z.lxor len 0xffff = 65535 - len.
Proof.
  intros Hl. replace (65535 - len) with (Z.lnot len mod 2 ^ 16).
  - apply Z.bits_inj'. intros i Hi.
    rewrite Z.lxor_spec. change 0xffff with (Z.ones 16).
    destruct (Z.ltb_spec i 16).
    + rewrite Z.ones_spec_low, Z.mod_pow2_bits_low, Z.lnot_spec by lia.
      now destruct (Z.testbit len i).
    + rewrite Z.ones_spec_high, Z.mod_pow2_bits_high by lia.
      rewrite xorb_false_r.
      destruct (Z.eq_dec len 0) as [->|Hn]; [apply Z.bits_0|].
      apply Z.bits_above_log2; [lia|].
      apply Z.lt_le_trans with 16; [|lia].
      apply Z.log2_lt_pow2; [lia|]. change (2 ^ 16) with 65536. lia.
  - unfold Z.lnot. change (2 ^ 16) with 65536.
    symmetry. apply Z.mod_unique with (q := -1); lia.
Qed.

Lemma align_stored rest :
  align ([false; false; false; false; false] ++ to_bits rest) = to_bits rest.
Proof.
  unfold align. rewrite length_app, to_bits_length.
  cbn [length]. rewrite Nat.Div0.mod_add. reflexivity.
Qed.

Lemma align_bytes l : align (to_bits l) = to_bits l.
Proof.
  unfold align. rewrite to_bits_length.
  rewrite Nat.Div0.mod_mul. reflexivity.
Qed.

(** A stored block is read back. *)
Lemma stored_block_read chunk tail out :
  (length chunk <= BLOCK)%nat ->
  forallb is_byte chunk = true ->
  let len := Z.of_nat (length chunk) in
  stored
    (false :: false :: false :: false :: false
     :: to_bits ([len mod 256; len / 256; (65535 - len) mod 256;
                  (65535 - len) / 256] ++ chunk ++ tail)) out
  = Some (to_bits tail, rev chunk ++ out).
Proof.
  intros Hl Hb len. unfold BLOCK in Hl.
  assert (Hlen : 0 <= len <= 65535) by (unfold len; lia).
  unfold stored.
  match goal with
  | |- context [align (false :: false :: false :: false :: false :: ?t)] =>
      change (false :: false :: false :: false :: false :: t)
        with ([false; false; false; false; false] ++ t)
  end.
  rewrite align_stored. cbn [app].
  rewrite bits16_bytes by (Z.div_mod_to_equations; lia).
  rewrite bits16_bytes by (Z.div_mod_to_equations; lia).
  replace (len mod 256 + 256 * (len / 256)) with len
    by (Z.div_mod_to_equations; lia).
  replace ((65535 - len) mod 256 + 256 * ((65535 - len) / 256))
    with (65535 - len) by (Z.div_mod_to_equations; lia).
  rewrite lxor_ffff by exact Hlen. rewrite Z.eqb_refl.
  unfold len. rewrite Nat2Z.id. now apply take_bytes_chunk.
Qed.

Lemma blocks_stored_last fuel chunk tail out :
  (length chunk <= BLOCK)%nat ->
  forallb is_byte chunk = true ->
  blocks (S fuel) (to_bits (stored_block 1 chunk ++ tail)) out
  = Some (to_bits tail, rev chunk ++ out).
Proof.
  intros Hl Hb. unfold stored_block. rewrite <- app_assoc.
  cbn [app]. rewrite to_bits_cons.
  change (byte_bits 1)
    with ([true; false; false] ++ [false; false; false; false; false]).
  rewrite <- app_assoc. cbn [blocks app bits Z.b2z].
  change (1 + 2 * 0 =? 1) with true. change (0 + 2 * (0 + 2 * 0) =? 0) with true.
  cbv iota.
  change (Z.of_nat (length chunk) mod 256 :: Z.of_nat (length chunk) / 256
          :: (65535 - Z.of_nat (length chunk)) mod 256
          :: (65535 - Z.of_nat (length chunk)) / 256 :: chunk ++ tail)
    with ([Z.of_nat (length chunk) mod 256; Z.of_nat (length chunk) / 256;
           (65535 - Z.of_nat (length chunk)) mod 256;
           (65535 - Z.of_nat (length chunk)) / 256] ++ chunk ++ tail).
  now rewrite (stored_block_read chunk tail out Hl Hb).
Qed.

Lemma blocks_stored_more fuel chunk tail out :
  (length chunk <= BLOCK)%nat ->
  forallb is_byte chunk = true ->
  blocks (S fuel) (to_bits (stored_block 0 chunk ++ tail)) out
  = blocks fuel (to_bits tail) (rev chunk ++ out).
Proof.
  intros Hl Hb. unfold stored_block. rewrite <- app_assoc.
  cbn [app]. rewrite to_bits_cons.
  change (byte_bits 0)
    with ([false; false; false] ++ [false; false; false; false; false]).
  rewrite <- app_assoc. cbn [blocks app bits Z.b2z].
  change (0 + 2 * 0 =? 1) with false. change (0 + 2 * (0 + 2 * 0) =? 0) with true.
  cbv iota.
  change (Z.of_nat (length chunk) mod 256 :: Z.of_nat (length chunk) / 256
          :: (65535 - Z.of_nat (length chunk)) mod 256
          :: (65535 - Z.of_nat (length chunk)) / 256 :: chunk ++ tail)
    with ([Z.of_nat (length chunk) mod 256; Z.of_nat (length chunk) / 256;
           (65535 - Z.of_nat (length chunk)) mod 256;
           (65535 - Z.of_nat (length chunk)) / 256] ++ chunk ++ tail).
  now rewrite (stored_block_read chunk tail out Hl Hb).
Qed.


Lemma forallb_firstn {A} (P : A -> bool) n l :
  forallb P l = true -> forallb P (firstn n l) = true.
Proof.
  intros H. rewrite <- (firstn_skipn n l), forallb_app in H.
  now apply andb_true_iff in H.
Qed.

Lemma forallb_skipn {A} (P : A -> bool) n l :
  forallb P l = true -> forallb P (skipn n l) = true.
Proof.
  intros H. rewrite <- (firstn_skipn n l), forallb_app in H.
  now apply andb_true_iff in H.
Qed.

(** The blocks that [deflate_stored] writes are read back. *)
Lemma blocks_deflate_stored : forall fuel data F tail out,
  (length data <= fuel)%nat -> (fuel < F)%nat ->
  forallb is_byte data = true ->
  blocks F (to_bits (deflate_stored fuel data ++ tail)) out
  = Some (to_bits tail, rev data ++ out).
Proof.
  induction fuel as [|fuel IH]; intros data F tail out Hl HF Hb;
    (destruct F as [|F]; [lia|]); cbn [deflate_stored].
  - apply blocks_stored_last; [lia|exact Hb].
  - destruct (Nat.leb_spec (length data) BLOCK) as [Hs|Hs].
    + now apply blocks_stored_last.
    + rewrite <- app_assoc, blocks_stored_more.
      * rewrite IH.
        -- rewrite app_assoc, <- rev_app_distr, firstn_skipn. reflexivity.
        -- rewrite length_skipn. unfold BLOCK in *. lia.
        -- lia.
        -- now apply forallb_skipn.
      * rewrite length_firstn. lia.
      * now apply forallb_firstn.
Qed.

Lemma adler32_range data : 0 <= adler32 data < 2 ^ 32.
Proof.
  unfold adler32.
  destruct (fold_left _ data (1, 0)) as [a b] eqn:E.
  assert (G : forall l a0 b0, 0 <= a0 < BASE -> 0 <= b0 < BASE ->
            fold_left (fun '(a, b) x =>
              let a' := (a + x) mod BASE in (a', (b + a') mod BASE))
              l (a0, b0) = (a, b) -> 0 <= a < BASE /\ 0 <= b < BASE).
  { induction l as [|x l IHl]; intros a1 b1 Ha Hb; cbn [fold_left].
    - intros H. assert (a1 = a /\ b1 = b) as [<- <-] by (split; congruence).
      auto.
    - apply IHl; apply Z.mod_pos_bound; unfold BASE; lia. }
  assert (H : 0 <= a < BASE /\ 0 <= b < BASE)
    by (apply (G data 1 0); [unfold BASE; lia|unfold BASE; lia|exact E]).
  unfold BASE in H. destruct H as [Ha Hb].
  split; [apply Z.lor_nonneg; split; [apply Z.shiftl_nonneg|]; lia|].
  destruct (Z.eq_dec (Z.lor (Z.shiftl b 16) a) 0) as [->|Hn]; [reflexivity|].
  assert (Hp : 0 < Z.lor (Z.shiftl b 16) a).
  { assert (0 <= Z.lor (Z.shiftl b 16) a)
      by (apply Z.lor_nonneg; split; [apply Z.shiftl_nonneg|]; lia). lia. }
  apply Z.log2_lt_pow2; [exact Hp|].
  rewrite Z.log2_lor by (try apply Z.shiftl_nonneg; lia).
  apply Z.max_lub_lt.
  - destruct (Z.eq_dec b 0) as [->|Hb0]; [cbn; lia|].
    rewrite Z.log2_shiftl by lia.
    assert (Z.log2 b < 16) by (apply Z.log2_lt_pow2; [lia|]; change (2 ^ 16) with 65536; lia).
    lia.
  - destruct (Z.eq_dec a 0) as [->|Ha0]; [cbn; lia|].
    assert (Z.log2 a < 16) by (apply Z.log2_lt_pow2; [lia|]; change (2 ^ 16) with 65536; lia).
    lia.
Qed.


Lemma deflate_stored_length : forall fuel data,
  (length data <= length (deflate_stored fuel data))%nat.
Proof.
  induction fuel as [|fuel IH]; intros data; cbn [deflate_stored].
  - unfold stored_block. rewrite length_app. lia.
  - destruct (length data <=? BLOCK)%nat.
    + unfold stored_block. rewrite length_app. lia.
    + unfold stored_block. rewrite !length_app.
      specialize (IH (skipn BLOCK data)).
      rewrite <- (firstn_skipn BLOCK data) at 1. rewrite length_app. lia.
Qed.

Lemma be32_bytes v : forallb is_byte (be32 v) = true.
Proof.
  unfold be32. cbn [forallb].
  rewrite !(proj2 (is_byte_range _)); [reflexivity|..];
    apply Z.mod_pos_bound; lia.
Qed.

Lemma be32_value v :
  0 <= v < 2 ^ 32 ->
  Z.shiftl ((v / 16777216) mod 256) 24 + Z.shiftl ((v / 65536) mod 256) 16
  + Z.shiftl ((v / 256) mod 256) 8 + v mod 256 = v.
Proof.
  change (2 ^ 32) with 4294967296. intros Hv.
  rewrite !Z.shiftl_mul_pow2 by lia.
  change (2 ^ 24) with 16777216. change (2 ^ 16) with 65536.
  change (2 ^ 8) with 256.
  Z.div_mod_to_equations. lia.
Qed.

(** [zlib.decompress] reads back what [compress_stored] writes. *)
Lemma decompress_compress_stored data :
  forallb is_byte data = true ->
  decompress (compress_stored data) = Ok data.
Proof.
  intros Hb. unfold decompress, decompress_opt, compress_stored.
  cbn [app]. change (header_ok 120 1) with true. cbv iota.
  unfold inflate.
  rewrite blocks_deflate_stored;
    [ | lia
      | rewrite to_bits_length, length_app;
        pose proof (deflate_stored_length (length data) data); lia
      | exact Hb ].
  rewrite app_nil_r, rev_involutive, align_bytes.
  rewrite <- (app_nil_r (be32 (adler32 data))).
  change 4%nat with (length (be32 (adler32 data))).
  rewrite take_bytes_chunk by apply be32_bytes.
  unfold be32. cbn [rev app].
  rewrite be32_value by apply adler32_range.
  now rewrite Z.eqb_refl.
Qed.

Lemma stored_block_bytes last chunk :
  0 <= last < 256 -> (length chunk <= BLOCK)%nat ->
  forallb is_byte chunk = true ->
  forallb is_byte (stored_block last chunk) = true.
Proof.
  intros Hlast Hl Hb. unfold stored_block, BLOCK in *.
  rewrite forallb_app, Hb. cbn [forallb].
  rewrite !(proj2 (is_byte_range _)); [reflexivity|..];
    try lia; Z.div_mod_to_equations; lia.
Qed.

Lemma deflate_stored_bytes : forall fuel data,
  (length data <= fuel)%nat ->
  forallb is_byte data = true ->
  forallb is_byte (deflate_stored fuel data) = true.
Proof.
  induction fuel as [|fuel IH]; intros data Hl Hb; cbn [deflate_stored].
  - apply stored_block_bytes; [lia|lia|exact Hb].
  - destruct (Nat.leb_spec (length data) BLOCK) as [Hs|Hs].
    + apply stored_block_bytes; [lia|exact Hs|exact Hb].
    + rewrite forallb_app, stored_block_bytes, IH; try reflexivity.
      * rewrite length_skipn. unfold BLOCK in *. lia.
      * now apply forallb_skipn.
      * lia.
      * rewrite length_firstn. lia.
      * now apply forallb_firstn.
Qed.

Lemma compress_stored_bytes data :
  forallb is_byte data = true ->
  forallb is_byte (compress_stored data) = true.
Proof.
  intros Hb. unfold compress_stored. cbn [app forallb].
  rewrite forallb_app, deflate_stored_bytes, be32_bytes; auto.
Qed.

End StoredFacts.

(* ================================================================== *)
(** * The decoder reads what a writer of the format writes *)

Module HuffmanFacts.
Import Zlib Deflate.

(** ** Bits *)

Lemma bits_lsb_bits : forall n v rest,
  0 <= v < 2 ^ Z.of_nat n ->
  bits n (lsb_bits n v ++ rest) = Some (v, rest).
Proof.
  induction n as [|n IH]; intros v rest Hv.
  - cbn in *. f_equal. f_equal. lia.
  - cbn [lsb_bits app bits].
    rewrite Nat2Z.inj_succ, Z.pow_succ_r in Hv by lia.
    rewrite IH by (split; [apply Z.div_pos; lia|apply Z.div_lt_upper_bound; lia]).
    f_equal. f_equal.
    rewrite (Z.div_mod v 2) at 3 by lia.
    rewrite Zmod_odd. destruct (Z.odd v); cbn [Z.b2z]; lia.
Qed.

Lemma lsb_bits_length : forall n v, length (lsb_bits n v) = n.
Proof. induction n; intros v; cbn; auto. Qed.

Lemma msb_bits_length : forall n c, length (msb_bits n c) = n.
Proof. induction n; intros c; cbn; auto. Qed.

(** ** The tables of the decoder *)

Lemma count_of_occurrences lengths len :
  count_of lengths len = occurrences len lengths.
Proof. reflexivity. Qed.

Lemma occurrences_nonneg l lengths : 0 <= occurrences l lengths.
Proof. unfold occurrences. lia. Qed.

Lemma occurrences_cons l x lengths :
  occurrences l (x :: lengths) =
  (if l =? x then 1 else 0) + occurrences l lengths.
Proof.
  unfold occurrences. cbn [filter].
  destruct (l =? x); cbn [length]; lia.
Qed.

Lemma symbols_of_length : forall ls len sym,
  Z.of_nat (length (symbols_of ls len sym)) = occurrences len ls.
Proof.
  induction ls as [|l ls IH]; intros len sym; [reflexivity|].
  cbn [symbols_of]. rewrite occurrences_cons, (Z.eqb_sym len l).
  destruct (l =? len); cbn [length]; rewrite <- (IH len (sym + 1)); lia.
Qed.

(** The symbols of one length stand in the table in increasing order. *)
Lemma symbols_of_nth : forall ls len base i,
  (i < length ls)%nat -> nth i ls 0 = len ->
  nth (Z.to_nat (occurrences len (firstn i ls))) (symbols_of ls len base) 0
  = base + Z.of_nat i.
Proof.
  induction ls as [|l ls IH]; intros len base i Hi Hn; [cbn in Hi; lia|].
  destruct i as [|i].
  - cbn in Hn. subst l. cbn [firstn symbols_of]. rewrite Z.eqb_refl.
    cbn. lia.
  - cbn [nth] in Hn. cbn [length] in Hi.
    cbn [firstn symbols_of]. rewrite occurrences_cons, (Z.eqb_sym len l).
    specialize (IH len (base + 1) i ltac:(lia) Hn).
    pose proof (occurrences_nonneg len (firstn i ls)).
    destruct (l =? len).
    + replace (Z.to_nat (1 + occurrences len (firstn i ls)))
        with (S (Z.to_nat (occurrences len (firstn i ls)))) by lia.
      cbn [nth]. rewrite IH. lia.
    + rewrite Z.add_0_l, IH. lia.
Qed.

Lemma occurrences_firstn_lt : forall ls len i,
  (i < length ls)%nat -> nth i ls 0 = len ->
  occurrences len (firstn i ls) < occurrences len ls.
Proof.
  induction ls as [|l ls IH]; intros len i Hi Hn; [cbn in Hi; lia|].
  destruct i as [|i].
  - cbn in Hn. subst l. cbn [firstn]. rewrite occurrences_cons, Z.eqb_refl.
    pose proof (occurrences_nonneg len ls).
    change (occurrences len []) with 0. lia.
  - cbn [nth] in Hn. cbn [length] in Hi. cbn [firstn].
    rewrite !occurrences_cons. specialize (IH len i ltac:(lia) Hn). lia.
Qed.

Lemma lor_even a b : Z.lor (2 * a) (Z.b2z b) = 2 * a + Z.b2z b.
Proof.
  destruct b; cbn [Z.b2z]; [|now rewrite Z.lor_0_r, Z.add_0_r].
  assert (H : Z.land (2 * a) 1 = 0).
  { change 1 with (Z.ones 1). rewrite Z.land_ones by lia.
    change (2 ^ 1) with 2. now rewrite Z.mul_comm, Z_mod_mult. }
  rewrite <- Z.lxor_lor by exact H. symmetry.
  now apply Z.add_nocarry_lxor.
Qed.

Lemma div_pow2_step c k :
  0 <= c ->
  2 * (c / 2 ^ Z.of_nat (S k)) + Z.b2z (Z.odd (c / 2 ^ Z.of_nat k))
  = c / 2 ^ Z.of_nat k.
Proof.
  intros Hc. rewrite Nat2Z.inj_succ, Z.pow_succ_r by lia.
  assert (Hp : 0 < 2 ^ Z.of_nat k) by (apply Z.pow_pos_nonneg; lia).
  rewrite (Z.mul_comm 2 (2 ^ Z.of_nat k)), <- Z.div_div by lia.
  set (q := c / 2 ^ Z.of_nat k).
  pose proof (Z.div_mod q 2 ltac:(lia)) as H.
  rewrite Zmod_odd in H. destruct (Z.odd q); cbn [Z.b2z]; lia.
Qed.

Lemma bl_count_nonneg lengths len : 0 <= bl_count lengths len.
Proof. destruct len; cbn; [lia|apply occurrences_nonneg]. Qed.

Lemma next_code_nonneg lengths : forall len, 0 <= next_code lengths len.
Proof.
  induction len as [|len IH]; cbn [next_code]; [lia|].
  pose proof (bl_count_nonneg lengths len). lia.
Qed.

(** Longer codes lie above the shorter ones, shifted. *)
Lemma next_code_above lengths len : forall j,
  (next_code lengths len + bl_count lengths len) * 2 ^ Z.of_nat (S j)
  <= next_code lengths (S j + len).
Proof.
  induction j as [|j IH].
  - cbn [next_code Nat.add]. change (2 ^ Z.of_nat 1) with 2. lia.
  - change (S (S j) + len)%nat with (S (S j + len)).
    cbn [next_code].
    pose proof (bl_count_nonneg lengths (S j + len)).
    rewrite (Nat2Z.inj_succ (S j)), Z.pow_succ_r by lia.
    lia.
Qed.

Lemma seq_16 len : (len <= 15)%nat ->
  seq len (16 - len) = len :: seq (S len) (16 - S len).
Proof.
  intros H. replace (16 - len)%nat with (S (16 - S len)) by lia.
  reflexivity.
Qed.

(** The loop of [decode], entered at length [len] with the bits of a code
    of length [L] still to read. *)
Lemma decode_loop_code lengths symbols rest c L : forall k len,
  (len + k = L)%nat -> (1 <= len)%nat -> (L <= 15)%nat ->
  next_code lengths L <= c < next_code lengths L + bl_count lengths L ->
  decode_loop
    (map (count_of lengths) (map Z.of_nat (seq len (16 - len)))) symbols
    (2 * (c / 2 ^ Z.of_nat (S k))) (next_code lengths len)
    (shorter lengths len) (msb_bits (S k) c ++ rest)
  = Some (nthZ symbols (shorter lengths L + (c - next_code lengths L)), rest).
Proof.
  induction k as [|k IH]; intros len Hk Hlen HL Hc.
  - assert (len = L) by lia. subst len.
    rewrite seq_16 by lia. cbn [map decode_loop msb_bits app].
    change (2 ^ Z.of_nat 0) with 1. rewrite Z.div_1_r.
    rewrite lor_even.
    pose proof (next_code_nonneg lengths L) as Hn.
    pose proof (div_pow2_step c 0 ltac:(lia)) as Hd.
    change (2 ^ Z.of_nat 0) with 1 in Hd. rewrite Z.div_1_r in Hd.
    rewrite Hd.
    replace (count_of lengths (Z.of_nat L)) with (bl_count lengths L)
      by (destruct L; [lia|reflexivity]).
    replace (c - bl_count lengths L <? next_code lengths L) with true
      by (symmetry; apply Z.ltb_lt; lia).
    reflexivity.
  - rewrite seq_16 by lia.
    cbn [map decode_loop]. cbn [msb_bits app].
    rewrite lor_even.
    pose proof (next_code_nonneg lengths L) as Hn.
    rewrite (div_pow2_step c (S k)) by lia.
    replace (count_of lengths (Z.of_nat len)) with (bl_count lengths len)
      by (destruct len; [lia|reflexivity]).
    assert (Hp : 0 < 2 ^ Z.of_nat (S k)) by (apply Z.pow_pos_nonneg; lia).
    assert (Hge : next_code lengths len + bl_count lengths len
                  <= c / 2 ^ Z.of_nat (S k)).
    { apply Z.div_le_lower_bound; [lia|].
      pose proof (next_code_above lengths len k) as Ha.
      replace (S k + len)%nat with L in Ha by lia. lia. }
    replace (c / 2 ^ Z.of_nat (S k) - bl_count lengths len
             <? next_code lengths len) with false
      by (symmetry; apply Z.ltb_ge; lia).
    rewrite !Z.shiftl_mul_pow2 by lia. change (2 ^ 1) with 2.
    rewrite !(Z.mul_comm _ 2).
    change (2 * (next_code lengths len + bl_count lengths len))
      with (next_code lengths (S len)).
    change (shorter lengths len + bl_count lengths len)
      with (shorter lengths (S len)).
    apply IH; [lia|lia|lia|exact Hc].
Qed.

(** ** The Kraft sum bounds the codes *)

Lemma kraft_upto_15 lengths : kraft_upto 15 lengths = kraft lengths.
Proof. reflexivity. Qed.

Lemma kraft_upto_succ L : forall lengths,
  kraft_upto (S L) lengths
  = 2 * kraft_upto L lengths + bl_count lengths (S L).
Proof.
  induction lengths as [|l ls IH]; [reflexivity|].
  unfold kraft_upto in *. cbn [fold_right]. rewrite IH.
  cbn [bl_count]. rewrite occurrences_cons.
  rewrite !Nat2Z.inj_succ. set (N := Z.of_nat L).
  assert (HN : 0 <= N) by (unfold N; lia).
  destruct (Z.eqb_spec (Z.succ N) l) as [E|E].
  - replace ((1 <=? l) && (l <=? Z.succ N)) with true
      by (symmetry; apply andb_true_iff; split; apply Z.leb_le; lia).
    replace ((1 <=? l) && (l <=? N)) with false
      by (symmetry; apply andb_false_iff; right; apply Z.leb_gt; lia).
    replace (Z.succ N - l) with 0 by lia.
    change (2 ^ 0) with 1. lia.
  - destruct ((1 <=? l) && (l <=? N)) eqn:B.
    + apply andb_true_iff in B. destruct B as [B1 B2].
      apply Z.leb_le in B1, B2.
      replace ((1 <=? l) && (l <=? Z.succ N)) with true
        by (symmetry; apply andb_true_iff; split; apply Z.leb_le; lia).
      replace (Z.succ N - l) with (Z.succ (N - l)) by lia.
      rewrite Z.pow_succ_r by lia. lia.
    + replace ((1 <=? l) && (l <=? Z.succ N)) with false; [lia|].
      symmetry. apply andb_false_iff in B. apply andb_false_iff.
      destruct B as [B|B]; [now left|right].
      apply Z.leb_gt in B. apply Z.leb_gt. lia.
Qed.

Lemma kraft_upto_code lengths : forall L,
  kraft_upto L lengths = next_code lengths L + bl_count lengths L.
Proof.
  induction L as [|L IH].
  - cbn [next_code bl_count]. unfold kraft_upto.
    induction lengths as [|l ls IHl]; [reflexivity|].
    cbn [fold_right]. rewrite IHl.
    replace ((1 <=? l) && (l <=? Z.of_nat 0)) with false; [lia|].
    symmetry. apply andb_false_iff.
    destruct (Z.leb_spec 1 l); [right; apply Z.leb_gt; cbn; lia|now left].
  - rewrite kraft_upto_succ, IH. reflexivity.
Qed.

Lemma kraft_upto_nonneg lengths L : 0 <= kraft_upto L lengths.
Proof.
  rewrite kraft_upto_code.
  pose proof (next_code_nonneg lengths L).
  pose proof (bl_count_nonneg lengths L). lia.
Qed.

Lemma kraft_upto_scale lengths L : forall j,
  kraft_upto L lengths * 2 ^ Z.of_nat j <= kraft_upto (j + L) lengths.
Proof.
  induction j as [|j IH]; [cbn [Nat.add]; change (2 ^ Z.of_nat 0) with 1; lia|].
  change (S j + L)%nat with (S (j + L)).
  rewrite kraft_upto_succ, Nat2Z.inj_succ, Z.pow_succ_r by lia.
  pose proof (bl_count_nonneg lengths (S (j + L))). lia.
Qed.

(** Without over-subscription every code of length [L] fits in [L]
    bits. *)
Lemma code_fits lengths L :
  kraft lengths <= 2 ^ 15 -> (L <= 15)%nat ->
  next_code lengths L + bl_count lengths L <= 2 ^ Z.of_nat L.
Proof.
  intros Hk HL. rewrite <- kraft_upto_code.
  pose proof (kraft_upto_scale lengths L (15 - L)) as H.
  replace (15 - L + L)%nat with 15%nat in H by lia.
  rewrite kraft_upto_15 in H.
  assert (Hp : 0 < 2 ^ Z.of_nat (15 - L)) by (apply Z.pow_pos_nonneg; lia).
  assert (E : 2 ^ 15 = 2 ^ Z.of_nat L * 2 ^ Z.of_nat (15 - L)).
  { rewrite <- Z.pow_add_r by lia. f_equal. lia. }
  rewrite E in Hk. nia.
Qed.

(** ** The symbol table *)

Lemma shorter_length lengths : forall L,
  Z.of_nat
    (length (flat_map (fun len => symbols_of lengths len 0)
               (map Z.of_nat (seq 1 L))))
  = shorter lengths (S L).
Proof.
  induction L as [|L IH]; [reflexivity|].
  rewrite seq_S, map_app, flat_map_app, length_app, Nat2Z.inj_add, IH.
  cbn [map flat_map]. rewrite app_nil_r, symbols_of_length.
  reflexivity.
Qed.

Lemma symbol_table lengths L r :
  (1 <= L <= 15)%nat ->
  0 <= r < bl_count lengths L ->
  nthZ (Zlib.symbol (fst (construct lengths))) (shorter lengths L + r)
  = nth (Z.to_nat r) (symbols_of lengths (Z.of_nat L) 0) 0.
Proof.
  intros HL Hr.
  assert (Hs : Zlib.symbol (fst (construct lengths))
               = flat_map (fun len => symbols_of lengths len 0)
                   (map Z.of_nat (seq 1 15))).
  { unfold construct. now destruct (_ =? _). }
  assert (Hq : seq 1 15 = seq 1 (L - 1) ++ L :: seq (S L) (15 - L)).
  { replace 15%nat with ((L - 1) + S (15 - L))%nat at 1 by lia.
    rewrite seq_app. cbn [seq]. now replace (1 + (L - 1))%nat with L by lia. }
  rewrite Hs, Hq, map_app, flat_map_app. cbn [map flat_map].
  unfold nthZ.
  pose proof (shorter_length lengths (L - 1)) as Hlen.
  replace (S (L - 1)) with L in Hlen by lia.
  pose proof (bl_count_nonneg lengths L).
  rewrite app_nth2 by lia.
  replace (Z.to_nat (shorter lengths L + r)
           - length (flat_map (fun len => symbols_of lengths len 0)
                       (map Z.of_nat (seq 1 (L - 1)))))%nat
    with (Z.to_nat r) by lia.
  apply app_nth1.
  pose proof (symbols_of_length lengths (Z.of_nat L) 0) as Hl.
  destruct L; [lia|]. cbn [bl_count] in Hr. lia.
Qed.

(** [decode] reads the code of a symbol as that symbol. *)
Lemma decode_code lengths sym rest :
  lengths_ok lengths = true ->
  kraft lengths <= 2 ^ 15 ->
  (sym < length lengths)%nat ->
  used lengths sym = true ->
  decode (fst (construct lengths)) (code_of lengths sym ++ rest)
  = Some (Z.of_nat sym, rest).
Proof.
  intros Hok Hk Hsym Hu.
  set (l := nth sym lengths 0).
  assert (Hl : 1 <= l <= 15).
  { unfold used in Hu. fold l in Hu. apply Z.leb_le in Hu.
    unfold lengths_ok in Hok. rewrite forallb_forall in Hok.
    specialize (Hok l (nth_In _ _ Hsym)).
    apply andb_true_iff in Hok. destruct Hok as [_ H]. apply Z.leb_le in H.
    lia. }
  set (L := Z.to_nat l).
  assert (HL : (1 <= L <= 15)%nat) by lia.
  assert (El : Z.of_nat L = l) by lia.
  set (r := occurrences l (firstn sym lengths)).
  assert (Hr : 0 <= r < bl_count lengths L).
  { split; [apply occurrences_nonneg|].
    replace (bl_count lengths L) with (occurrences l lengths)
      by (destruct L; [lia|cbn [bl_count]; now rewrite El]).
    now apply occurrences_firstn_lt. }
  pose proof (code_fits lengths L Hk ltac:(lia)) as Hfit.
  pose proof (next_code_nonneg lengths L) as Hn.
  unfold code_of. fold l. fold L. fold r.
  set (c := next_code lengths L + r).
  unfold decode.
  assert (Hc : count (fst (construct lengths))
               = map (count_of lengths) (map Z.of_nat (seq 1 (16 - 1)))).
  { unfold construct. now destruct (_ =? _). }
  rewrite Hc.
  destruct L as [|k] eqn:EL; [lia|].
  pose proof (decode_loop_code lengths (Zlib.symbol (fst (construct lengths)))
                rest c (S k) k 1%nat ltac:(lia) ltac:(lia) ltac:(lia)
                ltac:(unfold c; lia)) as H.
  replace (2 * (c / 2 ^ Z.of_nat (S k))) with 0 in H
    by (rewrite Z.div_small; [lia|unfold c; lia]).
  change (next_code lengths 1) with 0 in H.
  change (shorter lengths 1) with 0 in H.
  rewrite H. f_equal. f_equal.
  replace (c - next_code lengths (S k)) with r by (unfold c; lia).
  rewrite symbol_table by lia.
  rewrite El. unfold r.
  rewrite (symbols_of_nth lengths l 0 sym Hsym eq_refl). lia.
Qed.

End HuffmanFacts.

Module CodesFacts.
Import Zlib Deflate HuffmanFacts.

Lemma used_in_range lengths sym :
  used lengths sym = true -> (sym < length lengths)%nat.
Proof.
  unfold used. intros H. destruct (Nat.lt_ge_cases sym (length lengths)) as [|Hge];
    [assumption|].
  rewrite nth_overflow in H by exact Hge. discriminate.
Qed.

Lemma code_of_length lengths sym :
  used lengths sym = true -> (1 <= length (code_of lengths sym))%nat.
Proof.
  unfold used, code_of. intros H. apply Z.leb_le in H.
  rewrite msb_bits_length. lia.
Qed.

Lemma length_tables lsym :
  (lsym < 29)%nat ->
  Z.to_nat (nthZ lext (Z.of_nat lsym)) = nth lsym length_extra O /\
  nthZ lens (Z.of_nat lsym) = nth lsym length_base 0.
Proof.
  intros H.
  do 29 (destruct lsym as [|lsym]; [split; reflexivity|]). lia.
Qed.

Lemma dist_tables dsym :
  (dsym < 30)%nat ->
  Z.to_nat (nthZ dext (Z.of_nat dsym)) = nth dsym dist_extra O /\
  nthZ dists (Z.of_nat dsym) = nth dsym dist_base 0 /\
  1 <= nth dsym dist_base 0.
Proof.
  intros H.
  do 30 (destruct dsym as [|dsym]; [repeat split; cbn; lia|]). lia.
Qed.

Lemma length_base_pos lsym :
  (lsym < 29)%nat -> 3 <= nth lsym length_base 0.
Proof.
  intros H. do 29 (destruct lsym as [|lsym]; [cbn; lia|]). lia.
Qed.

(** The copy of the decoder, on the output kept backwards, is the copy of
    the format. *)
Lemma copy_lz_copy dist : forall n out,
  1 <= dist <= Z.of_nat (length out) ->
  copy n dist (rev out) = rev (lz_copy n (Z.to_nat dist) out).
Proof.
  induction n as [|n IH]; intros out Hd; [reflexivity|].
  cbn [copy lz_copy].
  replace (nthZ (rev out) (dist - 1) :: rev out)
    with (rev (out ++ [nth (length out - Z.to_nat dist) out 0])).
  - apply IH. rewrite length_app. cbn [length]. lia.
  - rewrite rev_app_distr. cbn [rev app]. f_equal.
    unfold nthZ. rewrite rev_nth by lia. f_equal. lia.
Qed.

Section Codes.
Variables ll dl : list Z.
Hypothesis ll_ok : lengths_ok ll = true.
Hypothesis ll_kraft : kraft ll <= 2 ^ 15.
Hypothesis dl_ok : lengths_ok dl = true.
Hypothesis dl_kraft : kraft dl <= 2 ^ 15.
Hypothesis end_used : used ll 256 = true.

Lemma decode_ll sym rest :
  used ll sym = true ->
  decode (fst (construct ll)) (code_of ll sym ++ rest)
  = Some (Z.of_nat sym, rest).
Proof.
  intros H. apply decode_code; auto. now apply used_in_range.
Qed.

Lemma decode_dl sym rest :
  used dl sym = true ->
  decode (fst (construct dl)) (code_of dl sym ++ rest)
  = Some (Z.of_nat sym, rest).
Proof.
  intros H. apply decode_code; auto. now apply used_in_range.
Qed.

(** One symbol of the block is read and its bytes are put out. *)
Lemma codes_symbol fuel s rest out :
  valid_symbol ll dl out s = true ->
  codes (S fuel) (fst (construct ll)) (fst (construct dl))
    (write_symbol ll dl s ++ rest) (rev out)
  = codes fuel (fst (construct ll)) (fst (construct dl)) rest
      (rev (expand_symbol out s)).
Proof.
  intros Hv. destruct s as [b|lsym eb dsym db]; cbn [valid_symbol] in Hv.
  - apply andb_true_iff in Hv. destruct Hv as [Hv Hu].
    apply andb_true_iff in Hv. destruct Hv as [H0 H1].
    apply Z.leb_le in H0. apply Z.ltb_lt in H1.
    cbn [write_symbol codes]. rewrite decode_ll by exact Hu.
    rewrite Z2Nat.id by lia.
    replace (b <? 256) with true by (symmetry; apply Z.ltb_lt; lia).
    cbn [expand_symbol]. now rewrite rev_app_distr.
  - repeat (apply andb_true_iff in Hv; destruct Hv as [Hv ?]).
    repeat match goal with
           | H : (_ <? _)%nat = true |- _ => apply Nat.ltb_lt in H
           | H : (_ <=? _) = true |- _ => apply Z.leb_le in H
           | H : (_ <? _) = true |- _ => apply Z.ltb_lt in H
           end.
    destruct (length_tables lsym Hv) as [Elx Elb].
    destruct (dist_tables dsym ltac:(assumption)) as (Edx & Edb & Hd1).
    pose proof (length_base_pos lsym Hv) as Hl3.
    cbn [write_symbol codes]. rewrite <- !app_assoc.
    rewrite decode_ll by assumption.
    replace (Z.of_nat (257 + lsym) <? 256) with false
      by (symmetry; apply Z.ltb_ge; lia).
    replace (Z.of_nat (257 + lsym) =? 256) with false
      by (symmetry; apply Z.eqb_neq; lia).
    replace (Z.of_nat (257 + lsym) - 257) with (Z.of_nat lsym) by lia.
    replace (29 <=? Z.of_nat lsym) with false
      by (symmetry; apply Z.leb_gt; lia).
    rewrite Elx, Elb.
    rewrite bits_lsb_bits by lia.
    rewrite decode_dl by assumption.
    rewrite Edx, Edb.
    rewrite bits_lsb_bits by lia.
    rewrite length_rev.
    replace (Z.of_nat (length out) <? nth dsym dist_base 0 + db) with false
      by (symmetry; apply Z.ltb_ge; unfold copy_distance in *; lia).
    cbn [expand_symbol]. unfold copy_length, copy_distance in *.
    rewrite copy_lz_copy by lia. reflexivity.
Qed.

Lemma write_symbol_length s out :
  valid_symbol ll dl out s = true ->
  (1 <= length (write_symbol ll dl s))%nat.
Proof.
  intros Hv. destruct s as [b|lsym eb dsym db]; cbn [valid_symbol] in Hv.
  - apply andb_true_iff in Hv. destruct Hv as [_ Hu].
    cbn [write_symbol]. now apply code_of_length.
  - repeat (apply andb_true_iff in Hv; destruct Hv as [Hv ?]).
    cbn [write_symbol]. rewrite length_app.
    pose proof (code_of_length ll (257 + lsym) ltac:(assumption)). lia.
Qed.

(** The symbols of a block, up to the end-of-block symbol. *)
Lemma codes_symbols : forall syms fuel rest out,
  valid_symbols ll dl syms out = true ->
  (length (write_symbols ll dl syms ++ rest) < fuel)%nat ->
  codes fuel (fst (construct ll)) (fst (construct dl))
    (write_symbols ll dl syms ++ rest) (rev out)
  = Some (rest, rev (expand_symbols syms out)).
Proof.
  unfold write_symbols.
  induction syms as [|s syms IH]; intros fuel rest out Hv Hf.
  - cbn [flat_map app] in *. destruct fuel as [|fuel]; [lia|].
    cbn [codes]. rewrite decode_ll by exact end_used.
    reflexivity.
  - cbn [valid_symbols] in Hv. apply andb_true_iff in Hv.
    destruct Hv as [Hs Hv].
    cbn [flat_map] in *. rewrite <- !app_assoc in *.
    pose proof (write_symbol_length s out Hs) as Hl.
    rewrite length_app in Hf.
    destruct fuel as [|fuel]; [lia|].
    rewrite codes_symbol by exact Hs.
    rewrite app_assoc. cbn [expand_symbols fold_left].
    apply IH; [exact Hv|]. rewrite <- app_assoc. lia.
Qed.

End Codes.

End CodesFacts.

Module HeaderFacts.
Import Zlib Deflate HuffmanFacts CodesFacts.

Lemma read_ncode_written cl : forall syms rest acc,
  forallb (fun l => (0 <=? l) && (l <=? 7)) (map (fun sym => nth sym cl 0) syms)
  = true ->
  read_ncode (length syms)
    (flat_map (fun sym => lsb_bits 3 (nth sym cl 0)) syms ++ rest) acc
  = Some (rev acc ++ map (fun sym => nth sym cl 0) syms, rest).
Proof.
  induction syms as [|sym syms IH]; intros rest acc Hr.
  - cbn. now rewrite app_nil_r.
  - cbn [map forallb] in Hr. apply andb_true_iff in Hr.
    destruct Hr as [Hs Hr]. apply andb_true_iff in Hs.
    destruct Hs as [H0 H7]. apply Z.leb_le in H0, H7.
    cbn [length flat_map read_ncode]. rewrite <- app_assoc.
    rewrite bits_lsb_bits by (change (2 ^ Z.of_nat 3) with 8; lia).
    rewrite IH by exact Hr. cbn [rev map]. now rewrite <- app_assoc.
Qed.

Lemma small_lengths_nth cl sym :
  forallb (fun l => (0 <=? l) && (l <=? 7)) cl = true ->
  (0 <=? nth sym cl 0) && (nth sym cl 0 <=? 7) = true.
Proof.
  intros H. destruct (Nat.lt_ge_cases sym (length cl)) as [Hlt|Hge].
  - rewrite forallb_forall in H. apply H. now apply nth_In.
  - now rewrite nth_overflow by exact Hge.
Qed.

Lemma small_lengths_map cl syms :
  forallb (fun l => (0 <=? l) && (l <=? 7)) cl = true ->
  forallb (fun l => (0 <=? l) && (l <=? 7)) (map (fun sym => nth sym cl 0) syms)
  = true.
Proof.
  intros H. induction syms as [|sym syms IH]; [reflexivity|].
  cbn [map forallb]. now rewrite small_lengths_nth, IH.
Qed.

(** The lengths written in the order of the format, the rest zero, are
    put back in the order of the symbols. *)
Lemma permute_order_written cl n :
  length cl = 19%nat -> (n <= 19)%nat ->
  forallb (fun sym => nth sym cl 0 =? 0) (skipn n cl_order) = true ->
  permute_order (map (fun sym => nth sym cl 0) (firstn n cl_order)) = cl.
Proof.
  intros Hl Hn Hz.
  do 19 (destruct cl as [|? cl]; [discriminate Hl|]).
  destruct cl; [|discriminate Hl]. clear Hl.
  do 20 (destruct n as [|n];
         [cbn in Hz;
          repeat (apply andb_true_iff in Hz; destruct Hz as [?H Hz]);
          repeat match goal with
                 | H : (_ =? 0) = true |- _ => apply Z.eqb_eq in H; subst
                 end;
          reflexivity|]).
  lia.
Qed.

(** ** Complete codes are accepted *)

Lemma left_over_complete lengths : forall k len,
  (len + k = 16)%nat -> (1 <= len)%nat ->
  kraft lengths <= 2 ^ 15 ->
  left_over (map (count_of lengths) (map Z.of_nat (seq len k)))
    (2 ^ Z.of_nat (len - 1) - kraft_upto (len - 1) lengths)
  = 2 ^ 15 - kraft lengths.
Proof.
  induction k as [|k IH]; intros len Hk Hlen Hkr.
  - cbn [seq map left_over]. replace (len - 1)%nat with 15%nat by lia.
    reflexivity.
  - cbn [seq map left_over].
    replace (count_of lengths (Z.of_nat len)) with (bl_count lengths len)
      by (destruct len; [lia|reflexivity]).
    assert (E : 2 * (2 ^ Z.of_nat (len - 1) - kraft_upto (len - 1) lengths)
                - bl_count lengths len
                = 2 ^ Z.of_nat len - kraft_upto len lengths).
    { replace len with (S (len - 1)) at 3 4 5 by lia.
      rewrite kraft_upto_succ, Nat2Z.inj_succ, Z.pow_succ_r by lia.
      replace (S (len - 1)) with len by lia. lia. }
    rewrite E.
    pose proof (code_fits lengths len Hkr ltac:(lia)) as Hfit.
    rewrite <- kraft_upto_code in Hfit.
    replace (2 ^ Z.of_nat len - kraft_upto len lengths <? 0) with false
      by (symmetry; apply Z.ltb_ge; lia).
    replace len with (S len - 1)%nat at 2 3 by lia.
    apply IH; [lia|lia|exact Hkr].
Qed.

Lemma complete_parts lengths :
  complete lengths = true ->
  lengths_ok lengths = true /\ kraft lengths = 2 ^ 15.
Proof.
  unfold complete. rewrite andb_true_iff, Z.eqb_eq. auto.
Qed.

Lemma construct_complete lengths :
  complete lengths = true -> snd (construct lengths) = 0.
Proof.
  intros H. destruct (complete_parts _ H) as [_ Hk].
  unfold construct. destruct (_ =? _); [reflexivity|].
  cbn [snd count].
  pose proof (left_over_complete lengths 15 1 eq_refl (le_n _)
                ltac:(rewrite Hk; lia)) as E.
  change (2 ^ Z.of_nat (1 - 1) - kraft_upto (1 - 1) lengths)
    with (1 - kraft_upto 0 lengths) in E.
  rewrite kraft_upto_code in E. cbn [next_code bl_count] in E.
  change (1 - (0 + 0)) with 1 in E.
  unfold lengths_1_15, MAXBITS. rewrite E, Hk. lia.
Qed.

(** ** The code lengths of the two codes *)

Lemma expand_item_grows cl acc i :
  valid_item cl acc i = true ->
  (length acc < length (expand_item acc i))%nat.
Proof.
  destruct i as [l|n|n|n]; cbn [valid_item expand_item]; intros H;
    rewrite length_app; try rewrite repeat_length; cbn [length];
    [lia| | |].
  - apply andb_true_iff in H. destruct H as [H _].
    apply andb_true_iff in H. destruct H as [H _].
    apply andb_true_iff in H. destruct H as [H _].
    apply Z.leb_le in H. lia.
  - apply andb_true_iff in H. destruct H as [H _].
    apply andb_true_iff in H. destruct H as [H _].
    apply Z.leb_le in H. lia.
  - apply andb_true_iff in H. destruct H as [H _].
    apply andb_true_iff in H. destruct H as [H _].
    apply Z.leb_le in H. lia.
Qed.

Lemma expand_items_grow cl : forall its acc,
  valid_items cl its acc = true ->
  (length acc <= length (fold_left expand_item its acc))%nat.
Proof.
  induction its as [|i its IH]; intros acc H; [cbn; lia|].
  cbn [valid_items] in H. apply andb_true_iff in H. destruct H as [Hi H].
  cbn [fold_left]. specialize (IH _ H).
  pose proof (expand_item_grows cl acc i Hi). lia.
Qed.

Lemma rev_repeat {A} (x : A) n : rev (repeat x n) = repeat x n.
Proof.
  induction n as [|n IH]; [reflexivity|].
  cbn [repeat rev]. rewrite IH.
  change [x] with (repeat x 1). rewrite <- repeat_app.
  now replace (n + 1)%nat with (S n) by lia.
Qed.

Lemma last_rev {A} (acc : list A) x r d : rev acc = x :: r -> last acc d = x.
Proof.
  intros H. apply (f_equal (@rev A)) in H. rewrite rev_involutive in H.
  subst acc. cbn [rev]. apply last_last.
Qed.

Section Lengths.
Variable cl : list Z.
Hypothesis cl_complete : complete cl = true.

Lemma decode_cl sym rest :
  used cl sym = true ->
  decode (fst (construct cl)) (code_of cl sym ++ rest)
  = Some (Z.of_nat sym, rest).
Proof.
  intros H. destruct (complete_parts _ cl_complete) as [Hok Hk].
  apply decode_code; auto; [lia|now apply used_in_range].
Qed.

(** The run-length encoded code lengths are read back. *)
Lemma read_lengths_items total : forall its fuel rest acc,
  valid_items cl its acc = true ->
  Z.of_nat (length (fold_left expand_item its acc)) = total ->
  (Z.to_nat total - length acc <= fuel)%nat ->
  read_lengths fuel (fst (construct cl)) total
    (flat_map (write_item cl) its ++ rest) (rev acc)
  = Some (fold_left expand_item its acc, rest).
Proof.
  induction its as [|i its IH]; intros fuel rest acc Hv Ht Hf.
  - cbn [fold_left] in Ht. cbn [flat_map app fold_left].
    destruct fuel; cbn [read_lengths]; rewrite length_rev;
      replace (total <=? Z.of_nat (length acc)) with true
        by (symmetry; apply Z.leb_le; lia);
      now rewrite rev_involutive.
  - cbn [valid_items] in Hv. apply andb_true_iff in Hv.
    destruct Hv as [Hi Hv]. cbn [fold_left] in Ht |- *.
    pose proof (expand_item_grows cl acc i Hi) as Hg.
    pose proof (expand_items_grow cl its _ Hv) as Hgg.
    destruct fuel as [|fuel]; [lia|].
    cbn [flat_map read_lengths]. rewrite length_rev.
    replace (total <=? Z.of_nat (length acc)) with false
      by (symmetry; apply Z.leb_gt; lia).
    rewrite <- app_assoc.
    assert (Hf' : (Z.to_nat total - length (expand_item acc i) <= fuel)%nat)
      by lia.
    specialize (IH fuel rest (expand_item acc i) Hv Ht Hf').
    destruct i as [l|n|n|n]; cbn [valid_item] in Hi;
      cbn [write_item expand_item] in *;
      repeat (apply andb_true_iff in Hi; destruct Hi as [Hi ?]);
      repeat match goal with
             | H : (_ <=? _) = true |- _ => apply Z.leb_le in H
             end;
      try rewrite <- app_assoc.
    + rewrite decode_cl by assumption. rewrite Z2Nat.id by lia.
      replace (l <? 16) with true by (symmetry; apply Z.ltb_lt; lia).
      rewrite rev_app_distr in IH. exact IH.
    + rewrite decode_cl by assumption.
      change (Z.of_nat 16 <? 16) with false. change (Z.of_nat 16 =? 16) with true.
      cbv iota.
      destruct (rev acc) as [|x r] eqn:Er.
      { apply (f_equal (@length Z)) in Er. rewrite length_rev in Er.
        match goal with
        | H : negb _ = true |- _ =>
            apply negb_true_iff, Nat.eqb_neq in H; cbn in Er; lia
        end. }
      rewrite bits_lsb_bits by (change (2 ^ Z.of_nat 2) with 4; lia).
      rewrite length_app, repeat_length in Hg, Hgg.
      replace (3 + (n - 3)) with n by lia.
      replace (total <? Z.of_nat (length acc) + n) with false
        by (symmetry; apply Z.ltb_ge; lia).
      rewrite rev_app_distr, rev_repeat, Er in IH.
      rewrite (last_rev acc x r 0 Er) in IH.
      rewrite (last_rev acc x r 0 Er). exact IH.
    + rewrite decode_cl by assumption.
      change (Z.of_nat 17 <? 16) with false.
      change (Z.of_nat 17 =? 16) with false.
      change (Z.of_nat 17 =? 17) with true. cbv iota.
      rewrite bits_lsb_bits by (change (2 ^ Z.of_nat 3) with 8; lia).
      rewrite length_app, repeat_length in Hg, Hgg.
      replace (3 + (n - 3)) with n by lia.
      replace (total <? Z.of_nat (length acc) + n) with false
        by (symmetry; apply Z.ltb_ge; lia).
      rewrite rev_app_distr, rev_repeat in IH. exact IH.
    + rewrite decode_cl by assumption.
      change (Z.of_nat 18 <? 16) with false.
      change (Z.of_nat 18 =? 16) with false.
      change (Z.of_nat 18 =? 17) with false. cbv iota.
      rewrite bits_lsb_bits by (change (2 ^ Z.of_nat 7) with 128; lia).
      rewrite length_app, repeat_length in Hg, Hgg.
      replace (11 + (n - 11)) with n by lia.
      replace (total <? Z.of_nat (length acc) + n) with false
        by (symmetry; apply Z.ltb_ge; lia).
      rewrite rev_app_distr, rev_repeat in IH. exact IH.
Qed.

End Lengths.

Lemma valid_header_parts h :
  valid_header h = true ->
  length (cl h) = 19%nat /\
  forallb (fun l => (0 <=? l) && (l <=? 7)) (cl h) = true /\
  complete (cl h) = true /\
  (4 <= hclen h <= 19)%nat /\
  forallb (fun sym => nth sym (cl h) 0 =? 0) (skipn (hclen h) cl_order) = true /\
  (257 <= hlit h <= 286)%nat /\ (1 <= hdist h <= 30)%nat /\
  valid_items (cl h) (items h) [] = true /\
  length (expand_items (items h)) = (hlit h + hdist h)%nat /\
  complete (lit_lengths h) = true /\ used (lit_lengths h) 256 = true /\
  complete (dist_lengths h) = true.
Proof.
  unfold valid_header. intros H.
  repeat (apply andb_true_iff in H; destruct H as [H ?]).
  repeat match goal with
         | H : (_ =? _)%nat = true |- _ => apply Nat.eqb_eq in H
         | H : (_ <=? _)%nat = true |- _ => apply Nat.leb_le in H
         end.
  repeat split; assumption.
Qed.

(** A dynamic block: the header and the symbols are read back. *)
Lemma dynamic_written h syms rest out :
  valid_header h = true ->
  valid_symbols (lit_lengths h) (dist_lengths h) syms out = true ->
  dynamic
    (write_header h ++ write_symbols (lit_lengths h) (dist_lengths h) syms
     ++ rest) (rev out)
  = Some (rest, rev (expand_symbols syms out)).
Proof.
  intros Hh Hs.
  destruct (valid_header_parts h Hh)
    as (Hcl & Hsmall & Hcc & Hn & Hz & Hlit & Hdist & Hit & Hlen & Hlc & Hend
        & Hdc).
  unfold dynamic, write_header. rewrite <- !app_assoc.
  rewrite bits_lsb_bits by (change (2 ^ Z.of_nat 5) with 32; lia).
  rewrite bits_lsb_bits by (change (2 ^ Z.of_nat 5) with 32; lia).
  rewrite bits_lsb_bits by (change (2 ^ Z.of_nat 4) with 16; lia).
  replace (Z.of_nat (hlit h) - 257 + 257) with (Z.of_nat (hlit h)) by lia.
  replace (Z.of_nat (hdist h) - 1 + 1) with (Z.of_nat (hdist h)) by lia.
  replace (Z.of_nat (hclen h) - 4 + 4) with (Z.of_nat (hclen h)) by lia.
  unfold MAXLCODES, MAXDCODES.
  replace (286 <? Z.of_nat (hlit h)) with false
    by (symmetry; apply Z.ltb_ge; lia).
  replace (30 <? Z.of_nat (hdist h)) with false
    by (symmetry; apply Z.ltb_ge; lia).
  cbn [orb]. rewrite Nat2Z.id.
  assert (Hfn : length (firstn (hclen h) cl_order) = hclen h).
  { rewrite length_firstn. change (length cl_order) with 19%nat. lia. }
  rewrite <- Hfn at 1.
  rewrite read_ncode_written by (now apply small_lengths_map).
  cbn [rev app].
  rewrite permute_order_written by (auto; lia).
  pose proof (construct_complete (cl h) Hcc) as Ecl.
  destruct (construct (cl h)) as [clcode err] eqn:Ec. cbn [snd] in Ecl.
  subst err. cbn [Z.eqb negb].
  replace clcode with (fst (construct (cl h))) by now rewrite Ec.
  change (@nil Z) with (@rev Z []) at 1.
  rewrite (read_lengths_items (cl h) Hcc
             (Z.of_nat (hlit h) + Z.of_nat (hdist h)));
    [|exact Hit|unfold expand_items in Hlen; rewrite Hlen; lia|cbn [length]; lia].
  fold (expand_items (items h)).
  assert (E256 : (nthZ (expand_items (items h)) 256 =? 0) = false).
  { apply Z.eqb_neq. unfold used, lit_lengths in Hend.
    apply Z.leb_le in Hend. unfold nthZ.
    change (Z.to_nat 256) with 256%nat.
    rewrite <- (firstn_skipn (hlit h) (expand_items (items h))).
    rewrite app_nth1; [lia|].
    rewrite length_firstn, Hlen. lia. }
  rewrite E256, !Nat2Z.id.
  fold (lit_lengths h). fold (dist_lengths h).
  pose proof (construct_complete _ Hlc) as El.
  pose proof (construct_complete _ Hdc) as Ed.
  destruct (construct (lit_lengths h)) as [lencode lerr] eqn:Ell.
  destruct (construct (dist_lengths h)) as [distcode derr] eqn:Edl.
  cbn [snd] in El, Ed. subst lerr derr. cbn [Z.eqb negb andb].
  replace lencode with (fst (construct (lit_lengths h))) by now rewrite Ell.
  replace distcode with (fst (construct (dist_lengths h))) by now rewrite Edl.
  destruct (complete_parts _ Hlc) as [Hlok Hlk].
  destruct (complete_parts _ Hdc) as [Hdok Hdk].
  apply codes_symbols; auto; lia.
Qed.

End HeaderFacts.

Module BlocksFacts.
Import Zlib Deflate HuffmanFacts CodesFacts HeaderFacts.

Lemma take_bytes_written : forall data rest out,
  forallb is_byte data = true ->
  take_bytes (length data) (flat_map (lsb_bits 8) data ++ rest) out
  = Some (rest, rev data ++ out).
Proof.
  induction data as [|b data IH]; intros rest out Hb; [reflexivity|].
  cbn [forallb] in Hb. apply andb_true_iff in Hb. destruct Hb as [Hb Hd].
  unfold is_byte in Hb. apply andb_true_iff in Hb. destruct Hb as [H0 H1].
  apply Z.leb_le in H0. apply Z.ltb_lt in H1.
  cbn [length flat_map take_bytes]. rewrite <- app_assoc.
  rewrite bits_lsb_bits by (change (2 ^ Z.of_nat 8) with 256; lia).
  rewrite IH by exact Hd. cbn [rev]. now rewrite <- app_assoc.
Qed.

Lemma padding_length pos : length (padding pos) = ((8 - pos mod 8) mod 8)%nat.
Proof. apply repeat_length. Qed.

Lemma padding_mod pos n :
  ((pos + ((8 - pos mod 8) mod 8 + n)) mod 8 = 0)%nat ->
  (((8 - pos mod 8) mod 8 + n) mod 8 = (8 - pos mod 8) mod 8)%nat.
Proof.
  intros H.
  pose proof (Nat.div_mod_eq pos 8) as E.
  pose proof (Nat.mod_upper_bound pos 8 ltac:(lia)) as B.
  set (p := (pos mod 8)%nat) in *. set (q := (pos / 8)%nat) in *.
  pose proof (Nat.div_mod_eq ((8 - p)) 8) as E1.
  pose proof (Nat.mod_upper_bound (8 - p) 8 ltac:(lia)) as B1.
  set (k := ((8 - p) mod 8)%nat) in *.
  pose proof (Nat.div_mod_eq (pos + (k + n)) 8) as E2.
  rewrite H in E2.
  pose proof (Nat.div_mod_eq (k + n) 8) as E3.
  pose proof (Nat.mod_upper_bound (k + n) 8 ltac:(lia)) as B3.
  set (r := ((k + n) mod 8)%nat) in *.
  lia.
Qed.

(** After the padding the stream is at a byte boundary. *)
Lemma align_padding pos s :
  ((pos + length (padding pos ++ s)) mod 8 = 0)%nat ->
  align (padding pos ++ s) = s.
Proof.
  intros H. unfold align.
  rewrite length_app, padding_length in *.
  rewrite (padding_mod pos (length s) H).
  rewrite <- (padding_length pos).
  now rewrite skipn_app, skipn_all, Nat.sub_diag.
Qed.

Lemma stored_written pos data rest out :
  Z.of_nat (length data) <= 65535 ->
  forallb is_byte data = true ->
  ((pos + length (write_body pos (Stored data) ++ rest)) mod 8 = 0)%nat ->
  stored (write_body pos (Stored data) ++ rest) out
  = Some (rest, rev data ++ out).
Proof.
  intros Hl Hb Ha. unfold stored. cbn [write_body] in *.
  rewrite <- !app_assoc in *.
  rewrite align_padding by exact Ha.
  rewrite bits_lsb_bits by (change (2 ^ Z.of_nat 16) with 65536; lia).
  rewrite bits_lsb_bits by (change (2 ^ Z.of_nat 16) with 65536; lia).
  rewrite StoredFacts.lxor_ffff by lia. rewrite Z.eqb_refl.
  rewrite Nat2Z.id. now apply take_bytes_written.
Qed.

Lemma fixed_codes :
  lengths_ok fixed_ll = true /\ kraft fixed_ll <= 2 ^ 15 /\
  lengths_ok fixed_dl = true /\ kraft fixed_dl <= 2 ^ 15 /\
  used fixed_ll 256 = true.
Proof. repeat split; vm_compute; congruence. Qed.

Lemma fixed_written syms rest out fuel :
  valid_symbols fixed_ll fixed_dl syms out = true ->
  (length (write_symbols fixed_ll fixed_dl syms ++ rest) < fuel)%nat ->
  codes fuel fixed_lencode fixed_distcode
    (write_symbols fixed_ll fixed_dl syms ++ rest) (rev out)
  = Some (rest, rev (expand_symbols syms out)).
Proof.
  intros Hv Hf.
  destruct fixed_codes as (H1 & H2 & H3 & H4 & H5).
  change fixed_lencode with (fst (construct fixed_ll)).
  change fixed_distcode with (fst (construct fixed_dl)).
  now apply codes_symbols.
Qed.

(** The body of a block of each type is read back. *)
Lemma body_written b pos rest out :
  valid_block out b = true ->
  ((pos + length (write_body pos b ++ rest)) mod 8 = 0)%nat ->
  (if block_type b =? 0 then stored (write_body pos b ++ rest) (rev out)
   else if block_type b =? 1
   then codes (S (length (write_body pos b ++ rest)))
          fixed_lencode fixed_distcode (write_body pos b ++ rest) (rev out)
   else if block_type b =? 2 then dynamic (write_body pos b ++ rest) (rev out)
   else None)
  = Some (rest, rev (expand_block out b)).
Proof.
  intros Hv Ha. destruct b as [data|syms|h syms]; cbn [block_type Z.eqb].
  - cbn [valid_block] in Hv. apply andb_true_iff in Hv.
    destruct Hv as [Hl Hb]. apply Z.leb_le in Hl.
    rewrite stored_written by (auto; lia).
    cbn [expand_block]. now rewrite rev_app_distr.
  - cbn [valid_block write_body expand_block] in *.
    apply fixed_written; [exact Hv|lia].
  - cbn [valid_block write_body expand_block] in *.
    apply andb_true_iff in Hv. destruct Hv as [Hh Hs].
    rewrite <- app_assoc. now apply dynamic_written.
Qed.

Lemma block_type_bits b rest :
  bits 2 (lsb_bits 2 (block_type b) ++ rest) = Some (block_type b, rest).
Proof.
  apply bits_lsb_bits. destruct b; cbn; lia.
Qed.

Lemma bits_1_cons b s : bits 1 (b :: s) = Some (Z.b2z b, s).
Proof. cbn [bits]. f_equal. f_equal. lia. Qed.

(** The blocks of a stream are read back, one after the other. *)
Lemma blocks_written : forall bs pos rest out fuel,
  bs <> [] ->
  valid_blocks bs out = true ->
  ((pos + length (write_blocks pos bs ++ rest)) mod 8 = 0)%nat ->
  (length (write_blocks pos bs ++ rest) < fuel)%nat ->
  blocks fuel (write_blocks pos bs ++ rest) (rev out)
  = Some (rest, rev (fold_left expand_block bs out)).
Proof.
  induction bs as [|b bs IH]; intros pos rest out fuel Hne Hv Ha Hf;
    [congruence|].
  cbn [valid_blocks] in Hv. apply andb_true_iff in Hv. destruct Hv as [Hb Hv].
  cbn [write_blocks fold_left] in *.
  set (final := match bs with [] => true | _ :: _ => false end) in *.
  set (this := final :: lsb_bits 2 (block_type b) ++ write_body (pos + 3) b)
    in *.
  assert (Hthis : length this
                  = (3 + length (write_body (pos + 3) b))%nat).
  { unfold this. cbn [length]. rewrite length_app, lsb_bits_length. lia. }
  destruct fuel as [|fuel]; [lia|].
  unfold this at 1. cbn [app blocks].
  rewrite bits_1_cons. rewrite <- !app_assoc.
  rewrite block_type_bits.
  assert (Ha' : ((pos + 3
                  + length (write_body (pos + 3) b
                            ++ write_blocks (pos + length this) bs ++ rest))
                 mod 8 = 0)%nat).
  { etransitivity; [|exact Ha]. f_equal. rewrite !length_app, Hthis. lia. }
  rewrite (body_written b (pos + 3)
             (write_blocks (pos + length this) bs ++ rest) out Hb Ha').
  destruct bs as [|b' bs'].
  - cbn [final Z.b2z Z.eqb write_blocks app fold_left]. reflexivity.
  - cbn [final Z.b2z Z.eqb].
    apply IH; [discriminate|exact Hv| |].
    + etransitivity; [|exact Ha]. f_equal.
      rewrite !length_app. lia.
    + rewrite !length_app in Hf. rewrite length_app. lia.
Qed.

End BlocksFacts.

Module StreamFacts.
Import Zlib Deflate HuffmanFacts BlocksFacts.

Lemma pack_bits_nil fuel : pack_bits fuel [] = [].
Proof. now destruct fuel. Qed.

Lemma byte_of_bits b0 b1 b2 b3 b4 b5 b6 b7 :
  byte_bits (byte_of [b0; b1; b2; b3; b4; b5; b6; b7])
  = [b0; b1; b2; b3; b4; b5; b6; b7].
Proof.
  destruct b0, b1, b2, b3, b4, b5, b6, b7; reflexivity.
Qed.

Lemma padding_shift n : padding (8 + n) = padding n.
Proof.
  unfold padding. f_equal.
  replace (8 + n)%nat with (n + 1 * 8)%nat by lia.
  now rewrite Nat.Div0.mod_add.
Qed.

(** The bytes of a bit string hold its bits, then zeros up to the byte
    boundary. *)
Lemma to_bits_pack_bits : forall fuel bs,
  (length bs <= fuel)%nat ->
  to_bits (pack_bits fuel bs) = bs ++ padding (length bs).
Proof.
  induction fuel as [|fuel IH]; intros bs Hf.
  - destruct bs; [reflexivity|cbn in Hf; lia].
  - destruct bs as [|b0 bs]; [reflexivity|].
    cbn [pack_bits]. rewrite StoredFacts.to_bits_cons.
    destruct bs as [|b1 [|b2 [|b3 [|b4 [|b5 [|b6 [|b7 tl]]]]]]];
      try (cbn [firstn skipn]; rewrite pack_bits_nil;
           destruct b0; try destruct b1; try destruct b2; try destruct b3;
           try destruct b4; try destruct b5; try destruct b6; reflexivity).
    cbn [firstn skipn]. rewrite byte_of_bits.
    rewrite IH by (cbn [length] in Hf; lia).
    cbn [length app].
    change (S (S (S (S (S (S (S (S (length tl)))))))))
      with (8 + length tl)%nat.
    now rewrite padding_shift.
Qed.

Lemma to_bits_pack bs : to_bits (pack bs) = bs ++ padding (length bs).
Proof. apply to_bits_pack_bits. lia. Qed.

Lemma lor_shift_16 a b :
  0 <= a < 65536 -> 0 <= b -> Z.lor (Z.shiftl b 16) a = b * 65536 + a.
Proof.
  intros Ha Hb.
  assert (H : Z.land (Z.shiftl b 16) a = 0).
  { apply Z.bits_inj'. intros n Hn. rewrite Z.land_spec, Z.bits_0.
    destruct (Z.lt_ge_cases n 16) as [Hlt|Hge].
    - now rewrite Z.shiftl_spec_low by lia.
    - rewrite <- (Z.mod_small a (2 ^ 16)) by (change (2 ^ 16) with 65536; lia).
      rewrite Z.mod_pow2_bits_high by lia. apply andb_false_r. }
  rewrite <- Z.lxor_lor by exact H.
  rewrite <- Z.add_nocarry_lxor by exact H.
  rewrite Z.shiftl_mul_pow2 by lia. reflexivity.
Qed.

Lemma adler32_same data : Deflate.adler32 data = Zlib.adler32 data.
Proof.
  unfold Deflate.adler32, Zlib.adler32, BASE.
  assert (G : forall l a0 b0, 0 <= a0 < 65521 -> 0 <= b0 < 65521 ->
            let '(a, b) :=
              fold_left (fun '(a, b) x =>
                let a' := (a + x) mod 65521 in (a', (b + a') mod 65521))
                l (a0, b0) in
            0 <= a < 65521 /\ 0 <= b < 65521).
  { induction l as [|x l IHl]; intros a1 b1 Ha Hb; cbn [fold_left]; [auto|].
    apply IHl; apply Z.mod_pos_bound; lia. }
  specialize (G data 1 0 ltac:(lia) ltac:(lia)).
  destruct (fold_left _ data (1, 0)) as [a b].
  destruct G as [Ha Hb]. symmetry. apply lor_shift_16; lia.
Qed.

Lemma is_byte_bounds b : is_byte b = true -> 0 <= b < 256.
Proof.
  unfold is_byte. rewrite andb_true_iff, Z.leb_le, Z.ltb_lt. lia.
Qed.

Lemma take_check_value b3 b2 b1 b0 :
  forallb is_byte [b3; b2; b1; b0] = true ->
  take_bytes 4 (to_bits [b3; b2; b1; b0]) [] = Some ([], [b0; b1; b2; b3]).
Proof.
  intros H. cbn [forallb] in H.
  apply andb_true_iff in H. destruct H as [H3 H].
  apply andb_true_iff in H. destruct H as [H2 H].
  apply andb_true_iff in H. destruct H as [H1 H].
  apply andb_true_iff in H. destruct H as [H0 _].
  apply is_byte_bounds in H3, H2, H1, H0.
  cbn [take_bytes]. rewrite !StoredFacts.to_bits_cons.
  rewrite !StoredFacts.bits8_byte by lia. reflexivity.
Qed.

(** [zlib.decompress] on the stream of any valid choice of blocks gives
    the bytes that the blocks stand for. *)
Lemma decompress_zlib_stream cmf flg blocks :
  header_ok cmf flg = true ->
  valid blocks = true ->
  decompress (zlib_stream cmf flg blocks) = Exn.Ok (expand blocks).
Proof.
  intros Hh Hv. unfold valid in Hv. apply andb_true_iff in Hv.
  destruct Hv as [Hne Hv]. apply negb_true_iff, Nat.eqb_neq in Hne.
  assert (Hne' : blocks <> []) by (intros ->; now apply Hne).
  unfold decompress, decompress_opt, zlib_stream. cbn [app]. rewrite Hh.
  set (v := Deflate.adler32 (expand blocks)).
  set (check := [v / 16777216 mod 256; v / 65536 mod 256; v / 256 mod 256;
                 v mod 256]).
  rewrite StoredFacts.to_bits_app, to_bits_pack, <- app_assoc.
  set (W := write blocks).
  assert (Hal : ((0 + length (W ++ padding (length W) ++ to_bits check))
                 mod 8 = 0)%nat).
  { rewrite Nat.add_0_l, app_assoc, <- to_bits_pack,
      <- StoredFacts.to_bits_app, StoredFacts.to_bits_length.
    apply Nat.Div0.mod_mul. }
  unfold inflate.
  pose proof (blocks_written blocks 0 (padding (length W) ++ to_bits check)
                [] (S (length (W ++ padding (length W) ++ to_bits check)))
                Hne' Hv Hal (Nat.lt_succ_diag_r _)) as Hb.
  cbn [rev] in Hb. fold (write blocks) in Hb. fold W in Hb. rewrite Hb.
  rewrite rev_involutive. fold (expand blocks).
  rewrite align_padding.
  - assert (Hc : forallb is_byte check = true).
    { unfold check, is_byte. cbn [forallb].
      repeat (apply andb_true_iff; split); try reflexivity;
        try (apply Z.leb_le; apply Z.mod_pos_bound; lia);
        try (apply Z.ltb_lt; apply Z.mod_pos_bound; lia). }
    unfold check in *. rewrite take_check_value by exact Hc.
    pose proof (StoredFacts.adler32_range (expand blocks)) as Hr.
    rewrite <- adler32_same in Hr. fold v in Hr.
    rewrite (StoredFacts.be32_value v Hr), <- adler32_same. fold v.
    now rewrite Z.eqb_refl.
  - rewrite Nat.add_0_l, length_app in Hal.
    etransitivity; [|exact Hal]. f_equal.
Qed.

End StreamFacts.

Module WriterFacts.
Import Zlib Deflate StreamFacts.

Lemma byte_of_range : forall bs,
  (length bs <= 8)%nat -> 0 <= byte_of bs < 2 ^ Z.of_nat (length bs).
Proof.
  induction bs as [|b bs IH]; intros H; [cbn; lia|].
  cbn [length] in *. specialize (IH ltac:(lia)).
  cbn [byte_of]. rewrite Nat2Z.inj_succ, Z.pow_succ_r by lia.
  destruct b; cbn [Z.b2z]; lia.
Qed.

Lemma pack_bits_bytes : forall fuel bs,
  forallb is_byte (pack_bits fuel bs) = true.
Proof.
  induction fuel as [|fuel IH]; intros bs; [reflexivity|].
  destruct bs as [|b bs]; [reflexivity|].
  cbn [pack_bits forallb]. rewrite IH, andb_true_r.
  pose proof (byte_of_range (firstn 8 (b :: bs))
                ltac:(rewrite length_firstn; lia)) as H.
  assert (Hp : 2 ^ Z.of_nat (length (firstn 8 (b :: bs))) <= 2 ^ 8)
    by (apply Z.pow_le_mono_r; [lia|rewrite length_firstn; lia]).
  unfold is_byte. apply andb_true_iff.
  rewrite Z.leb_le, Z.ltb_lt. change (2 ^ 8) with 256 in Hp. lia.
Qed.

Lemma zlib_stream_bytes cmf flg blocks :
  is_byte cmf = true -> is_byte flg = true ->
  forallb is_byte (zlib_stream cmf flg blocks) = true.
Proof.
  intros Hc Hf. unfold zlib_stream.
  cbn [app forallb]. rewrite Hc, Hf. cbn [andb].
  rewrite forallb_app. unfold pack. rewrite pack_bits_bytes.
  exact (StoredFacts.be32_bytes (Deflate.adler32 (expand blocks))).
Qed.

(** ** The writer of literal blocks *)

Lemma literal_used b :
  0 <= b < 256 -> used fixed_ll (Z.to_nat b) = true.
Proof.
  intros Hb.
  assert (H : forallb (fun x => used fixed_ll (Z.to_nat x))
                (map Z.of_nat (seq 0 256)) = true) by (vm_compute; reflexivity).
  exact (Brute.forall_below (fun x => used fixed_ll (Z.to_nat x)) 256 H b
           ltac:(lia)).
Qed.

Lemma literals_valid : forall data out,
  forallb is_byte data = true ->
  valid_symbols fixed_ll fixed_dl (map Literal data) out = true.
Proof.
  induction data as [|b data IH]; intros out H; [reflexivity|].
  cbn [forallb] in H. apply andb_true_iff in H. destruct H as [Hb Hd].
  cbn [map valid_symbols valid_symbol]. rewrite IH by exact Hd.
  apply is_byte_bounds in Hb.
  rewrite literal_used by exact Hb.
  replace (0 <=? b) with true by (symmetry; apply Z.leb_le; lia).
  replace (b <? 256) with true by (symmetry; apply Z.ltb_lt; lia).
  reflexivity.
Qed.

Lemma literals_expand : forall data out,
  expand_symbols (map Literal data) out = out ++ data.
Proof.
  induction data as [|b data IH]; intros out; cbn [map expand_symbols fold_left].
  - now rewrite app_nil_r.
  - change (fold_left expand_symbol (map Literal data) (expand_symbol out (Literal b)))
      with (expand_symbols (map Literal data) (expand_symbol out (Literal b))).
    rewrite IH. cbn [expand_symbol]. now rewrite <- app_assoc.
Qed.

Lemma literal_block_valid data :
  forallb is_byte data = true -> valid (literal_block data) = true.
Proof.
  intros H. unfold valid, literal_block.
  cbn [length Nat.eqb negb andb valid_blocks valid_block].
  now rewrite literals_valid.
Qed.

Lemma literal_block_expand data : expand (literal_block data) = data.
Proof.
  unfold expand, literal_block. cbn [fold_left expand_block].
  apply (literals_expand data []).
Qed.

End WriterFacts.

(* ================================================================== *)
(** * What [decode_viewstate] returns *)

Module DecodeFacts.
Import Re Text Brute Base64Facts CodecFacts ZlibFacts.

Lemma text_step_latin1 buffer :
  forallb is_byte buffer = true ->
  (try Codec.utf8_decode buffer
   except CUnicodeDecodeError => Codec.latin1_decode buffer)
  = Ok (text_of_bytes buffer).
Proof.
  intros Hb. unfold text_of_bytes.
  destruct (Codec.utf8_decode buffer) as [t|e] eqn:E; [reflexivity|].
  apply (utf8_decode_exn (length buffer) _ _ (le_n _)) in E. subst e.
  cbn. now apply latin1_decode_bytes.
Qed.

(** After a successful base64 step the outcome is the text of the
    decompressed bytes or, failing decompression, of the decoded bytes. *)
Lemma decode_viewstate_decoded html m decoded_bytes :
  Re.search VIEWSTATE_RE html IGNORECASE = Some m ->
  Base64.b64decode (Re.group m 1) = Ok decoded_bytes ->
  decode_viewstate html =
  Ok (match Zlib.decompress decoded_bytes with
      | Ok decompressed_bytes => DecodedZlib (text_of_bytes decompressed_bytes)
      | Raise _ => DecodedRaw (text_of_bytes decoded_bytes)
      end).
Proof.
  intros Hm Hb. unfold decode_viewstate. rewrite Hm, Hb. cbn [bind].
  pose proof (b64decode_bytes _ _ Hb) as Hbytes.
  destruct (Zlib.decompress decoded_bytes) as [z|e] eqn:Ez.
  - cbn [bind]. rewrite (text_step_latin1 z (decompress_bytes _ _ Ez)).
    reflexivity.
  - apply decompress_exn in Ez. subst e. cbn [bind try_except isinstance].
    unfold text_of_bytes.
    destruct (Codec.utf8_decode decoded_bytes) as [t|e] eqn:E; [reflexivity|].
    apply (utf8_decode_exn (length decoded_bytes) _ _ (le_n _)) in E. subst e.
    cbn. now rewrite latin1_decode_bytes.
Qed.

Lemma decode_viewstate_not_found html :
  Re.search VIEWSTATE_RE html IGNORECASE = None ->
  decode_viewstate html = Ok NotFound.
Proof. intros H. unfold decode_viewstate. now rewrite H. Qed.

Lemma decode_viewstate_b64_error html m e :
  Re.search VIEWSTATE_RE html IGNORECASE = Some m ->
  Base64.b64decode (Re.group m 1) = Raise e ->
  decode_viewstate html =
  Ok (match e with BinasciiError => InvalidEncoding | _ => UnexpectedError end).
Proof.
  intros Hm Hb. unfold decode_viewstate. rewrite Hm, Hb.
  now destruct e.
Qed.

(** The pipeline on the minimal attribute string around a zlib stream. *)
Lemma round_trip_stream text compressed :
  forallb Codec.is_scalar text = true ->
  forallb is_byte compressed = true ->
  Zlib.decompress compressed = Ok (Codec.utf8_encode text) ->
  decode_viewstate (minimal_input (Base64.b64encode compressed))
  = Ok (DecodedZlib text).
Proof.
  intros Ht Hc Hz.
  pose proof (Base64Facts.b64encode_plain _ compressed (le_n _) Hc) as Hp.
  assert (Hq : no_char DQUOTE (Base64.b64encode compressed) = true).
  { unfold no_char. revert Hp. apply Base64Facts.forallb_impl.
    unfold Base64.plain. intros x H. now apply andb_true_iff in H. }
  assert (Hs : exists m,
             search VIEWSTATE_RE
               (minimal_input (Base64.b64encode compressed)) IGNORECASE
             = Some m /\ group m 1 = Base64.b64encode compressed).
  { apply (ViewstateFacts.viewstate_search (lit "<input ") NAME_ATTR (lit " ")
             VALUE_OPEN (Base64.b64encode compressed) (lit " />")).
    - lazy. reflexivity.
    - reflexivity.
    - reflexivity.
    - reflexivity.
    - exact Hq.
    - apply ViewstateFacts.one_quote_no_value; [exact Hq|reflexivity]. }
  destruct Hs as (m & Hm & Hg).
  rewrite (decode_viewstate_decoded _ m compressed Hm).
  - rewrite Hz. unfold text_of_bytes.
    now rewrite CodecFacts.utf8_decode_utf8_encode.
  - rewrite Hg. now apply Base64Facts.b64decode_b64encode.
Qed.

End DecodeFacts.

(* ================================================================== *)
(** * More about the search for the PIN *)

Module PinMore.
Import Re Text.

Lemma starts_with_firstn ic l : forall s,
  starts_with ic l s = true ->
  same_literal ic l (firstn (length l) s) = true.
Proof.
  induction l as [|c l IH]; intros s H.
  - reflexivity.
  - destruct s as [|ch s]; [discriminate|]. cbn [starts_with] in H.
    apply andb_true_iff in H. destruct H as [Hc Hs].
    specialize (IH s Hs). unfold same_literal in *.
    apply andb_true_iff in IH. destruct IH as [IH1 IH2].
    cbn [length firstn starts_with]. rewrite Hc, IH1. cbn [andb].
    exact IH2.
Qed.

(** What a successful search tells about the text. *)
Lemma pin_search_shape ic : forall s d,
  pin_search ic s = Some d ->
  exists pre label gap rest,
    s = pre ++ label ++ gap ++ d ++ rest /\
    same_literal ic PIN_LABEL label = true /\
    no_char NEWLINE gap = true /\
    six_digits_here (prev_of (label ++ gap) None) (d ++ rest) = true /\
    d = firstn 6 (d ++ rest).
Proof.
  induction s as [|ch s IH]; intros d; cbn [pin_search].
  - destruct (starts_with ic PIN_LABEL []); cbn; discriminate.
  - assert (Step : pin_search ic s = Some d ->
              exists pre label gap rest,
                ch :: s = pre ++ label ++ gap ++ d ++ rest /\
                same_literal ic PIN_LABEL label = true /\
                no_char NEWLINE gap = true /\
                six_digits_here (prev_of (label ++ gap) None) (d ++ rest)
                = true /\
                d = firstn 6 (d ++ rest)).
    { intros H. destruct (IH _ H) as (pre & label & gap & rest & -> & R).
      now exists (ch :: pre), label, gap, rest. }
    destruct (starts_with ic PIN_LABEL (ch :: s)) eqn:Hs; [|exact Step].
    destruct (first_six_digits _ _) as [d'|] eqn:Hd; [|exact Step].
    intros E. assert (d' = d) by congruence. subst d'. clear E Step.
    apply PinFacts.first_six_digits_sound in Hd.
    destruct Hd as (g & rest & E & Hg & Hw & Hf).
    exists [], (firstn 3 (ch :: s)), g, rest.
    split; [|split; [|split; [|split]]].
    + cbn [app]. rewrite <- E. now rewrite firstn_skipn.
    + exact (starts_with_firstn ic PIN_LABEL _ Hs).
    + exact Hg.
    + now rewrite ReFacts.prev_of_app.
    + exact Hf.
Qed.

(** Past characters that are neither digits nor newlines the scan finds
    the run that follows. *)
Lemma first_six_digits_after_gap ds rest : forall gap prev,
  match prev with Some c => is_decimal c = false | None => True end ->
  forallb (fun c => negb (is_decimal c) && negb (c =? NEWLINE)) gap = true ->
  (6 <= length ds)%nat ->
  forallb is_decimal ds = true ->
  first_six_digits prev (gap ++ ds ++ rest) = Some (firstn 6 ds).
Proof.
  induction gap as [|g gap IH]; intros prev Hp Hg H6 Hd.
  - cbn [app].
    assert (Hw : six_digits_here prev (ds ++ rest) = true).
    { unfold six_digits_here.
      replace (match prev with Some c => is_decimal c | None => false end)
        with false by (destruct prev; auto).
      cbn [negb andb]. rewrite length_app.
      replace (6 <=? length ds + length rest)%nat with true
        by (symmetry; apply Nat.leb_le; lia).
      cbn [andb]. rewrite firstn_app.
      replace (6 - length ds)%nat with 0%nat by lia.
      cbn [firstn]. rewrite app_nil_r.
      rewrite <- (firstn_skipn 6 ds), forallb_app in Hd.
      now apply andb_true_iff in Hd. }
    destruct (ds ++ rest) as [|x xs] eqn:E.
    + apply (f_equal (@length Z)) in E. rewrite length_app in E.
      cbn in E. lia.
    + cbn [first_six_digits]. rewrite Hw. f_equal.
      rewrite <- E, firstn_app.
      replace (6 - length ds)%nat with 0%nat by lia.
      cbn [firstn]. now rewrite app_nil_r.
  - cbn [forallb] in Hg. apply andb_true_iff in Hg. destruct Hg as [Hc Hg].
    apply andb_true_iff in Hc. destruct Hc as [Hnd Hnl].
    apply negb_true_iff in Hnd, Hnl.
    cbn [app first_six_digits].
    assert (Hw : six_digits_here prev (g :: gap ++ ds ++ rest) = false).
    { unfold six_digits_here. cbn [firstn forallb]. rewrite Hnd.
      cbn [andb]. now rewrite andb_false_r. }
    rewrite Hw, Hnl. apply IH; auto.
Qed.

Lemma pin_search_after_gap label gap ds rest :
  same_literal IGNORECASE PIN_LABEL label = true ->
  forallb (fun c => negb (is_decimal c) && negb (c =? NEWLINE)) gap = true ->
  (6 <= length ds)%nat ->
  forallb is_decimal ds = true ->
  pin_search IGNORECASE (label ++ gap ++ ds ++ rest) = Some (firstn 6 ds).
Proof.
  unfold same_literal. rewrite andb_true_iff. intros [Hs Hl] Hg H6 Hd.
  apply Nat.eqb_eq in Hl. change (length PIN_LABEL) with 3%nat in Hl.
  destruct label as [|a [|b [|c [|? ?]]]]; try discriminate Hl.
  pose proof (PinFacts.starts_with_app _ _ _ (gap ++ ds ++ rest) Hs) as Hs'.
  assert (Hn : is_decimal c = false).
  { change PIN_LABEL with [80; 73; 78] in Hs. cbn [starts_with] in Hs.
    apply andb_true_iff in Hs. destruct Hs as [_ Hs].
    apply andb_true_iff in Hs. destruct Hs as [_ Hs].
    apply andb_true_iff in Hs. destruct Hs as [Hs _].
    eapply PinFacts.label_N_not_decimal. exact Hs. }
  cbn [app] in *. cbn [pin_search]. rewrite Hs'.
  cbn [firstn skipn prev_of fold_left].
  now rewrite first_six_digits_after_gap.
Qed.

Lemma pin_search_no_label ic : forall s,
  first_occurrence ic PIN_LABEL s = None -> pin_search ic s = None.
Proof.
  induction s as [|ch s IH]; intros H; cbn [first_occurrence] in H;
    cbn [pin_search].
  - destruct (starts_with ic PIN_LABEL []); [discriminate|reflexivity].
  - destruct (starts_with ic PIN_LABEL (ch :: s)); [discriminate|].
    apply IH. now destruct (first_occurrence ic PIN_LABEL s).
Qed.

Lemma first_six_digits_none : forall s prev,
  (forall k, six_digits_here None (skipn k s) = false) ->
  first_six_digits prev s = None.
Proof.
  assert (W : forall prev s, six_digits_here None s = false ->
                             six_digits_here prev s = false).
  { intros prev s. unfold six_digits_here. cbn [negb andb].
    intros H. rewrite <- andb_assoc, H. apply andb_false_r. }
  induction s as [|ch s IH]; intros prev H; cbn [first_six_digits];
    pose proof (H O) as H0; cbn [skipn] in H0;
    rewrite (W prev _ H0); [reflexivity|].
  destruct (ch =? NEWLINE); [reflexivity|].
  apply IH. intros k. apply (H (S k)).
Qed.

Lemma pin_search_no_run ic : forall s,
  (forall k, six_digits_here None (skipn k s) = false) ->
  pin_search ic s = None.
Proof.
  induction s as [|ch s IH]; intros H; cbn [pin_search].
  - destruct (starts_with ic PIN_LABEL []); [|reflexivity].
    now rewrite first_six_digits_none.
  - rewrite first_six_digits_none.
    + destruct (starts_with ic PIN_LABEL (ch :: s));
        apply IH; intros k; apply (H (S k)).
    + intros k. rewrite skipn_skipn. apply H.
Qed.

Lemma label_not_newline ic c :
  In c PIN_LABEL -> literal_matches ic c NEWLINE = false.
Proof.
  intros [<-|[<-|[<-|[]]]]; destruct ic; vm_compute; reflexivity.
Qed.

Lemma starts_with_line ic l rest : forall x,
  (forall c, In c l -> literal_matches ic c NEWLINE = false) ->
  starts_with ic l (x ++ NEWLINE :: rest) = starts_with ic l x.
Proof.
  induction l as [|c l IH]; intros x Hl; [reflexivity|].
  destruct x as [|a x]; cbn [app starts_with].
  - rewrite (Hl c) by (left; reflexivity). reflexivity.
  - rewrite IH; [reflexivity|]. intros c' Hc. apply Hl. now right.
Qed.

Lemma six_digits_here_line prev rest x :
  six_digits_here prev (x ++ NEWLINE :: rest) = six_digits_here prev x.
Proof.
  unfold six_digits_here. rewrite <- !andb_assoc. f_equal.
  destruct (Nat.leb_spec 6 (length x)) as [H|H].
  - rewrite length_app.
    replace (6 <=? length x + length (NEWLINE :: rest))%nat with true
      by (symmetry; apply Nat.leb_le; lia).
    rewrite firstn_app. replace (6 - length x)%nat with 0%nat by lia.
    cbn [firstn andb]. now rewrite app_nil_r.
  - rewrite andb_false_l. apply andb_false_iff. right.
    rewrite firstn_app, forallb_app.
    apply andb_false_iff. right.
    destruct (6 - length x)%nat as [|n] eqn:E; [lia|].
    reflexivity.
Qed.

Lemma first_six_digits_line rest : forall x prev,
  first_six_digits prev (x ++ NEWLINE :: rest) = first_six_digits prev x.
Proof.
  induction x as [|a x IH]; intros prev.
  - pose proof (six_digits_here_line prev rest []) as H.
    assert (H0 : six_digits_here prev [] = false).
    { unfold six_digits_here. cbn [length Nat.leb].
      now rewrite andb_false_r. }
    cbn [app] in *. cbn [first_six_digits].
    now rewrite H, H0, Z.eqb_refl.
  - change ((a :: x) ++ NEWLINE :: rest) with (a :: (x ++ NEWLINE :: rest)).
    cbn [first_six_digits].
    change (a :: (x ++ NEWLINE :: rest)) with ((a :: x) ++ NEWLINE :: rest).
    rewrite six_digits_here_line, IH.
    destruct (six_digits_here prev (a :: x)) eqn:Hw; [|reflexivity].
    unfold six_digits_here in Hw.
    apply andb_true_iff in Hw. destruct Hw as [Hw _].
    apply andb_true_iff in Hw. destruct Hw as [_ Hw].
    apply Nat.leb_le in Hw.
    rewrite firstn_app. replace (6 - length (a :: x))%nat with 0%nat by lia.
    cbn [firstn]. now rewrite app_nil_r.
Qed.

(** The search goes line by line. *)
Lemma pin_search_line ic rest : forall x,
  pin_search ic (x ++ NEWLINE :: rest) =
  match pin_search ic x with
  | Some d => Some d
  | None => pin_search ic rest
  end.
Proof.
  induction x as [|a x IH].
  - pose proof (starts_with_line ic PIN_LABEL rest [] (label_not_newline ic))
      as H.
    cbn [app] in *. cbn [pin_search]. rewrite H. reflexivity.
  - change ((a :: x) ++ NEWLINE :: rest) with (a :: (x ++ NEWLINE :: rest)).
    cbn [pin_search].
    change (a :: (x ++ NEWLINE :: rest)) with ((a :: x) ++ NEWLINE :: rest).
    rewrite (starts_with_line ic PIN_LABEL rest (a :: x)
               (label_not_newline ic)).
    destruct (starts_with ic PIN_LABEL (a :: x)) eqn:Hs.
    + apply ReFacts.starts_with_length in Hs.
      change (length PIN_LABEL) with 3%nat in Hs.
      rewrite firstn_app, skipn_app.
      replace (3 - length (a :: x))%nat with 0%nat by lia.
      cbn [firstn skipn]. rewrite app_nil_r, first_six_digits_line.
      destruct (first_six_digits _ _); [reflexivity|exact IH].
    + exact IH.
Qed.

Lemma six_digits_nowhere : forall s,
  six_digits_somewhere s = false ->
  forall k, six_digits_here None (skipn k s) = false.
Proof.
  induction s as [|ch s IH]; intros H k; cbn [six_digits_somewhere] in H;
    apply orb_false_iff in H; destruct H as [H0 H1].
  - now destruct k.
  - destruct k as [|k]; [exact H0|]. cbn [skipn]. now apply IH.
Qed.

Lemma same_literal_length ic l s :
  same_literal ic l s = true -> length s = length l.
Proof.
  unfold same_literal. rewrite andb_true_iff. intros [_ H].
  now apply Nat.eqb_eq in H.
Qed.

End PinMore.

(** * More about the search for the attribute *)

Module ViewstateMore.
Import Re Text.

Lemma until_quote_prefix : forall s,
  firstn (length (until_quote s)) s = until_quote s.
Proof.
  induction s as [|ch s IH]; [reflexivity|]. cbn [until_quote].
  destruct (ch =? DQUOTE); [reflexivity|].
  cbn [length firstn]. now rewrite IH.
Qed.

Lemma group1_value_marks text s a :
  group {| m_string := text; m_marks := value_marks s a [] |} 1 =
  firstn (length (until_quote (skipn 7 s))) (skipn (a + 7) text).
Proof.
  unfold group, value_marks, substring. cbn.
  f_equal. lia.
Qed.

(** The search of [decode_viewstate] computes [captured_value]. *)
Lemma viewstate_search_from ic : forall s pre prev,
  option_map
    (fun ms => group {| m_string := pre ++ s; m_marks := ms |} 1)
    (search_from ic VIEWSTATE_RE prev s (length pre)) =
  captured_value ic s.
Proof.
  induction s as [|ch s IH]; intros pre prev.
  - reflexivity.
  - assert (Next : option_map
               (fun ms => group {| m_string := pre ++ ch :: s;
                                   m_marks := ms |} 1)
               (search_from ic VIEWSTATE_RE (Some ch) s (S (length pre))) =
             captured_value ic s).
    { specialize (IH (pre ++ [ch]) (Some ch)).
      rewrite length_app, <- app_assoc in IH. cbn [length app] in IH.
      rewrite Nat.add_1_r in IH. exact IH. }
    cbn [search_from captured_value].
    rewrite ViewstateFacts.viewstate_match_eq.
    destruct (starts_with ic NAME_ATTR (ch :: s)) eqn:Hs; [|exact Next].
    destruct (last_value_offset ic (skipn 18 (ch :: s))) as [k|];
      cbn [option_map]; [|exact Next].
    rewrite group1_value_marks. f_equal.
    replace (length pre + 18 + k + 7)%nat with (length pre + (7 + (k + 18)))%nat
      by lia.
    rewrite ReFacts.skipn_app_length, <- !skipn_skipn.
    apply until_quote_prefix.
Qed.

Lemma search_captured_value text :
  option_map (fun m => group m 1) (search VIEWSTATE_RE text IGNORECASE)
  = captured_value IGNORECASE text.
Proof.
  unfold search.
  rewrite <- (viewstate_search_from IGNORECASE text [] None).
  cbn [length app].
  now destruct (search_from IGNORECASE VIEWSTATE_RE None text 0).
Qed.

Lemma search_of_captured text v :
  captured_value IGNORECASE text = Some v ->
  exists m, search VIEWSTATE_RE text IGNORECASE = Some m /\ group m 1 = v.
Proof.
  rewrite <- search_captured_value.
  destruct (search VIEWSTATE_RE text IGNORECASE) as [m|]; [|discriminate].
  cbn [option_map]. intros E. exists m. split; congruence.
Qed.

Lemma search_none_of_captured text :
  captured_value IGNORECASE text = None ->
  search VIEWSTATE_RE text IGNORECASE = None.
Proof.
  rewrite <- search_captured_value.
  now destruct (search VIEWSTATE_RE text IGNORECASE).
Qed.

Lemma decode_viewstate_outcome html :
  decode_viewstate html = Ok (outcome_of (captured_value IGNORECASE html)).
Proof.
  destruct (captured_value IGNORECASE html) as [v|] eqn:Hc.
  - destruct (search_of_captured _ _ Hc) as (m & Hm & Hg).
    unfold outcome_of.
    destruct (Base64.b64decode v) as [bytes|e] eqn:Hb; rewrite <- Hg in Hb.
    + apply (DecodeFacts.decode_viewstate_decoded html m bytes Hm Hb).
    + rewrite (DecodeFacts.decode_viewstate_b64_error html m e Hm Hb).
      now destruct e.
  - apply DecodeFacts.decode_viewstate_not_found.
    now apply search_none_of_captured.
Qed.

Lemma captured_value_skip ic : forall pre s,
  first_occurrence ic NAME_ATTR (pre ++ s) = Some (length pre) ->
  captured_value ic (pre ++ s) = captured_value ic s.
Proof.
  induction pre as [|a pre IH]; intros s H; [reflexivity|].
  cbn [app length first_occurrence] in H.
  cbn [app captured_value].
  destruct (starts_with ic NAME_ATTR (a :: pre ++ s)); [discriminate|].
  apply IH.
  destruct (first_occurrence ic NAME_ATTR (pre ++ s)); [|discriminate].
  cbn in H. congruence.
Qed.

Lemma captured_value_no_name ic : forall s,
  first_occurrence ic NAME_ATTR s = None -> captured_value ic s = None.
Proof.
  induction s as [|ch s IH]; intros H; cbn [first_occurrence] in H;
    cbn [captured_value].
  - destruct (starts_with ic NAME_ATTR []); [discriminate|reflexivity].
  - destruct (starts_with ic NAME_ATTR (ch :: s)); [discriminate|].
    apply IH. now destruct (first_occurrence ic NAME_ATTR s).
Qed.

Lemma skipn_length_app {A} (x y : list A) n :
  length x = n -> skipn n (x ++ y) = y.
Proof.
  intros <-. rewrite skipn_app, skipn_all, Nat.sub_diag. reflexivity.
Qed.

(** A single name attribute with no value attribute after it in its
    tag. *)
Lemma captured_value_no_value_after ic pre name post :
  first_occurrence ic NAME_ATTR (pre ++ name ++ post) = Some (length pre) ->
  length name = length NAME_ATTR ->
  first_occurrence ic NAME_ATTR (tl (name ++ post)) = None ->
  somewhere_in_tag (value_attr_here ic) post = false ->
  captured_value ic (pre ++ name ++ post) = None.
Proof.
  intros Hfirst Hlen Honce Hno.
  rewrite captured_value_skip by exact Hfirst.
  pose proof (PinFacts.first_occurrence_here _ _ _ _ Hfirst) as Hs.
  pose proof (skipn_length_app name post 18 Hlen) as Hk.
  destruct (name ++ post) as [|ch s] eqn:E.
  - destruct name; discriminate.
  - cbn [captured_value]. rewrite Hs, Hk.
    rewrite ViewstateFacts.last_value_offset_none by exact Hno.
    cbn [option_map]. cbn [tl] in Honce.
    now apply captured_value_no_name.
Qed.

(** The value inside the minimal attribute string is the one captured. *)
Lemma captured_value_minimal v :
  no_char DQUOTE v = true ->
  captured_value IGNORECASE (minimal_input v) = Some v.
Proof.
  intros Hq.
  assert (Hs : exists m,
             search VIEWSTATE_RE (minimal_input v) IGNORECASE = Some m /\
             group m 1 = v).
  { apply (ViewstateFacts.viewstate_search (lit "<input ") NAME_ATTR (lit " ")
             VALUE_OPEN v (lit " />")).
    - lazy. reflexivity.
    - reflexivity.
    - reflexivity.
    - reflexivity.
    - exact Hq.
    - apply ViewstateFacts.one_quote_no_value; [exact Hq|reflexivity]. }
  destruct Hs as (m & Hm & Hg).
  rewrite <- search_captured_value, Hm. cbn [option_map]. now rewrite Hg.
Qed.

Lemma b64encode_no_quote data :
  forallb is_byte data = true ->
  no_char DQUOTE (Base64.b64encode data) = true.
Proof.
  intros Hb.
  pose proof (Base64Facts.b64encode_plain _ data (le_n _) Hb) as Hp.
  unfold no_char. revert Hp. apply Base64Facts.forallb_impl.
  unfold Base64.plain. intros x H. now apply andb_true_iff in H.
Qed.

Lemma decompress_needs_header data :
  match data with
  | cmf :: flg :: _ => Zlib.header_ok cmf flg = false
  | _ => True
  end ->
  Zlib.decompress data = Raise ZlibError.
Proof.
  unfold Zlib.decompress, Zlib.decompress_opt.
  destruct data as [|cmf [|flg body]]; try reflexivity.
  now intros ->.
Qed.

(** The pipeline on any text whose captured value is the base64 encoding
    of bytes that are not a zlib stream. *)
Lemma decode_viewstate_plain html data :
  forallb is_byte data = true ->
  captured_value IGNORECASE html = Some (Base64.b64encode data) ->
  Zlib.decompress data = Raise ZlibError ->
  decode_viewstate html = Ok (DecodedRaw (text_of_bytes data)).
Proof.
  intros Hb Hc Hz. rewrite decode_viewstate_outcome, Hc. unfold outcome_of.
  now rewrite Base64Facts.b64decode_b64encode, Hz.
Qed.

Lemma decode_viewstate_zlib html compressed z :
  forallb is_byte compressed = true ->
  captured_value IGNORECASE html = Some (Base64.b64encode compressed) ->
  Zlib.decompress compressed = Ok z ->
  decode_viewstate html = Ok (DecodedZlib (text_of_bytes z)).
Proof.
  intros Hb Hc Hz. rewrite decode_viewstate_outcome, Hc. unfold outcome_of.
  now rewrite Base64Facts.b64decode_b64encode, Hz.
Qed.

End ViewstateMore.

(** * The page *)

Module AppFacts.
Import Re Text App.

Lemma decode_viewstate_empty : decode_viewstate [] = Ok NotFound.
Proof. reflexivity. Qed.

Lemma pin_nonempty text d :
  extract_pin_value (Some text) = Some d ->
  length d = 6%nat /\ forallb is_decimal d = true.
Proof.
  rewrite extract_pin_value_eq. intros H.
  apply PinFacts.pin_search_sound in H.
  destruct H as (pre & rest & c & _ & Hl & Hd & _). now split.
Qed.

Lemma show_results_decoded source_content o :
  source_content <> [] ->
  decode_viewstate source_content = Ok o ->
  show_results source_content = Ok (results_of (py_value o)).
Proof.
  intros Hne Ho. destruct source_content as [|c s]; [congruence|].
  unfold show_results. rewrite Ho. cbn [bind]. unfold results_of.
  destruct (py_value o) as [[|a t]|]; try reflexivity.
  rewrite <- extract_pin_value_eq.
  set (found := extract_pin_value (Some (a :: t))).
  assert (E : extract_pin_value (Some (a :: t)) = found) by reflexivity.
  change (match found with
          | Some ((_ :: _) as pin_value) =>
              Ok [Subheader; Success (success_message pin_value);
                  DownloadButton pin_value]
          | _ => Ok [Subheader; WarningNoPin]
          end
          = Ok match found with
               | Some pin_value =>
                   [Subheader; Success (success_message pin_value);
                    DownloadButton pin_value]
               | None => [Subheader; WarningNoPin]
               end).
  destruct found as [d|]; [|reflexivity].
  destruct (pin_nonempty _ _ E) as [Hl _].
  destruct d; [discriminate|reflexivity].
Qed.

Lemma captured_nonempty html v :
  captured_value IGNORECASE html = Some v -> html <> [].
Proof. intros H ->. discriminate. Qed.

Lemma on_button_pasted html o :
  html <> [] ->
  decode_viewstate html = Ok o ->
  forall uploaded_file,
    on_button html uploaded_file = Ok (results_of (py_value o)).
Proof.
  intros Hne Ho uploaded_file. unfold on_button, read_source.
  destruct html as [|c s]; [congruence|].
  now rewrite (show_results_decoded (c :: s) o Hne Ho).
Qed.

Lemma results_of_shape decoded_content : is_result (results_of decoded_content).
Proof.
  unfold results_of, is_result.
  destruct decoded_content as [[|a t]|]; auto.
  destruct (pin_search IGNORECASE (a :: t)) as [d|] eqn:E; auto.
  right. right. exists d. split; [reflexivity|].
  apply (pin_nonempty (a :: t)). now rewrite extract_pin_value_eq.
Qed.

Lemma show_results_shape source_content :
  exists out,
    show_results source_content = Ok out /\
    (source_content = [] /\ out = [InfoBegin] \/
     source_content <> [] /\ is_result out).
Proof.
  destruct source_content as [|c s].
  - exists [InfoBegin]. split; [reflexivity|]. now left.
  - eexists. split.
    + apply (show_results_decoded (c :: s)); [discriminate|].
      apply ViewstateMore.decode_viewstate_outcome.
    + right. split; [discriminate|]. apply results_of_shape.
Qed.

Lemma read_source_shape html_input uploaded_file :
  read_source html_input uploaded_file = ([], html_input) /\ html_input <> []
  \/ (exists content text,
        html_input = [] /\ uploaded_file = Some content /\
        Codec.utf8_decode content = Ok text /\
        read_source html_input uploaded_file = ([], text))
  \/ (exists content e,
        html_input = [] /\ uploaded_file = Some content /\
        Codec.utf8_decode content = Raise e /\
        read_source html_input uploaded_file
        = ([ErrorUpload UnicodeDecodeError], []))
  \/ html_input = [] /\ uploaded_file = None /\
     read_source html_input uploaded_file = ([], []).
Proof.
  unfold read_source. destruct html_input as [|c s].
  - right. destruct uploaded_file as [content|].
    + destruct (Codec.utf8_decode content) as [text|e] eqn:E.
      * left. now exists content, text.
      * right. left. exists content, e.
        pose proof (CodecFacts.utf8_decode_exn _ _ _ (le_n _) E). now subst e.
    + right. right. auto.
  - left. split; [reflexivity|discriminate].
Qed.

Lemma on_button_shape html_input uploaded_file :
  exists body, on_button html_input uploaded_file = Ok body /\ is_body body.
Proof.
  unfold on_button, is_body.
  destruct (read_source_shape html_input uploaded_file)
    as [[-> _]|[(c & t & _ & _ & _ & ->)|[(c & e & _ & _ & _ & ->)|(_ & _ & ->)]]].
  - destruct (show_results_shape html_input) as (out & -> & [[_ ->]|[_ H]]);
      eexists; (split; [reflexivity|]); auto.
  - destruct (show_results_shape t) as (out & -> & [[_ ->]|[_ H]]);
      eexists; (split; [reflexivity|]); auto.
  - eexists. split; [reflexivity|]. auto.
  - eexists. split; [reflexivity|]. auto.
Qed.

Lemma main_of_body html_input uploaded_file body :
  on_button html_input uploaded_file = Ok body ->
  main html_input uploaded_file true
  = Ok ([Title; Intro; TextArea; FileUploader; Button] ++ body
        ++ [InfoReminder]).
Proof. intros H. unfold main. now rewrite H. Qed.


Lemma on_button_bad_upload content e :
  Codec.utf8_decode content = Raise e ->
  on_button [] (Some content) = Ok [ErrorUpload UnicodeDecodeError; InfoBegin].
Proof.
  intros E. pose proof (CodecFacts.utf8_decode_exn _ _ _ (le_n _) E). subst e.
  unfold on_button, read_source. now rewrite E.
Qed.

End AppFacts.

(** * The code with its diagnostic output *)

Module PrintingFacts.
Import Re Text.

Lemma writes_ascii out : forall l,
  forallb is_ascii l = true -> forallb (Printing.writes out) l = true.
Proof.
  induction l as [|c l IH]; [reflexivity|]. cbn [forallb].
  rewrite andb_true_iff. intros [Hc Hl].
  unfold Printing.writes at 1. now rewrite Hc, IH.
Qed.

(** A message with ASCII text around a piece of input is written exactly
    when the piece can be written. *)
Lemma print_around out before text after :
  forallb is_ascii before = true ->
  forallb is_ascii after = true ->
  Printing.print out (before ++ text ++ after) =
  if forallb (Printing.writes out) text then Ok tt
  else Raise UnicodeEncodeError.
Proof.
  intros Hb Ha. unfold Printing.print.
  rewrite !forallb_app, (writes_ascii out _ Hb), (writes_ascii out _ Ha).
  now rewrite andb_true_r.
Qed.

Lemma writes_replacing l : forallb (Printing.writes Printing.replacing) l = true.
Proof.
  induction l as [|c l IH]; [reflexivity|]. cbn [forallb].
  unfold Printing.writes at 1, Printing.replacing. now rewrite orb_true_r.
Qed.

Lemma print_line_21 out html :
  Printing.print out
    (lit "DEBUG: Content that failed to match (first 200 chars): '"
     ++ firstn 200 html ++ lit "'...") =
  if forallb (Printing.writes out) (firstn 200 html) then Ok tt
  else Raise UnicodeEncodeError.
Proof. apply print_around; vm_compute; reflexivity. Qed.

(** With its [print], [decode_viewstate] differs only when nothing is
    found. *)
Lemma decode_viewstate_print out html :
  Printing.decode_viewstate out html =
  match search VIEWSTATE_RE html IGNORECASE with
  | None =>
      if forallb (Printing.writes out) (firstn 200 html) then Ok NotFound
      else Raise UnicodeEncodeError
  | Some _ => decode_viewstate html
  end.
Proof.
  unfold Printing.decode_viewstate, decode_viewstate.
  destruct (search VIEWSTATE_RE html IGNORECASE) as [m|]; [reflexivity|].
  rewrite print_line_21.
  now destruct (forallb (Printing.writes out) (firstn 200 html)).
Qed.

Lemma decode_viewstate_print_outcome out html :
  Printing.decode_viewstate out html =
  match captured_value IGNORECASE html with
  | None =>
      if forallb (Printing.writes out) (firstn 200 html) then Ok NotFound
      else Raise UnicodeEncodeError
  | Some value => Ok (outcome_of (Some value))
  end.
Proof.
  rewrite decode_viewstate_print.
  destruct (captured_value IGNORECASE html) as [v|] eqn:Hc.
  - destruct (ViewstateMore.search_of_captured _ _ Hc) as (m & -> & _).
    now rewrite ViewstateMore.decode_viewstate_outcome, Hc.
  - now rewrite (ViewstateMore.search_none_of_captured _ Hc).
Qed.

(** On a stream that writes the first 200 characters the [print] changes
    nothing. *)
Lemma decode_viewstate_print_same out html :
  forallb (Printing.writes out) (firstn 200 html) = true ->
  Printing.decode_viewstate out html = decode_viewstate html.
Proof.
  intros H. rewrite decode_viewstate_print, H.
  unfold decode_viewstate.
  now destruct (search VIEWSTATE_RE html IGNORECASE).
Qed.

Lemma decode_viewstate_print_exn out html e :
  Printing.decode_viewstate out html = Raise e ->
  e = UnicodeEncodeError /\
  search VIEWSTATE_RE html IGNORECASE = None /\
  forallb (Printing.writes out) (firstn 200 html) = false.
Proof.
  rewrite decode_viewstate_print.
  destruct (search VIEWSTATE_RE html IGNORECASE) as [m|].
  - rewrite ViewstateMore.decode_viewstate_outcome. discriminate.
  - destruct (forallb (Printing.writes out) (firstn 200 html));
      [discriminate|].
    intros E. split; [congruence|]. now split.
Qed.

(** ** No value attribute after the name attribute *)

Lemma last_value_offset_some ic : forall s,
  somewhere_in_tag (value_attr_here ic) s = true ->
  last_value_offset ic s <> None.
Proof.
  induction s as [|ch s IH]; cbn [somewhere_in_tag last_value_offset].
  - rewrite orb_false_r. now intros ->.
  - intros H. apply orb_true_iff in H.
    destruct (negb (ch =? GT)) eqn:Hg; cbn [andb] in H.
    + destruct (last_value_offset ic s) as [k|] eqn:Hl; [discriminate|].
      destruct H as [H|H]; [now rewrite H|].
      now destruct (IH H).
    + destruct H as [H|H]; [now rewrite H|discriminate].
Qed.

Lemma last_value_offset_none_iff ic s :
  last_value_offset ic s = None <->
  somewhere_in_tag (value_attr_here ic) s = false.
Proof.
  split.
  - intros H. destruct (somewhere_in_tag (value_attr_here ic) s) eqn:E;
      [|reflexivity].
    now destruct (last_value_offset_some ic s E).
  - apply ViewstateFacts.last_value_offset_none.
Qed.

Lemma captured_none_iff ic : forall s,
  captured_value ic s = None <-> value_after_name ic s = false.
Proof.
  assert (Here : forall s,
    (if starts_with ic NAME_ATTR s
     then option_map (fun k => until_quote (skipn 7 (skipn k (skipn 18 s))))
            (last_value_offset ic (skipn 18 s))
     else None) = None <->
    starts_with ic NAME_ATTR s
    && somewhere_in_tag (value_attr_here ic) (skipn 18 s) = false).
  { intros s. destruct (starts_with ic NAME_ATTR s); cbn [andb].
    - rewrite <- last_value_offset_none_iff.
      destruct (last_value_offset ic (skipn 18 s)); cbn [option_map];
        split; congruence.
    - split; reflexivity. }
  induction s as [|ch s IH]; cbn [captured_value value_after_name].
  - rewrite orb_false_r, <- Here.
    destruct (if starts_with ic NAME_ATTR [] then _ else None);
      split; congruence.
  - rewrite orb_false_iff, <- Here, <- IH.
    destruct (if starts_with ic NAME_ATTR (ch :: s) then _ else None).
    + split; [discriminate|]. intros [H _]. discriminate H.
    + split; [now split|now intros [_ H]].
Qed.

(** Nothing is found exactly when no name attribute has a value attribute
    after it in its tag. *)
Lemma not_found_iff html :
  decode_viewstate html = Ok NotFound <->
  value_after_name IGNORECASE html = false.
Proof.
  rewrite <- captured_none_iff, ViewstateMore.decode_viewstate_outcome.
  destruct (captured_value IGNORECASE html) as [v|]; cbn [outcome_of].
  - split; [|discriminate].
    destruct (Base64.b64decode v) as [bytes|[]];
      try destruct (Zlib.decompress bytes); discriminate.
  - split; reflexivity.
Qed.

Lemma not_found_print_iff out html :
  Printing.decode_viewstate out html = Ok NotFound <->
  value_after_name IGNORECASE html = false /\
  forallb (Printing.writes out) (firstn 200 html) = true.
Proof.
  rewrite <- captured_none_iff, decode_viewstate_print_outcome.
  destruct (captured_value IGNORECASE html) as [v|]; cbn [outcome_of].
  - split; [|now intros [H _]].
    destruct (Base64.b64decode v) as [bytes|[]];
      try destruct (Zlib.decompress bytes); discriminate.
  - destruct (forallb (Printing.writes out) (firstn 200 html));
      split; try discriminate; auto.
    now intros [_ H].
Qed.

End PrintingFacts.

Module PagePrintingFacts.
Import Re Text App.

Lemma print_line_105 out html_input :
  Printing.print out
    (lit "DEBUG: Content from text area (first 100 chars): "
     ++ firstn 100 html_input ++ lit "...") =
  if forallb (Printing.writes out) (firstn 100 html_input) then Ok tt
  else Raise UnicodeEncodeError.
Proof. apply PrintingFacts.print_around; vm_compute; reflexivity. Qed.

Lemma print_line_113 out source_content :
  Printing.print out
    (lit "DEBUG: Content from uploaded file (first 100 chars): "
     ++ firstn 100 source_content ++ lit "...") =
  if forallb (Printing.writes out) (firstn 100 source_content) then Ok tt
  else Raise UnicodeEncodeError.
Proof. apply PrintingFacts.print_around; vm_compute; reflexivity. Qed.

Lemma forallb_firstn_le {A} (f : A -> bool) : forall n m l,
  (n <= m)%nat -> forallb f (firstn m l) = true ->
  forallb f (firstn n l) = true.
Proof.
  induction n as [|n IH]; intros m l Hle H; [reflexivity|].
  destruct m as [|m]; [lia|]. destruct l as [|a l]; [reflexivity|].
  cbn [firstn forallb] in *. apply andb_true_iff in H. destruct H as [Ha H].
  rewrite Ha. apply (IH m); [lia|exact H].
Qed.

Lemma read_source_pasted out html_input uploaded_file :
  html_input <> [] ->
  Printing.read_source out html_input uploaded_file =
  if forallb (Printing.writes out) (firstn 100 html_input)
  then Ok ([], html_input) else Raise UnicodeEncodeError.
Proof.
  intros Hne. destruct html_input as [|c s]; [congruence|].
  unfold Printing.read_source. rewrite print_line_105.
  now destruct (forallb (Printing.writes out) (firstn 100 (c :: s))).
Qed.

Lemma read_source_uploaded out content :
  Printing.read_source out [] (Some content) =
  Ok match Codec.utf8_decode content with
     | Ok text =>
         if forallb (Printing.writes out) (firstn 100 text)
         then ([], text) else ([ErrorUpload UnicodeEncodeError], [])
     | Raise _ => ([ErrorUpload UnicodeDecodeError], [])
     end.
Proof.
  unfold Printing.read_source.
  destruct (Codec.utf8_decode content) as [text|e] eqn:E; cbn [bind].
  - rewrite print_line_113.
    now destruct (forallb (Printing.writes out) (firstn 100 text)).
  - now rewrite (CodecFacts.utf8_decode_exn _ _ _ (le_n _) E).
Qed.

Lemma show_results_print out source_content :
  source_content <> [] ->
  Printing.show_results out source_content =
  match Printing.decode_viewstate out source_content with
  | Ok o => Ok (results_of (py_value o))
  | Raise e => Raise e
  end.
Proof.
  intros Hne.
  destruct (Printing.decode_viewstate out source_content) as [o|e] eqn:Ho.
  - assert (Hp : decode_viewstate source_content = Ok o).
    { rewrite PrintingFacts.decode_viewstate_print in Ho.
      destruct (search VIEWSTATE_RE source_content IGNORECASE) eqn:Hs;
        [exact Ho|].
      unfold decode_viewstate. rewrite Hs.
      destruct (forallb _ _) in Ho; [exact Ho|discriminate]. }
    rewrite <- (AppFacts.show_results_decoded source_content o Hne Hp).
    destruct source_content as [|c s]; [congruence|].
    unfold Printing.show_results, show_results. now rewrite Ho, Hp.
  - destruct source_content as [|c s]; [congruence|].
    unfold Printing.show_results. now rewrite Ho.
Qed.

Lemma show_results_print_shape out text :
  match Printing.show_results out text with
  | Ok results =>
      text = [] /\ results = [InfoBegin] \/ text <> [] /\ is_result results
  | Raise e =>
      e = UnicodeEncodeError /\ text <> [] /\
      forallb (Printing.writes out) (firstn 200 text) = false
  end.
Proof.
  destruct text as [|c s].
  - left. now split.
  - rewrite show_results_print by discriminate.
    destruct (Printing.decode_viewstate out (c :: s)) as [o|e] eqn:Ho.
    + right. split; [discriminate|]. apply AppFacts.results_of_shape.
    + apply PrintingFacts.decode_viewstate_print_exn in Ho.
      destruct Ho as (-> & _ & Hw). split; [reflexivity|].
      split; [discriminate|exact Hw].
Qed.

Lemma on_button_print_shape out html_input uploaded_file :
  match Printing.on_button out html_input uploaded_file with
  | Ok body => is_body_print body
  | Raise e =>
      e = UnicodeEncodeError /\
      exists text,
        source_text html_input uploaded_file text /\
        forallb (Printing.writes out) (firstn 200 text) = false
  end.
Proof.
  unfold Printing.on_button, is_body_print, source_text.
  destruct html_input as [|c s].
  - destruct uploaded_file as [content|].
    + rewrite read_source_uploaded. cbn [bind].
      destruct (Codec.utf8_decode content) as [text|e] eqn:E.
      * destruct (forallb (Printing.writes out) (firstn 100 text)) eqn:Hw.
        -- pose proof (show_results_print_shape out text) as H.
           destruct (Printing.show_results out text) as [r|e']; cbn [bind].
           ++ destruct H as [[_ ->]|[_ H]]; cbn [app]; auto.
           ++ destruct H as (-> & Hne & H). split; [reflexivity|].
              exists text. split; [|exact H]. right. split; [reflexivity|].
              now exists content.
        -- cbn. right. left. exists UnicodeEncodeError. auto.
      * cbn. right. left. exists UnicodeDecodeError. auto.
    + cbn. now left.
  - rewrite read_source_pasted by discriminate.
    destruct (forallb (Printing.writes out) (firstn 100 (c :: s))) eqn:Hw;
      cbn [bind].
    + pose proof (show_results_print_shape out (c :: s)) as H.
      destruct (Printing.show_results out (c :: s)) as [r|e']; cbn [bind].
      * destruct H as [[H _]|[_ H]]; [discriminate H|]. cbn [app]. auto.
      * destruct H as (-> & Hne & H). split; [reflexivity|].
        exists (c :: s). split; [|exact H]. left. now split.
    + split; [reflexivity|]. exists (c :: s). split.
      * left. split; [reflexivity|discriminate].
      * destruct (forallb (Printing.writes out) (firstn 200 (c :: s))) eqn:H2;
          [|reflexivity].
        rewrite (forallb_firstn_le _ 100 200 (c :: s)) in Hw;
          [discriminate|lia|exact H2].
Qed.

(** On a stream that writes everything the page is the one of [App]. *)
Lemma on_button_replacing html_input uploaded_file :
  Printing.on_button Printing.replacing html_input uploaded_file
  = on_button html_input uploaded_file.
Proof.
  unfold Printing.on_button, on_button, read_source.
  destruct html_input as [|c s].
  - destruct uploaded_file as [content|].
    + rewrite read_source_uploaded. cbn [bind].
      destruct (Codec.utf8_decode content) as [text|e] eqn:E.
      * rewrite PrintingFacts.writes_replacing.
        destruct text as [|a t]; [reflexivity|].
        rewrite show_results_print by discriminate.
        rewrite PrintingFacts.decode_viewstate_print_same
          by apply PrintingFacts.writes_replacing.
        rewrite ViewstateMore.decode_viewstate_outcome.
        rewrite (AppFacts.show_results_decoded (a :: t) _ ltac:(discriminate)
                   (ViewstateMore.decode_viewstate_outcome (a :: t))).
        reflexivity.
      * now rewrite (CodecFacts.utf8_decode_exn _ _ _ (le_n _) E).
    + reflexivity.
  - rewrite read_source_pasted by discriminate.
    rewrite PrintingFacts.writes_replacing. cbn [bind].
    rewrite show_results_print by discriminate.
    rewrite PrintingFacts.decode_viewstate_print_same
      by apply PrintingFacts.writes_replacing.
    rewrite ViewstateMore.decode_viewstate_outcome.
    rewrite (AppFacts.show_results_decoded (c :: s) _ ltac:(discriminate)
               (ViewstateMore.decode_viewstate_outcome (c :: s))).
    reflexivity.
Qed.

End PagePrintingFacts.
(* ================================================================== *)
(** * The properties claimed by the specification *)

Import Re Text.

(** ** C1 *)

(** C1, the claim as stated fails: on PIN1234567 the search does not
    return absent, it returns the first six digits of the seven. *)
Lemma pin_seven_digits_counterexample :
  extract_pin_value (Some (lit "PIN1234567")) = Some (lit "123456").
Proof. vm_compute. reflexivity. Qed.

(** C1, amended.  When the first occurrence of the label PIN is directly
    followed by a run of seven or more decimal digits, [extract_pin_value]
    returns the first six digits of the run.  What is never returned is a
    run of six digits that comes directly after a digit: whatever is
    returned stands in the text after a character that is not a digit. *)
Theorem pin_before_long_run pre label ds rest :
  first_occurrence IGNORECASE PIN_LABEL (pre ++ label ++ ds ++ rest)
    = Some (length pre) ->
  same_literal IGNORECASE PIN_LABEL label = true ->
  (7 <= length ds)%nat ->
  forallb is_decimal ds = true ->
  extract_pin_value (Some (pre ++ label ++ ds ++ rest)) = Some (firstn 6 ds)
  /\ forall text d,
       extract_pin_value (Some text) = Some d ->
       exists before after c,
         text = before ++ d ++ after /\
         prev_of before None = Some c /\ is_decimal c = false.
Proof.
  intros Hfirst Hlabel Hlen Hds. split.
  - rewrite extract_pin_value_eq, PinFacts.pin_search_skip by exact Hfirst.
    apply PinFacts.pin_search_digits_after_label; auto. lia.
  - intros text d H. rewrite extract_pin_value_eq in H.
    apply PinFacts.pin_search_sound in H.
    destruct H as (before & after & c & E & _ & _ & Hp & Hc).
    now exists before, after, c.
Qed.

Lemma pin_before_long_run_witness :
  extract_pin_value (Some (lit "x " ++ lit "PIN" ++ lit "1234567" ++ lit " y"))
  = Some (firstn 6 (lit "1234567"))
  /\ forall text d,
       extract_pin_value (Some text) = Some d ->
       exists before after c,
         text = before ++ d ++ after /\
         prev_of before None = Some c /\ is_decimal c = false.
Proof.
  apply (pin_before_long_run (lit "x ") (lit "PIN") (lit "1234567") (lit " y"));
    [vm_compute; reflexivity | vm_compute; reflexivity | vm_compute; lia
    | vm_compute; reflexivity].
Defined.

(** ** C2 *)

(** C2, the claim as stated fails: [\d] matches every Unicode decimal
    digit, so the six characters returned need not be ASCII digits; here
    they are Arabic-Indic digits. *)
Lemma pin_ascii_counterexample :
  extract_pin_value
    (Some (lit "PIN " ++ [0x661; 0x662; 0x663; 0x664; 0x665; 0x666]))
  = Some [0x661; 0x662; 0x663; 0x664; 0x665; 0x666]
  /\ forallb is_ascii_digit [0x661; 0x662; 0x663; 0x664; 0x665; 0x666] = false.
Proof. split; vm_compute; reflexivity. Qed.

(** C2, amended.  Whatever [extract_pin_value] returns is a string of
    exactly six decimal digits in the sense of [\d] (Unicode category Nd);
    they are the ASCII digits 0-9 whenever the text is ASCII. *)
Theorem pin_six_decimal_digits text d :
  extract_pin_value (Some text) = Some d ->
  length d = 6%nat /\ forallb is_decimal d = true /\
  (forallb is_ascii text = true -> forallb is_ascii_digit d = true).
Proof.
  intros H. rewrite extract_pin_value_eq in H.
  apply PinFacts.pin_search_sound in H.
  destruct H as (before & after & c & E & Hl & Hd & _).
  split; [exact Hl|]. split; [exact Hd|].
  intros Ha. subst text. rewrite !forallb_app in Ha.
  apply andb_true_iff in Ha. destruct Ha as [_ Ha].
  apply andb_true_iff in Ha. destruct Ha as [Ha _].
  rewrite forallb_forall in *. intros x Hx.
  apply PinFacts.decimal_ascii; auto.
Qed.

Lemma pin_six_decimal_digits_witness :
  length (lit "123456") = 6%nat /\
  forallb is_decimal (lit "123456") = true /\
  (forallb is_ascii (lit "PIN: 123456") = true ->
   forallb is_ascii_digit (lit "123456") = true).
Proof.
  apply (pin_six_decimal_digits (lit "PIN: 123456") (lit "123456")).
  vm_compute. reflexivity.
Defined.

(** ** C3 *)

(** C3, the claim as stated fails: the value a!Gk= contains a character
    outside the base64 alphabet, yet decoding succeeds (the character is
    skipped) and the text hi comes out. *)
Lemma invalid_character_counterexample :
  decode_viewstate (minimal_input (lit "a!Gk=")) = Ok (DecodedRaw (lit "hi"))
  /\ Base64.is_alphabet 33 = false.
Proof. split; vm_compute; reflexivity. Qed.

(** C3, amended.  In a captured value of ASCII characters the characters
    outside the base64 alphabet are skipped: decoding sees only the
    alphabet and pad characters.  [decode_viewstate] fails with
    InvalidEncoding exactly when decoding those ends inside an unfinished
    quad; for a value without pad characters that is exactly when the
    number of alphabet characters is not a multiple of four.  A value with
    a character that is not ASCII fails as well, through the handler for
    any other exception. *)
Theorem invalid_encoding_exactly html m :
  search VIEWSTATE_RE html IGNORECASE = Some m ->
  let value := group m 1 in
  let data := filter Base64.significant value in
  (forallb is_ascii value = false ->
   decode_viewstate html = Ok UnexpectedError) /\
  (forallb is_ascii value = true ->
   Base64.b64decode value = Base64.a2b_base64 data /\
   (decode_viewstate html = Ok InvalidEncoding <->
    Base64.a2b_base64 data = Raise BinasciiError) /\
   (no_char Base64.BASE64_PAD data = true ->
    (decode_viewstate html = Ok InvalidEncoding <->
     Z.of_nat (length data) mod 4 <> 0))).
Proof.
  intros Hm value data. split.
  - intros Ha.
    assert (Hb : Base64.b64decode value = Raise ValueError).
    { unfold Base64.b64decode, Base64.bytes_from_decode_data. now rewrite Ha. }
    now rewrite (DecodeFacts.decode_viewstate_b64_error html m _ Hm Hb).
  - intros Ha.
    assert (Hb : Base64.b64decode value = Base64.a2b_base64 data).
    { unfold Base64.b64decode, Base64.bytes_from_decode_data. rewrite Ha.
      cbn [bind]. unfold Base64.a2b_base64, data.
      now rewrite Base64Facts.a2b_loop_filter. }
    assert (Hiff : decode_viewstate html = Ok InvalidEncoding <->
                   Base64.a2b_base64 data = Raise BinasciiError).
    { destruct (Base64.b64decode value) as [bytes|e] eqn:E; rewrite <- Hb.
      - rewrite (DecodeFacts.decode_viewstate_decoded html m bytes Hm E).
        split; [|discriminate]. now destruct (Zlib.decompress bytes).
      - rewrite (DecodeFacts.decode_viewstate_b64_error html m e Hm E).
        symmetry in Hb. apply Base64Facts.a2b_loop_exn in Hb. now subst e. }
    split; [exact Hb|]. split; [exact Hiff|].
    intros Hp. rewrite Hiff.
    assert (Hal : forallb Base64.is_alphabet data = true).
    { rewrite forallb_forall. intros x Hx.
      unfold no_char in Hp. rewrite forallb_forall in Hp.
      pose proof (Hp x Hx) as Hx'. apply negb_true_iff in Hx'.
      unfold data in Hx. apply filter_In in Hx. destruct Hx as [_ Hs].
      unfold Base64.significant in Hs. now rewrite Hx' in Hs. }
    pose proof (Base64Facts.a2b_loop_no_pad data 0 0 0 [] ltac:(lia) Hp Hal) as H.
    cbn [Z.add] in H. unfold Base64.a2b_base64.
    destruct (Z.eqb_spec (Z.of_nat (length data) mod 4) 0) as [E|E].
    + destruct H as [r Hr]. rewrite Hr. split; [discriminate|tauto].
    + rewrite H. tauto.
Qed.

Lemma invalid_encoding_exactly_witness :
  decode_viewstate (minimal_input (lit "a!Gk")) = Ok InvalidEncoding
  <-> Z.of_nat (length (filter Base64.significant (lit "a!Gk"))) mod 4 <> 0.
Proof.
  assert (Hm : search VIEWSTATE_RE (minimal_input (lit "a!Gk")) IGNORECASE
               = Some {| m_string := minimal_input (lit "a!Gk");
                         m_marks := [(1%nat, true, 37%nat);
                                     (1%nat, false, 33%nat)] |})
    by (vm_compute; reflexivity).
  apply (proj2 (invalid_encoding_exactly _ _ Hm));
    vm_compute; reflexivity.
Defined.

(** ** C4 *)

(** C4: a newline between the label and the digits.  The gap [.*?] is
    compiled without DOTALL, so it does not step over a newline and the
    search returns absent, although any other character in the same place,
    a space for one, is stepped over. *)
Theorem pin_newline_gap :
  extract_pin_value (Some (lit "PIN" ++ [NEWLINE] ++ lit "123456")) = None
  /\ extract_pin_value (Some (lit "PIN" ++ [32] ++ lit "123456"))
     = Some (lit "123456").
Proof. split; vm_compute; reflexivity. Qed.

(** ** C5 *)

(** C5.  Take a text of Unicode scalar values and compress its UTF-8
    bytes with the zlib scheme in any way the format allows: any division
    into stored blocks, blocks with the fixed codes and blocks with
    dynamic codes, any literals and length/distance pairs that stand for
    the bytes, any complete Huffman codes and any run-length encoding of
    their lengths, under any zlib header for deflate without dictionary.
    [decode_viewstate] on the minimal attribute string around the base64
    encoding of the stream returns the text.  Such a stream exists for
    every text: the one with a single block of literals under the fixed
    codes, and the one of stored blocks. *)
Theorem round_trip text :
  forallb Codec.is_scalar text = true ->
  (forall cmf flg blocks,
     is_byte cmf = true -> is_byte flg = true ->
     Zlib.header_ok cmf flg = true ->
     Deflate.valid blocks = true ->
     Deflate.expand blocks = Codec.utf8_encode text ->
     decode_viewstate
       (minimal_input
          (Base64.b64encode (Deflate.zlib_stream cmf flg blocks)))
     = Ok (DecodedZlib text))
  /\ decode_viewstate
       (minimal_input
          (Base64.b64encode
             (Deflate.zlib_stream 0x78 0x9c
                (Deflate.literal_block (Codec.utf8_encode text)))))
     = Ok (DecodedZlib text)
  /\ decode_viewstate
       (minimal_input
          (Base64.b64encode (Zlib.compress_stored (Codec.utf8_encode text))))
     = Ok (DecodedZlib text).
Proof.
  intros Ht.
  pose proof (CodecFacts.utf8_encode_bytes text Ht) as Hb.
  assert (All : forall cmf flg blocks,
     is_byte cmf = true -> is_byte flg = true ->
     Zlib.header_ok cmf flg = true ->
     Deflate.valid blocks = true ->
     Deflate.expand blocks = Codec.utf8_encode text ->
     decode_viewstate
       (minimal_input
          (Base64.b64encode (Deflate.zlib_stream cmf flg blocks)))
     = Ok (DecodedZlib text)).
  { intros cmf flg blocks Hc Hf Hh Hv He.
    apply DecodeFacts.round_trip_stream; [exact Ht| |].
    - now apply WriterFacts.zlib_stream_bytes.
    - rewrite <- He. now apply StreamFacts.decompress_zlib_stream. }
  split; [exact All|split].
  - apply All; try reflexivity.
    + now apply WriterFacts.literal_block_valid.
    + apply WriterFacts.literal_block_expand.
  - apply DecodeFacts.round_trip_stream; [exact Ht| |].
    + now apply StoredFacts.compress_stored_bytes.
    + now apply StoredFacts.decompress_compress_stored.
Qed.

(** The two streams are the output of [zlib.compress] on the two texts:
    a block with the fixed codes, and a block with dynamic codes and
    copies. *)
Lemma round_trip_witness :
  decode_viewstate (minimal_input (Base64.b64encode Streams.pin_stream))
  = Ok (DecodedZlib Streams.pin_text)
  /\ decode_viewstate
       (minimal_input (Base64.b64encode Streams.letter_stream))
     = Ok (DecodedZlib Streams.letter_text).
Proof.
  split.
  - replace Streams.pin_stream
      with (Deflate.zlib_stream 0x78 0x9c Streams.pin_blocks)
      by (vm_compute; reflexivity).
    apply (proj1 (round_trip Streams.pin_text ltac:(vm_compute; reflexivity)));
      vm_compute; reflexivity.
  - replace Streams.letter_stream
      with (Deflate.zlib_stream 0x78 0x9c Streams.letter_blocks)
      by (vm_compute; reflexivity).
    apply (proj1 (round_trip Streams.letter_text
                    ltac:(vm_compute; reflexivity)));
      vm_compute; reflexivity.
Defined.

(** ** C6 *)

(** C6.  When the captured value decodes from base64 but the decoded bytes
    are not a zlib stream, [decode_viewstate] does not fail: it returns, at
    line 55, the text of the decoded bytes themselves. *)
Theorem decompression_failure_falls_back html m decoded_bytes e :
  search VIEWSTATE_RE html IGNORECASE = Some m ->
  Base64.b64decode (group m 1) = Ok decoded_bytes ->
  Zlib.decompress decoded_bytes = Raise e ->
  decode_viewstate html = Ok (DecodedRaw (text_of_bytes decoded_bytes)).
Proof.
  intros Hm Hb Hz.
  now rewrite (DecodeFacts.decode_viewstate_decoded html m decoded_bytes Hm Hb), Hz.
Qed.

Lemma decompression_failure_falls_back_witness :
  decode_viewstate (minimal_input (lit "aGk="))
  = Ok (DecodedRaw (text_of_bytes (lit "hi"))).
Proof.
  apply (decompression_failure_falls_back
           (minimal_input (lit "aGk="))
           {| m_string := minimal_input (lit "aGk=");
              m_marks := [(1%nat, true, 37%nat); (1%nat, false, 33%nat)] |}
           (lit "hi") ZlibError);
    vm_compute; reflexivity.
Defined.

(** ** C7 *)

(** C7, the claim as stated fails.  With an attribute between the two
    whose value contains [>] nothing is found although the tag carries the
    name and a value of valid base64; and an attribute after the value
    attribute that ends in value=DQ...DQ is captured in its place. *)
Lemma attribute_order_counterexample :
  decode_viewstate
    (lit "<input " ++ NAME_ATTR ++ lit " title=" ++ [DQUOTE; GT; DQUOTE]
     ++ lit " " ++ VALUE_OPEN ++ lit "QUJD" ++ [DQUOTE] ++ lit " />")
  = Ok NotFound
  /\ decode_viewstate
       (lit "<input " ++ NAME_ATTR ++ lit " " ++ VALUE_OPEN ++ lit "QUJD"
        ++ [DQUOTE] ++ lit " data-" ++ VALUE_OPEN ++ lit "WFla" ++ [DQUOTE]
        ++ lit " />")
     = Ok (DecodedRaw (lit "XYZ")).
Proof. split; vm_compute; reflexivity. Qed.

(** C7, amended.  Let the first occurrence of name=DQ __VIEWSTATE DQ in the
    text, in any letter case, be followed by characters [mid] none of which
    is [>], then by value=DQ, a value [v] without double quote and the
    closing double quote, and let no further value=DQ...DQ begin in the
    rest of the tag.  Then the search of line 16 captures exactly [v],
    whatever other attributes [mid] holds. *)
Theorem value_is_captured pre name mid val v post :
  first_occurrence IGNORECASE NAME_ATTR
    (pre ++ name ++ mid ++ val ++ v ++ [DQUOTE] ++ post) = Some (length pre) ->
  length name = length NAME_ATTR ->
  no_char GT mid = true ->
  same_literal IGNORECASE VALUE_OPEN val = true ->
  no_char DQUOTE v = true ->
  somewhere_in_tag (value_attr_here IGNORECASE) (v ++ [DQUOTE] ++ post) = false ->
  exists m,
    search VIEWSTATE_RE (pre ++ name ++ mid ++ val ++ v ++ [DQUOTE] ++ post)
      IGNORECASE = Some m /\
    group m 1 = v.
Proof. apply ViewstateFacts.viewstate_search. Qed.

Lemma value_is_captured_witness :
  exists m,
    search VIEWSTATE_RE
      (lit "<input type=hidden " ++ lit "NAME=" ++ [DQUOTE] ++ lit "__ViewState"
       ++ [DQUOTE] ++ lit " id=x data-value=7 " ++ lit "Value=" ++ [DQUOTE]
       ++ lit "QUJD" ++ [DQUOTE] ++ lit " /><p>")
      IGNORECASE = Some m /\
    group m 1 = lit "QUJD".
Proof.
  apply (value_is_captured (lit "<input type=hidden ")
           (lit "NAME=" ++ [DQUOTE] ++ lit "__ViewState" ++ [DQUOTE])
           (lit " id=x data-value=7 ") (lit "Value=" ++ [DQUOTE])
           (lit "QUJD") (lit " /><p>"));
    vm_compute; reflexivity.
Defined.

(** ** C8 *)

(** C8, the claim as stated fails.  On a text without the attribute the
    [print] of line 21 writes the beginning of the text, outside every
    [try]: with a lone surrogate in the text and a UTF-8 standard output,
    or with a letter beyond ASCII and an ASCII standard output, it raises
    UnicodeEncodeError and the exception leaves [decode_viewstate]. *)
Lemma uncaught_print_counterexample :
  Printing.decode_viewstate Printing.utf8 [0xd800] = Raise UnicodeEncodeError
  /\ Printing.decode_viewstate Printing.ascii (lit "caf" ++ [0xe9])
     = Raise UnicodeEncodeError.
Proof. split; vm_compute; reflexivity. Qed.

(** C8, amended.  Every byte buffer that reaches the text-interpretation
    step is decoded by the Latin-1 fallback, so [decode_viewstate] never
    returns the hex diagnostic of line 54.  It returns a value for every
    text in which the search finds the attribute, and for every text whose
    first 200 characters the standard output can write.  The only
    exception that leaves it is the UnicodeEncodeError of the [print] of
    line 21, when nothing is found and one of the first 200 characters
    cannot be written. *)
Theorem latin1_always_succeeds out html :
  (forall buffer,
     reaches_text_step html buffer -> Codec.latin1_decode buffer = Ok buffer)
  /\ (forall s, Printing.decode_viewstate out html <> Ok (HexDump s))
  /\ ((exists m, search VIEWSTATE_RE html IGNORECASE = Some m) \/
      forallb (Printing.writes out) (firstn 200 html) = true ->
      exists o, Printing.decode_viewstate out html = Ok o)
  /\ (forall e,
        Printing.decode_viewstate out html = Raise e ->
        e = UnicodeEncodeError /\
        search VIEWSTATE_RE html IGNORECASE = None /\
        forallb (Printing.writes out) (firstn 200 html) = false).
Proof.
  split; [|split; [|split]].
  - intros buffer (m & decoded_bytes & Hm & Hb & H).
    apply CodecFacts.latin1_decode_bytes.
    destruct H as [Hz|[_ ->]].
    + exact (ZlibFacts.decompress_bytes _ _ Hz).
    + exact (Base64Facts.b64decode_bytes _ _ Hb).
  - intros s. rewrite PrintingFacts.decode_viewstate_print_outcome.
    destruct (captured_value IGNORECASE html) as [v|]; cbn [outcome_of].
    + destruct (Base64.b64decode v) as [bytes|[]];
        try destruct (Zlib.decompress bytes); discriminate.
    + destruct (forallb _ _); discriminate.
  - intros H. rewrite PrintingFacts.decode_viewstate_print.
    destruct (search VIEWSTATE_RE html IGNORECASE) as [m|].
    + rewrite ViewstateMore.decode_viewstate_outcome. eauto.
    + destruct H as [[m H]|H]; [discriminate H|]. rewrite H. eauto.
  - intros e. apply PrintingFacts.decode_viewstate_print_exn.
Qed.

Lemma latin1_always_succeeds_witness :
  Codec.latin1_decode [0xff; 0xfe] = Ok [0xff; 0xfe]
  /\ exists o,
       Printing.decode_viewstate Printing.utf8 (lit "caf" ++ [0xe9]) = Ok o.
Proof.
  split.
  - apply (proj1 (latin1_always_succeeds Printing.utf8
                    (minimal_input (lit "//4=")))).
    exists {| m_string := minimal_input (lit "//4=");
              m_marks := [(1%nat, true, 37%nat); (1%nat, false, 33%nat)] |},
      [0xff; 0xfe].
    split; [vm_compute; reflexivity|].
    split; [vm_compute; reflexivity|].
    right. split; [exists ZlibError; vm_compute; reflexivity|reflexivity].
  - apply (proj1 (proj2 (proj2 (latin1_always_succeeds Printing.utf8
                                  (lit "caf" ++ [0xe9]))))).
    right. vm_compute. reflexivity.
Defined.

(** ** C9 *)

(** C9.  When the captured value is empty, as for the input with
    value=DQ DQ, it decodes to the empty byte string, decompression of
    nothing fails, and [decode_viewstate] returns the empty text. *)
Theorem empty_value html m :
  search VIEWSTATE_RE html IGNORECASE = Some m ->
  group m 1 = [] ->
  Base64.b64decode (group m 1) = Ok []
  /\ decode_viewstate html = Ok (DecodedRaw [])
  /\ py_value (DecodedRaw []) = Some [].
Proof.
  intros Hm Hg. rewrite Hg.
  split; [reflexivity|]. split; [|reflexivity].
  rewrite (DecodeFacts.decode_viewstate_decoded html m [] Hm);
    [reflexivity|now rewrite Hg].
Qed.

Lemma empty_value_witness :
  Base64.b64decode
    (group {| m_string := minimal_input [];
              m_marks := [(1%nat, true, 33%nat); (1%nat, false, 33%nat)] |} 1)
  = Ok []
  /\ decode_viewstate (minimal_input []) = Ok (DecodedRaw [])
  /\ py_value (DecodedRaw []) = Some [].
Proof.
  apply (empty_value (minimal_input [])
           {| m_string := minimal_input [];
              m_marks := [(1%nat, true, 33%nat); (1%nat, false, 33%nat)] |});
    vm_compute; reflexivity.
Defined.

(** ** C10 *)

(** C10, the claim as stated fails.  With the value attribute in single
    quotes and a later attribute of the same tag that ends in value=DQ,
    the result is not NotFound: the later attribute is captured and
    decoded. *)
Lemma single_quoted_value_counterexample :
  decode_viewstate
    (lit "<input " ++ NAME_ATTR ++ lit " value='QUJD' data-" ++ VALUE_OPEN
     ++ lit "WFla" ++ [DQUOTE] ++ lit " />")
  = Ok (DecodedRaw (lit "XYZ"))
  /\ Printing.decode_viewstate Printing.utf8
       (lit "<input " ++ NAME_ATTR ++ lit " value='QUJD' data-" ++ VALUE_OPEN
        ++ lit "WFla" ++ [DQUOTE] ++ lit " />")
     = Ok (DecodedRaw (lit "XYZ")).
Proof. split; vm_compute; reflexivity. Qed.

(** C10, amended.  The search of line 16 matches only the double-quoted
    forms.  The result is NotFound exactly when no occurrence of
    name=DQ __VIEWSTATE DQ, in any letter case, has after it, before the
    next [>], the characters value=DQ and a later double quote; with the
    [print] of line 21, exactly when in addition the standard output can
    write the first 200 characters.  In particular a text in which
    name=DQ __VIEWSTATE DQ does not occur, or value=DQ does not occur,
    because the attributes are written with single quotes or without
    quotes, gives NotFound. *)
Theorem only_double_quotes html :
  (decode_viewstate html = Ok NotFound <->
   value_after_name IGNORECASE html = false)
  /\ (forall out,
        Printing.decode_viewstate out html = Ok NotFound <->
        value_after_name IGNORECASE html = false /\
        forallb (Printing.writes out) (firstn 200 html) = true)
  /\ (first_occurrence IGNORECASE NAME_ATTR html = None \/
      first_occurrence IGNORECASE VALUE_OPEN html = None ->
      value_after_name IGNORECASE html = false).
Proof.
  split; [|split].
  - apply PrintingFacts.not_found_iff.
  - intros out. apply PrintingFacts.not_found_print_iff.
  - intros H. apply PrintingFacts.not_found_iff.
    destruct H as [H|H]; apply DecodeFacts.decode_viewstate_not_found.
    + now apply ViewstateFacts.viewstate_search_no_name.
    + now apply ViewstateFacts.viewstate_search_no_value.
Qed.

Lemma only_double_quotes_witness :
  decode_viewstate
    (lit "<input " ++ NAME_ATTR ++ lit " value='QUJD' /><input type="
     ++ [DQUOTE] ++ lit "submit" ++ [DQUOTE] ++ lit " " ++ VALUE_OPEN
     ++ lit "Go" ++ [DQUOTE] ++ lit " />")
  = Ok NotFound
  /\ decode_viewstate (lit "<input name='__VIEWSTATE' value='QUJD' />")
     = Ok NotFound.
Proof.
  split.
  - apply (proj2 (proj1 (only_double_quotes _))). vm_compute. reflexivity.
  - apply (proj2 (proj1 (only_double_quotes _))).
    apply (proj2 (proj2 (only_double_quotes _))).
    left. vm_compute. reflexivity.
Defined.
(* ================================================================== *)
(** * Further properties of the two functions and of the page *)

Import Re Text App.

(** ** [extract_pin_value] *)

(** X1.  Whatever [extract_pin_value] returns stands in the text after an
    occurrence of the label PIN, in any letter case, with no newline
    between the label and the result, and is six decimal digits. *)
Theorem pin_follows_label text d :
  extract_pin_value (Some text) = Some d ->
  exists pre label gap rest,
    text = pre ++ label ++ gap ++ d ++ rest /\
    same_literal IGNORECASE PIN_LABEL label = true /\
    no_char NEWLINE gap = true /\
    length d = 6%nat /\ forallb is_decimal d = true.
Proof.
  rewrite extract_pin_value_eq. intros H.
  destruct (PinMore.pin_search_shape _ _ _ H)
    as (pre & label & gap & rest & E & Hl & Hg & Hw & Hd).
  exists pre, label, gap, rest.
  apply PinFacts.six_digits_here_inv in Hw. rewrite <- Hd in Hw.
  destruct Hw as (H6 & Hdec & _). auto.
Qed.

Lemma pin_follows_label_witness :
  exists pre label gap rest,
    lit "x pin: 123456 y" = pre ++ label ++ gap ++ lit "123456" ++ rest /\
    same_literal IGNORECASE PIN_LABEL label = true /\
    no_char NEWLINE gap = true /\
    length (lit "123456") = 6%nat /\
    forallb is_decimal (lit "123456") = true.
Proof.
  apply (pin_follows_label (lit "x pin: 123456 y") (lit "123456")).
  vm_compute. reflexivity.
Defined.

(** X2.  When the first occurrence of the label PIN is followed by
    characters that are neither decimal digits nor newlines and then by a
    run of six or more decimal digits, [extract_pin_value] returns the
    first six digits of the run. *)
Theorem pin_after_gap pre label gap ds rest :
  first_occurrence IGNORECASE PIN_LABEL (pre ++ label ++ gap ++ ds ++ rest)
    = Some (length pre) ->
  same_literal IGNORECASE PIN_LABEL label = true ->
  forallb (fun c => negb (is_decimal c) && negb (c =? NEWLINE)) gap = true ->
  (6 <= length ds)%nat ->
  forallb is_decimal ds = true ->
  extract_pin_value (Some (pre ++ label ++ gap ++ ds ++ rest))
  = Some (firstn 6 ds).
Proof.
  intros Hfirst Hlabel Hgap Hlen Hds.
  rewrite extract_pin_value_eq, PinFacts.pin_search_skip by exact Hfirst.
  now apply PinMore.pin_search_after_gap.
Qed.

Lemma pin_after_gap_witness :
  extract_pin_value
    (Some (lit "Your " ++ lit "Pin" ++ lit " is: " ++ lit "1234567"
           ++ lit "."))
  = Some (firstn 6 (lit "1234567")).
Proof.
  apply (pin_after_gap (lit "Your ") (lit "Pin") (lit " is: ")
           (lit "1234567") (lit "."));
    first [vm_compute; reflexivity | cbn; lia].
Defined.

(** X3.  A text in which the label PIN does not occur, in any letter
    case, has no PIN: [extract_pin_value] returns [None] however many
    digits the text holds. *)
Theorem pin_needs_label text :
  first_occurrence IGNORECASE PIN_LABEL text = None ->
  extract_pin_value (Some text) = None.
Proof.
  intros H. rewrite extract_pin_value_eq.
  now apply PinMore.pin_search_no_label.
Qed.

Lemma pin_needs_label_witness :
  extract_pin_value (Some (lit "code: 123456")) = None.
Proof. apply pin_needs_label. vm_compute. reflexivity. Defined.

(** X4.  A text without six decimal digits in a row has no PIN. *)
Theorem pin_needs_six_digits text :
  six_digits_somewhere text = false ->
  extract_pin_value (Some text) = None.
Proof.
  intros H. rewrite extract_pin_value_eq.
  apply PinMore.pin_search_no_run.
  now apply PinMore.six_digits_nowhere.
Qed.

Lemma pin_needs_six_digits_witness :
  extract_pin_value (Some (lit "PIN: 12345 and 678")) = None.
Proof. apply pin_needs_six_digits. vm_compute. reflexivity. Defined.

(** X16.  The text is searched line by line: the result for a text with
    a newline is the result for the part before the newline when there is
    one, and the result for the part after it otherwise.  A label and
    its digits are never matched across a newline. *)
Theorem pin_line_by_line line rest :
  extract_pin_value (Some (line ++ NEWLINE :: rest)) =
  match extract_pin_value (Some line) with
  | Some d => Some d
  | None => extract_pin_value (Some rest)
  end.
Proof.
  rewrite !extract_pin_value_eq. apply PinMore.pin_search_line.
Qed.

(** ** [decode_viewstate] *)

(** X5.  The search of line 16 captures [captured_value]: the match is at
    the first offset where the name attribute stands with a value
    attribute after it in the same tag, and the group is what stands
    between the opening quote of the last such value attribute and the
    next double quote. *)
Theorem search_captures html :
  option_map (fun m => group m 1) (search VIEWSTATE_RE html IGNORECASE)
  = captured_value IGNORECASE html.
Proof. apply ViewstateMore.search_captured_value. Qed.

(** X6.  What [decode_viewstate] does, for every text and standard
    output.  Nothing was captured: the [print] of line 21 writes the first
    200 characters of the text, and the result is NotFound when the
    standard output can write them and UnicodeEncodeError is raised when
    it cannot.  A value was captured: no exception leaves the function,
    and base64 decoding of the value raised binascii.Error,
    InvalidEncoding; it raised anything else, UnexpectedError; the
    decoded bytes decompress, the text of the decompressed bytes; they do
    not, the text of the decoded bytes, where the text of bytes is their
    UTF-8 reading or, failing that, their Latin-1 reading. *)
Theorem decode_viewstate_returns out html :
  Printing.decode_viewstate out html =
  match captured_value IGNORECASE html with
  | None =>
      if forallb (Printing.writes out) (firstn 200 html) then Ok NotFound
      else Raise UnicodeEncodeError
  | Some value =>
      Ok match Base64.b64decode value with
         | Raise BinasciiError => InvalidEncoding
         | Raise _ => UnexpectedError
         | Ok decoded_bytes =>
             match Zlib.decompress decoded_bytes with
             | Ok decompressed_bytes =>
                 DecodedZlib (text_of_bytes decompressed_bytes)
             | Raise _ => DecodedRaw (text_of_bytes decoded_bytes)
             end
         end
  end.
Proof. apply PrintingFacts.decode_viewstate_print_outcome. Qed.

(** X7.  The value attribute must come after the name attribute.  When
    the name attribute occurs once in the text and no double-quoted value
    attribute begins after it before the next [>], nothing is found,
    whatever stands before the name attribute. *)
Theorem value_must_follow_name pre name post :
  first_occurrence IGNORECASE NAME_ATTR (pre ++ name ++ post)
    = Some (length pre) ->
  length name = length NAME_ATTR ->
  first_occurrence IGNORECASE NAME_ATTR (tl (name ++ post)) = None ->
  somewhere_in_tag (value_attr_here IGNORECASE) post = false ->
  decode_viewstate (pre ++ name ++ post) = Ok NotFound.
Proof.
  intros H1 H2 H3 H4.
  rewrite ViewstateMore.decode_viewstate_outcome.
  now rewrite ViewstateMore.captured_value_no_value_after.
Qed.

Lemma value_must_follow_name_witness :
  decode_viewstate
    (lit "<input " ++ VALUE_OPEN ++ lit "QUJD" ++ [DQUOTE] ++ lit " "
     ++ NAME_ATTR ++ lit " />")
  = Ok NotFound.
Proof.
  apply (value_must_follow_name
           (lit "<input " ++ VALUE_OPEN ++ lit "QUJD" ++ [DQUOTE] ++ lit " ")
           NAME_ATTR (lit " />"));
    vm_compute; reflexivity.
Defined.

(** X8.  A value that is the base64 encoding of the UTF-8 bytes of a
    text, not compressed, comes back as that text whenever the bytes do
    not begin with a zlib header. *)
Theorem uncompressed_round_trip html text :
  forallb Codec.is_scalar text = true ->
  captured_value IGNORECASE html
  = Some (Base64.b64encode (Codec.utf8_encode text)) ->
  match Codec.utf8_encode text with
  | cmf :: flg :: _ => Zlib.header_ok cmf flg = false
  | _ => True
  end ->
  decode_viewstate html = Ok (DecodedRaw text).
Proof.
  intros Ht Hc Hh.
  rewrite (ViewstateMore.decode_viewstate_plain html (Codec.utf8_encode text)).
  - unfold text_of_bytes.
    now rewrite CodecFacts.utf8_decode_utf8_encode.
  - now apply CodecFacts.utf8_encode_bytes.
  - exact Hc.
  - now apply ViewstateMore.decompress_needs_header.
Qed.

Lemma uncompressed_round_trip_witness :
  decode_viewstate
    (minimal_input (Base64.b64encode (Codec.utf8_encode (lit "PIN: 123456"))))
  = Ok (DecodedRaw (lit "PIN: 123456")).
Proof.
  apply (uncompressed_round_trip
           (minimal_input
              (Base64.b64encode (Codec.utf8_encode (lit "PIN: 123456"))))
           (lit "PIN: 123456"));
    vm_compute; reflexivity.
Defined.

(** X9.  Compressed bytes that are not UTF-8 come back as their Latin-1
    reading: the text has one character per decompressed byte, with the
    code point equal to the byte. *)
Theorem compressed_bytes_as_latin1 html compressed decompressed_bytes e :
  forallb is_byte compressed = true ->
  captured_value IGNORECASE html = Some (Base64.b64encode compressed) ->
  Zlib.decompress compressed = Ok decompressed_bytes ->
  Codec.utf8_decode decompressed_bytes = Raise e ->
  decode_viewstate html = Ok (DecodedZlib decompressed_bytes).
Proof.
  intros Hb Hc Hz Hu.
  rewrite (ViewstateMore.decode_viewstate_zlib html compressed
             decompressed_bytes Hb Hc Hz).
  unfold text_of_bytes. now rewrite Hu.
Qed.

Lemma compressed_bytes_as_latin1_witness :
  decode_viewstate
    (minimal_input (Base64.b64encode (Zlib.compress_stored [0xff; 0x41])))
  = Ok (DecodedZlib [0xff; 0x41]).
Proof.
  apply (compressed_bytes_as_latin1
           (minimal_input
              (Base64.b64encode (Zlib.compress_stored [0xff; 0x41])))
           (Zlib.compress_stored [0xff; 0x41]) [0xff; 0x41]
           UnicodeDecodeError);
    vm_compute; reflexivity.
Defined.

(** ** The page *)

(** X10.  Everything the page can do, for every text-area content,
    uploaded file, button state and standard output.  It shows the five
    widgets, then what the button gives, then the reminder: without the
    button nothing more, and with it the request for input, or the upload
    error (a UnicodeDecodeError of the file, or the UnicodeEncodeError of
    the [print] of line 113) followed by the request for input, or the
    decoding error, or the warning that no PIN was found, or the PIN, six
    decimal digits, with a download button that carries the same six
    digits.  Or it fails: only with the button, only with the
    UnicodeEncodeError of the [print] of line 105 or line 21, and only
    when the standard output cannot write one of the first 200 characters
    of the text that is processed. *)
Theorem page_outcomes out html_input uploaded_file process_button :
  match Printing.main out html_input uploaded_file process_button with
  | Ok page =>
      exists body,
        page = [Title; Intro; TextArea; FileUploader; Button] ++ body
               ++ [InfoReminder] /\
        if process_button then
          body = [InfoBegin] \/
          (exists e,
             (e = UnicodeDecodeError \/ e = UnicodeEncodeError) /\
             body = [ErrorUpload e; InfoBegin]) \/
          body = [Subheader; ErrorDecode] \/
          body = [Subheader; WarningNoPin] \/
          exists pin_value,
            body = [Subheader; Success (success_message pin_value);
                    DownloadButton pin_value] /\
            length pin_value = 6%nat /\ forallb is_decimal pin_value = true
        else body = []
  | Raise e =>
      e = UnicodeEncodeError /\ process_button = true /\
      exists text,
        (html_input = text /\ text <> [] \/
         html_input = [] /\
         exists content,
           uploaded_file = Some content /\
           Codec.utf8_decode content = Ok text) /\
        forallb (Printing.writes out) (firstn 200 text) = false
  end.
Proof.
  unfold Printing.main. destruct process_button.
  - pose proof (PagePrintingFacts.on_button_print_shape out html_input
                  uploaded_file) as H.
    destruct (Printing.on_button out html_input uploaded_file) as [body|e];
      cbn [bind].
    + exists body. split; [reflexivity|].
      destruct H as [H|[H|[H|[H|H]]]]; auto 6.
    + destruct H as (-> & text & Hs & Hw). split; [reflexivity|].
      split; [reflexivity|]. exists text. split; [exact Hs|exact Hw].
  - exists []. split; reflexivity.
Qed.





(** X13.  An uploaded file that is not UTF-8 is not processed: the
    upload error is shown, then the request for input, and neither
    function runs. *)
Theorem upload_not_utf8 content e :
  Codec.utf8_decode content = Raise e ->
  on_button [] (Some content)
  = Ok [ErrorUpload UnicodeDecodeError; InfoBegin].
Proof. apply AppFacts.on_button_bad_upload. Qed.

Lemma upload_not_utf8_witness :
  on_button [] (Some [0x50; 0x49; 0x4e; 0xff])
  = Ok [ErrorUpload UnicodeDecodeError; InfoBegin].
Proof.
  apply (upload_not_utf8 [0x50; 0x49; 0x4e; 0xff] UnicodeDecodeError).
  vm_compute. reflexivity.
Defined.

(** X14.  From the pasted text to the PIN.  When [decode_viewstate]
    returns a text in which the first occurrence of the label PIN is
    followed, after characters that are neither digits nor newlines, by
    six or more decimal digits, the page shows the first six of them and
    offers the same six for download. *)
Theorem page_shows_pin html_input uploaded_file o pre label gap ds rest :
  decode_viewstate html_input = Ok o ->
  py_value o = Some (pre ++ label ++ gap ++ ds ++ rest) ->
  first_occurrence IGNORECASE PIN_LABEL (pre ++ label ++ gap ++ ds ++ rest)
    = Some (length pre) ->
  same_literal IGNORECASE PIN_LABEL label = true ->
  forallb (fun c => negb (is_decimal c) && negb (c =? NEWLINE)) gap = true ->
  (6 <= length ds)%nat ->
  forallb is_decimal ds = true ->
  main html_input uploaded_file true
  = Ok [Title; Intro; TextArea; FileUploader; Button;
        Subheader; Success (success_message (firstn 6 ds));
        DownloadButton (firstn 6 ds); InfoReminder].
Proof.
  intros Ho Hv Hfirst Hlabel Hgap Hlen Hds.
  assert (Hne : html_input <> []).
  { intros ->. rewrite AppFacts.decode_viewstate_empty in Ho.
    assert (o = NotFound) by congruence. subst o. discriminate Hv. }
  rewrite (AppFacts.main_of_body html_input uploaded_file
             (results_of (py_value o))
             (AppFacts.on_button_pasted html_input o Hne Ho uploaded_file)).
  rewrite Hv. unfold results_of.
  rewrite PinFacts.pin_search_skip by exact Hfirst.
  rewrite PinMore.pin_search_after_gap by assumption.
  pose proof (PinMore.same_literal_length _ _ _ Hlabel) as Hl.
  destruct label as [|a label]; [discriminate Hl|].
  destruct pre; reflexivity.
Qed.

Lemma page_shows_pin_witness :
  main
    (minimal_input
       (Base64.b64encode
          [0x78; 0x9c; 0x0b; 0xf0; 0xf4; 0xb3; 0x52; 0x30; 0x34; 0x32; 0x36;
           0x31; 0x35; 0x03; 0x00; 0x0f; 0xeb; 0x02; 0x77]))
    None true
  = Ok [Title; Intro; TextArea; FileUploader; Button;
        Subheader; Success (success_message (firstn 6 (lit "123456")));
        DownloadButton (firstn 6 (lit "123456")); InfoReminder].
Proof.
  apply (page_shows_pin
           (minimal_input
              (Base64.b64encode
                 [0x78; 0x9c; 0x0b; 0xf0; 0xf4; 0xb3; 0x52; 0x30; 0x34; 0x32;
                  0x36; 0x31; 0x35; 0x03; 0x00; 0x0f; 0xeb; 0x02; 0x77]))
           None (DecodedZlib (lit "PIN: 123456"))
           [] (lit "PIN") (lit ": ") (lit "123456") []);
    first [vm_compute; reflexivity | cbn; lia].
Defined.

(** X15.  When [decode_viewstate] returns a text that is not empty and
    holds no label PIN, or no six decimal digits in a row, the page shows
    the warning that no PIN was found. *)
Theorem page_warns_without_pin html_input uploaded_file o c text :
  decode_viewstate html_input = Ok o ->
  py_value o = Some (c :: text) ->
  first_occurrence IGNORECASE PIN_LABEL (c :: text) = None \/
  six_digits_somewhere (c :: text) = false ->
  on_button html_input uploaded_file = Ok [Subheader; WarningNoPin].
Proof.
  intros Ho Hv H.
  assert (Hne : html_input <> []).
  { intros ->. rewrite AppFacts.decode_viewstate_empty in Ho.
    assert (o = NotFound) by congruence. subst o. discriminate Hv. }
  rewrite (AppFacts.on_button_pasted html_input o Hne Ho uploaded_file), Hv.
  unfold results_of.
  assert (Hp : pin_search IGNORECASE (c :: text) = None).
  { destruct H as [H|H].
    - now apply PinMore.pin_search_no_label.
    - apply PinMore.pin_search_no_run. now apply PinMore.six_digits_nowhere. }
  now rewrite Hp.
Qed.

Lemma page_warns_without_pin_witness :
  on_button (minimal_input (lit "aGk=")) None = Ok [Subheader; WarningNoPin].
Proof.
  apply (page_warns_without_pin (minimal_input (lit "aGk=")) None
           (DecodedRaw (lit "hi")) 104 [105]).
  - vm_compute. reflexivity.
  - reflexivity.
  - left. vm_compute. reflexivity.
Defined.
